(** * LogFocus: the multi-pattern line classification engine

    A shallow embedding of the classification core of the LogFocus
    extension ([utils.ts], [filter.ts], [focusProvider.ts] and the
    text-mode escaping of [commands.ts]) together with the part of
    the ECMAScript [RegExp] object those functions rely on.

    JavaScript strings are lists of characters, [Map] and [Set] objects
    that are iterated are insertion-ordered association lists, the
    per-filter cache (only read by key) is a [gmap] and a [gset]. *)

From Stdlib Require Import ZArith Ascii String QArith Qcanon.
From stdpp Require Import gmap strings list sorting.

Set Default Proof Using "Type".
Set Warnings "-clear-no-such-hyp".
Local Open Scope nat_scope.

Definition backslash : ascii := "092".

(** A JavaScript string literal, as the list of its characters. *)
Definition js (s : string) : list ascii := list_ascii_of_string s.

(* ===================================================================== *)
(** * Regular expressions: the fragment of ECMAScript patterns in use    *)
(* ===================================================================== *)

Module Regex.

(** Abstract syntax.  [RGroup n r] is the capturing group whose opening
    parenthesis is the [n]-th of the whole pattern (counted from 1);
    a non-capturing group leaves no node.  Quantifiers are the greedy
    [*], [+] and [?]; [RLook neg r] is [(?=r)] or [(?!r)]. *)
Inductive pattern : Type :=
| REmpty
| RChar (c : ascii)
| RAny
| RBol
| REol
| RSeq (a b : pattern)
| RAlt (a b : pattern)
| RStar (r : pattern)
| RPlus (r : pattern)
| ROpt (r : pattern)
| RGroup (n : nat) (r : pattern)
| RLook (neg : bool) (r : pattern).

(** The captures of a match state: entry [n - 1] holds the range of
    group [n], [None] while the group is undefined. *)
Definition caps := list (option (nat * nat)).
Definition mresult := option (nat * caps).
Definition cont := nat -> caps -> mresult.

Definition set_cap (n : nat) (v : option (nat * nat)) (c : caps) : caps :=
  <[pred n := v]> c.

Fixpoint groups_of (r : pattern) : list nat :=
  match r with
  | REmpty | RChar _ | RAny | RBol | REol => []
  | RSeq a b | RAlt a b => groups_of a ++ groups_of b
  | RStar r | RPlus r | ROpt r | RLook _ r => groups_of r
  | RGroup n r => n :: groups_of r
  end.

Definition clear_caps (gs : list nat) (c : caps) : caps :=
  foldr (fun n c => set_cap n None c) c gs.

(** LineTerminator, restricted to the 8-bit characters: LF and CR. *)
Definition is_line_terminator (c : ascii) : bool :=
  Ascii.eqb c "010" || Ascii.eqb c "013".

(** RepeatMatcher for a greedy quantifier with [min = 0]: one more
    iteration of [step] is tried first, an iteration that consumed
    nothing is rejected, and the continuation is the fallback.  Each
    accepted iteration moves forward, so [fuel] above the input length is
    never used up. *)
Fixpoint repeat_loop (step : nat -> caps -> cont -> mresult)
    (fuel : nat) (i : nat) (c : caps) (k : cont) : mresult :=
  match fuel with
  | 0 => k i c
  | S f =>
      match step i c (fun j c' => if j =? i then None
                                  else repeat_loop step f j c' k) with
      | Some x => Some x
      | None => k i c
      end
  end.

Section Matcher.
(** The [m] flag and the input string [s] of one call. *)
Variable multiline : bool.
Variable s : list ascii.

Definition at_bol (i : nat) : bool :=
  match i with
  | 0 => true
  | S p => multiline &&
           match s !! p with Some b => is_line_terminator b | None => false end
  end.

Definition at_eol (i : nat) : bool :=
  (i =? length s) ||
  (multiline &&
   match s !! i with Some b => is_line_terminator b | None => false end).

(** The backtracking matcher of the language definition, in
    continuation-passing style: [rmatch r i c k] matches [r] at index
    [i] with captures [c] and hands the end index and the captures of
    each candidate to [k], in priority order, until [k] accepts. *)
Fixpoint rmatch (r : pattern) (i : nat) (c : caps) (k : cont) {struct r}
  : mresult :=
  match r with
  | REmpty => k i c
  | RChar a =>
      match s !! i with
      | Some b => if Ascii.eqb a b then k (S i) c else None
      | None => None
      end
  | RAny =>
      match s !! i with
      | Some b => if is_line_terminator b then None else k (S i) c
      | None => None
      end
  | RBol => if at_bol i then k i c else None
  | REol => if at_eol i then k i c else None
  | RSeq a b => rmatch a i c (fun j c' => rmatch b j c' k)
  | RAlt a b =>
      match rmatch a i c k with
      | Some x => Some x
      | None => rmatch b i c k
      end
  | RStar r' =>
      repeat_loop
        (fun i c k' => rmatch r' i (clear_caps (groups_of r') c) k')
        (S (length s)) i c k
  | RPlus r' =>
      rmatch r' i (clear_caps (groups_of r') c)
        (fun j c' =>
           repeat_loop
             (fun i c k' => rmatch r' i (clear_caps (groups_of r') c) k')
             (S (length s)) j c' k)
  | ROpt r' =>
      match rmatch r' i (clear_caps (groups_of r') c)
              (fun j c' => if j =? i then None else k j c') with
      | Some x => Some x
      | None => k i c
      end
  | RGroup n r' =>
      rmatch r' i c (fun j c' => k j (set_cap n (Some (i, j)) c'))
  | RLook neg r' =>
      match rmatch r' i c (fun j c' => Some (j, c')) with
      | Some (_, c') => if neg then None else k i c'
      | None => if neg then k i c else None
      end
  end.
End Matcher.

(** ** Parsing a pattern *)

Inductive gkind := GCapture (n : nat) | GNonCapture | GLook (neg : bool).

Record frame := Frame {
  f_kind : gkind;
  f_alts : list pattern;
  f_cur : list pattern
}.

(** Parser state: the enclosing open groups, the finished alternatives
    of the innermost group and the terms of its current alternative (both
    latest first), whether the latest term may take a quantifier, and the
    number of capturing parentheses opened so far. *)
Record pstate := PState {
  ps_stack : list frame;
  ps_alts : list pattern;
  ps_cur : list pattern;
  ps_quant : bool;
  ps_ngroups : nat
}.

Definition mk_seq (cur : list pattern) : pattern :=
  foldr RSeq REmpty (rev cur).

Definition mk_disj (alts cur : list pattern) : pattern :=
  fold_left (fun acc a => RAlt a acc) alts (mk_seq cur).

Definition wrap (k : gkind) (r : pattern) : pattern :=
  match k with
  | GCapture n => RGroup n r
  | GNonCapture => r
  | GLook neg => RLook neg r
  end.

Definition push_term (t : pattern) (q : bool) (st : pstate) : pstate :=
  PState (ps_stack st) (ps_alts st) (t :: ps_cur st) q (ps_ngroups st).

Definition open_group (k : gkind) (n : nat) (st : pstate) : pstate :=
  PState (Frame k (ps_alts st) (ps_cur st) :: ps_stack st) [] [] false n.

Definition close_group (st : pstate) : option pstate :=
  match ps_stack st with
  | [] => None
  | Frame k alts cur :: stack =>
      let body := wrap k (mk_disj (ps_alts st) (ps_cur st)) in
      let q := match k with GLook _ => false | _ => true end in
      Some (PState stack alts (body :: cur) q (ps_ngroups st))
  end.

Definition quantify (q : pattern -> pattern) (st : pstate) : option pstate :=
  if ps_quant st then
    match ps_cur st with
    | t :: cur =>
        Some (PState (ps_stack st) (ps_alts st) (q t :: cur) false
                (ps_ngroups st))
    | [] => None
    end
  else None.

(** SyntaxCharacter: the characters with a meaning of their own in a
    pattern. *)
Definition is_syntax_char (c : ascii) : bool :=
  Ascii.eqb c "^" || Ascii.eqb c "$" || Ascii.eqb c backslash ||
  Ascii.eqb c "." || Ascii.eqb c "*" || Ascii.eqb c "+" || Ascii.eqb c "?" ||
  Ascii.eqb c "(" || Ascii.eqb c ")" || Ascii.eqb c "[" || Ascii.eqb c "]" ||
  Ascii.eqb c "{" || Ascii.eqb c "}" || Ascii.eqb c "|".

(** One pass over the pattern.  [None] stands for a pattern that
    [new RegExp] rejects with a SyntaxError (unbalanced parentheses, a
    quantifier with nothing to repeat, a trailing backslash) and for one
    outside the fragment (character classes, braced and lazy quantifiers,
    class escapes, backreferences, lookbehind, named groups).  The
    escapes kept are the identity escapes of the syntax characters and of
    the slash, and the control escapes for LF, CR and TAB. *)
Fixpoint parse_loop (inp : list ascii) (st : pstate) {struct inp}
  : option (pattern * nat) :=
  match inp with
  | [] =>
      match ps_stack st with
      | [] => Some (mk_disj (ps_alts st) (ps_cur st), ps_ngroups st)
      | _ :: _ => None
      end
  | c :: rest =>
      if Ascii.eqb c backslash then
        match rest with
        | d :: rest' =>
            if is_syntax_char d || Ascii.eqb d "/"
            then parse_loop rest' (push_term (RChar d) true st)
            else if Ascii.eqb d "n"
            then parse_loop rest' (push_term (RChar "010") true st)
            else if Ascii.eqb d "r"
            then parse_loop rest' (push_term (RChar "013") true st)
            else if Ascii.eqb d "t"
            then parse_loop rest' (push_term (RChar "009") true st)
            else None
        | [] => None
        end
      else if Ascii.eqb c "(" then
        match rest with
        | "?"%char :: k :: rest' =>
            if Ascii.eqb k ":" then parse_loop rest' (open_group GNonCapture (ps_ngroups st) st)
            else if Ascii.eqb k "=" then parse_loop rest' (open_group (GLook false) (ps_ngroups st) st)
            else if Ascii.eqb k "!" then parse_loop rest' (open_group (GLook true) (ps_ngroups st) st)
            else None
        | _ =>
            let n := S (ps_ngroups st) in
            parse_loop rest (open_group (GCapture n) n st)
        end
      else if Ascii.eqb c ")" then
        match close_group st with
        | Some st' => parse_loop rest st'
        | None => None
        end
      else if Ascii.eqb c "|" then
        parse_loop rest
          (PState (ps_stack st) (mk_seq (ps_cur st) :: ps_alts st) [] false
             (ps_ngroups st))
      else if Ascii.eqb c "*" then
        match quantify RStar st with
        | Some st' => parse_loop rest st'
        | None => None
        end
      else if Ascii.eqb c "+" then
        match quantify RPlus st with
        | Some st' => parse_loop rest st'
        | None => None
        end
      else if Ascii.eqb c "?" then
        match quantify ROpt st with
        | Some st' => parse_loop rest st'
        | None => None
        end
      else if Ascii.eqb c "." then parse_loop rest (push_term RAny true st)
      else if Ascii.eqb c "^" then parse_loop rest (push_term RBol false st)
      else if Ascii.eqb c "$" then parse_loop rest (push_term REol false st)
      else if Ascii.eqb c "[" || Ascii.eqb c "{" then None
      else parse_loop rest (push_term (RChar c) true st)
  end.

Definition parse (src : list ascii) : option (pattern * nat) :=
  parse_loop src (PState [] [] [] false 0).

End Regex.
Import Regex.

(* ===================================================================== *)
(** * The RegExp object                                                  *)
(* ===================================================================== *)

(** A compiled regular expression: its [source], the [g] and [m] flags
    and the matcher of the [[RegExpMatcher]] slot, which takes the input
    and a start index and yields the end index and the captures of the
    match found there.  [lastIndex] is threaded by the callers. *)
Record RegExp := {
  source : list ascii;
  global : bool;
  multiline : bool;
  matcher : list ascii -> nat -> option (nat * caps)
}.

(** What every matcher of the language guarantees: a match ends at or
    after the index it starts from. *)
Definition matcher_forward (rx : RegExp) : Prop :=
  forall s i e c, matcher rx s i = Some (e, c) -> i <= e.

Definition compile (m : bool) (r : pattern) (n : nat)
  : list ascii -> nat -> option (nat * caps) :=
  fun s i => rmatch m s r i (replicate n None) (fun j c => Some (j, c)).

(** EscapeRegExpPattern: the [source] of [new RegExp(p)] is [p] with
    every bare [/] and line terminator escaped, and [(?:)] for the empty
    pattern. *)
Fixpoint escape_source (p : list ascii) : list ascii :=
  match p with
  | [] => []
  | c :: rest =>
      if Ascii.eqb c backslash then
        match rest with
        | d :: rest' => c :: d :: escape_source rest'
        | [] => [c]
        end
      else if Ascii.eqb c "/" then backslash :: "/"%char :: escape_source rest
      else if Ascii.eqb c "010" then backslash :: "n"%char :: escape_source rest
      else if Ascii.eqb c "013" then backslash :: "r"%char :: escape_source rest
      else c :: escape_source rest
  end.

Definition source_of (p : list ascii) : list ascii :=
  match p with
  | [] => js "(?:)"
  | _ => escape_source p
  end.

(** [new RegExp(p, flags)] for the flags [g] and [m], on the grammar of
    [Regex.parse_loop]: character classes, braces, class escapes, lazy
    quantifiers and named groups are outside it.  [None] when the
    pattern is not of this grammar, whether the host throws on it or
    not; the statements that speak of every expression are made for an
    arbitrary constructor (see [Host]). *)
Definition RegExp_new (p : list ascii) (g m : bool) : option RegExp :=
  match parse p with
  | Some (r, n) =>
      Some {| source := source_of p; global := g; multiline := m;
              matcher := compile m r n |}
  | None => None
  end.

(** The array returned by [exec]: [match.index] and the captures
    [match[1]], ..., [match[match.length - 1]]. *)
Record MatchResult := {
  m_index : nat;
  m_end : nat;
  m_groups : caps
}.

Fixpoint search (m : nat -> option (nat * caps)) (tries : nat) (i : nat)
  : option MatchResult :=
  match tries with
  | 0 => None
  | S t =>
      match m i with
      | Some (e, c) => Some {| m_index := i; m_end := e; m_groups := c |}
      | None => search m t (S i)
      end
  end.

(** RegExpBuiltinExec: [exec rx s lastIndex] is the result of
    [rx.exec(s)] when [rx.lastIndex] is [lastIndex], paired with the
    value of [rx.lastIndex] afterwards.  Without the [g] flag the search
    starts at 0 and [lastIndex] is left alone. *)
Definition exec (rx : RegExp) (s : list ascii) (lastIndex : nat)
  : option MatchResult * nat :=
  let start := if global rx then lastIndex else 0 in
  if length s <? start then (None, if global rx then 0 else lastIndex)
  else
    match search (matcher rx s) (S (length s - start)) start with
    | Some m => (Some m, if global rx then m_end m else lastIndex)
    | None => (None, if global rx then 0 else lastIndex)
    end.

(** [rx.test(s)] for a regular expression without the [g] flag, as the
    filters' own expressions are. *)
Definition RegExp_test (rx : RegExp) (s : list ascii) : bool :=
  match fst (exec rx s 0) with Some _ => true | None => false end.

(** [s.includes(p)] *)
Fixpoint is_prefix (p s : list ascii) : bool :=
  match p, s with
  | [], _ => true
  | a :: p', b :: s' => Ascii.eqb a b && is_prefix p' s'
  | _ :: _, [] => false
  end.

Fixpoint includes (s p : list ascii) : bool :=
  is_prefix p s ||
  match s with
  | [] => false
  | _ :: s' => includes s' p
  end.

(* ===================================================================== *)
(** * Map and Set objects that are iterated                              *)
(* ===================================================================== *)

Section JsMap.
Context {K V : Type} `{EqDecision K}.

(** [m.get(k)] *)
Fixpoint jsmap_get (k : K) (m : list (K * V)) : option V :=
  match m with
  | [] => None
  | (k', v) :: m' => if decide (k = k') then Some v else jsmap_get k m'
  end.

(** [m.set(k, v)]: an existing key keeps its place. *)
Fixpoint jsmap_set (k : K) (v : V) (m : list (K * V)) : list (K * V) :=
  match m with
  | [] => [(k, v)]
  | (k', v') :: m' =>
      if decide (k = k') then (k, v) :: m' else (k', v') :: jsmap_set k v m'
  end.
End JsMap.

(** [s.add(n)] and [s.delete(n)] on a [Set<number>] *)
Definition jsset_add (n : nat) (s : list nat) : list nat :=
  if decide (n ∈ s) then s else s ++ [n].

Definition jsset_delete (n : nat) (s : list nat) : list nat :=
  List.filter (fun x => negb (x =? n)) s.

(* ===================================================================== *)
(** * filter.ts: the Filter class                                        *)
(* ===================================================================== *)

Inductive FocusAction := INCLUDED | EXCLUDED | NONE.
Inductive FilterMode := TEXT | REGEX.

Definition FocusAction_eqb (a b : FocusAction) : bool :=
  match a, b with
  | INCLUDED, INCLUDED | EXCLUDED, EXCLUDED | NONE, NONE => true
  | _, _ => false
  end.

(** The fields of a [Filter] that the engine reads or writes; colours,
    icon and decoration are left out.  The record holds integer
    priorities, which is what the extension passes to the constructor
    and to the setter (the default 50, a persisted value, a multiple of
    10 after a drop); [stored_priority] below is what the two store for
    any number. *)
Record Filter := {
  regex : RegExp;
  mode : FilterMode;
  textPattern : list ascii;
  filter_id : string;
  _focusAction : FocusAction;
  _priority : Z;
  _lineCache : gmap string (list nat);
  _analyzedUris : gset string
}.








(** [stored_priority] on the integers. *)
Definition clamp_priority (v : Z) : Z := Z.max 0 (Z.min 100 v).

(** [new Filter(regex, color, priority)]; [ident] is the value that
    [generateId("filter")] returns. *)
Definition Filter_new (rx : RegExp) (ident : string) (prio : Z) : Filter :=
  {| regex := rx; mode := REGEX; textPattern := []; filter_id := ident;
     _focusAction := INCLUDED; _priority := clamp_priority prio;
     _lineCache := ∅; _analyzedUris := ∅ |}.

(** The default value of the constructor's [priority] parameter. *)
Definition default_priority : Z := 50.

Definition priority (f : Filter) : Z := _priority f.
Definition focusAction (f : Filter) : FocusAction := _focusAction f.

Definition set_priority (value : Z) (f : Filter) : Filter :=
  {| regex := regex f; mode := mode f; textPattern := textPattern f;
     filter_id := filter_id f; _focusAction := _focusAction f;
     _priority := clamp_priority value;
     _lineCache := _lineCache f; _analyzedUris := _analyzedUris f |}.

Definition set_focusAction (value : FocusAction) (f : Filter) : Filter :=
  {| regex := regex f; mode := mode f; textPattern := textPattern f;
     filter_id := filter_id f; _focusAction := value;
     _priority := _priority f;
     _lineCache := _lineCache f; _analyzedUris := _analyzedUris f |}.

Definition with_cache (lc : gmap string (list nat)) (au : gset string)
    (f : Filter) : Filter :=
  {| regex := regex f; mode := mode f; textPattern := textPattern f;
     filter_id := filter_id f; _focusAction := _focusAction f;
     _priority := _priority f; _lineCache := lc; _analyzedUris := au |}.

Definition updateCache (uri : string) (matchedLines : list nat) (f : Filter)
  : Filter :=
  with_cache (<[uri := matchedLines]> (_lineCache f))
             ({[uri]} ∪ _analyzedUris f) f.

Definition isAnalyzed (uri : string) (f : Filter) : bool :=
  bool_decide (uri ∈ _analyzedUris f).

(** [clearCache(uri?)]: the test [if (uri)] also fails for the empty
    string, which therefore clears everything, as a missing argument
    does. *)
Definition clearCache (uri : option string) (f : Filter) : Filter :=
  match uri with
  | Some u =>
      if bool_decide (u = EmptyString) then with_cache ∅ ∅ f
      else with_cache (delete u (_lineCache f)) (_analyzedUris f ∖ {[u]}) f
  | None => with_cache ∅ ∅ f
  end.

Definition getMatchedLines (uri : string) (f : Filter) : list nat :=
  match _lineCache f !! uri with
  | Some l => l
  | None => []
  end.

(** [setRegex]: the new expression replaces the old one and the whole
    cache is dropped. *)
Definition setRegex (newRegex : RegExp) (f : Filter) : Filter :=
  clearCache None
    {| regex := newRegex; mode := mode f; textPattern := textPattern f;
       filter_id := filter_id f; _focusAction := _focusAction f;
       _priority := _priority f;
       _lineCache := _lineCache f; _analyzedUris := _analyzedUris f |}.

(** [test(line)] *)
Definition Filter_test (f : Filter) (line : list ascii) : bool :=
  match mode f with
  | TEXT => includes line (textPattern f)
  | REGEX => RegExp_test (regex f) line
  end.

(* ===================================================================== *)
(** * commands.ts: compiling the pattern of a filter                     *)
(* ===================================================================== *)

(** The class [[.*+?^${}()|[\]\\]] of the text-mode replacement. *)
Definition in_escape_class (c : ascii) : bool :=
  Ascii.eqb c "." || Ascii.eqb c "*" || Ascii.eqb c "+" || Ascii.eqb c "?" ||
  Ascii.eqb c "^" || Ascii.eqb c "$" || Ascii.eqb c "{" || Ascii.eqb c "}" ||
  Ascii.eqb c "(" || Ascii.eqb c ")" || Ascii.eqb c "|" || Ascii.eqb c "[" ||
  Ascii.eqb c "]" || Ascii.eqb c backslash.

(** [pattern.replace(/[.*+?^${}()|[\]\\]/g, '\\$&')] *)
Fixpoint escapeRegExp (p : list ascii) : list ascii :=
  match p with
  | [] => []
  | c :: rest =>
      if in_escape_class c then backslash :: c :: escapeRegExp rest
      else c :: escapeRegExp rest
  end.

(** The [try] block shared by [addFilter] and [editFilter]: the
    expression and the text pattern for the chosen mode; [None] is the
    [catch] branch ("Invalid Pattern"), which this development also
    takes for a pattern outside the grammar of [RegExp_new]. *)
Definition compilePattern (modePick : FilterMode) (p : list ascii)
  : option (RegExp * list ascii) :=
  match modePick with
  | REGEX =>
      match RegExp_new p false false with
      | Some rx => Some (rx, [])
      | None => None
      end
  | TEXT =>
      match RegExp_new (escapeRegExp p) false false with
      | Some rx => Some (rx, p)
      | None => None
      end
  end.

(** [addFilter] after both prompts are answered: an empty pattern is
    dropped, otherwise the new filter. *)
Definition addFilter (modePick : FilterMode) (p : list ascii) (ident : string)
  : option Filter :=
  match p with
  | [] => None
  | _ =>
      match compilePattern modePick p with
      | Some (rx, tp) =>
          let f := Filter_new rx ident default_priority in
          Some {| regex := regex f; mode := modePick; textPattern := tp;
                  filter_id := filter_id f; _focusAction := _focusAction f;
                  _priority := _priority f; _lineCache := _lineCache f;
                  _analyzedUris := _analyzedUris f |}
      | None => None
      end
  end.

(** [editFilter]: on success mode, text pattern and expression are
    replaced; on failure the filter is left as it was. *)
Definition editFilter (modePick : FilterMode) (p : list ascii) (f : Filter)
  : Filter :=
  match compilePattern modePick p with
  | Some (rx, tp) =>
      setRegex rx
        {| regex := regex f; mode := modePick; textPattern := tp;
           filter_id := filter_id f; _focusAction := _focusAction f;
           _priority := _priority f; _lineCache := _lineCache f;
           _analyzedUris := _analyzedUris f |}
  | None => f
  end.

(* ===================================================================== *)
(** * utils.ts: the combiner and the line classifier                     *)
(* ===================================================================== *)

Record FilterInfo := { filterId : string; isExclude : bool }.

Record FilterResult := { lines : list nat; resultIsExclude : bool }.

Record Analysis := {
  filterResults : list (string * FilterResult);
  linePriorityWinners : list (nat * string)
}.

(** [[...filters].sort((a, b) => b.priority - a.priority)]: the stable
    sort by descending priority. *)
Fixpoint insert_by_priority (f : Filter) (l : list Filter) : list Filter :=
  match l with
  | [] => [f]
  | g :: l' =>
      if (priority g <? priority f)%Z then f :: g :: l'
      else g :: insert_by_priority f l'
  end.

Definition sort_by_priority (l : list Filter) : list Filter :=
  fold_left (fun acc f => insert_by_priority f acc) l [].

Fixpoint join (sep : list ascii) (parts : list (list ascii)) : list ascii :=
  match parts with
  | [] => []
  | [p] => p
  | p :: rest => p ++ sep ++ join sep rest
  end.

(** The literal [/(?!)/] *)
Definition never_regex : RegExp :=
  {| source := js "(?!)"; global := false; multiline := false;
     matcher := compile false (RSeq (RLook true REmpty) REmpty) 0 |}.

Fixpoint index_filters (index : nat) (sorted : list Filter)
    (filterMap : list (nat * FilterInfo)) : list (nat * FilterInfo) :=
  match sorted with
  | [] => filterMap
  | f :: rest =>
      index_filters (S index) rest
        (jsmap_set (index + 1)
           {| filterId := filter_id f;
              isExclude := FocusAction_eqb (focusAction f) EXCLUDED |}
           filterMap)
  end.

(** [buildCombinedRegex(filters)]; [None] when [new RegExp] rejects the
    joined pattern. *)
Definition buildCombinedRegex (filters : list Filter)
  : option (RegExp * list (nat * FilterInfo)) :=
  match filters with
  | [] => Some (never_regex, [])
  | _ =>
      let sorted := sort_by_priority filters in
      let patterns :=
        map (fun f => js "(" ++ source (regex f) ++ js ")") sorted in
      let filterMap := index_filters 0 sorted [] in
      let combined := join (js "|") patterns in
      match RegExp_new combined true true with
      | Some rx => Some (rx, filterMap)
      | None => None
      end
  end.

(** [text.split('\n')] *)
Fixpoint split_lines (text : list ascii) : list (list ascii) :=
  match text with
  | [] => [[]]
  | c :: rest =>
      if Ascii.eqb c "010" then [] :: split_lines rest
      else
        match split_lines rest with
        | l :: ls => (c :: l) :: ls
        | [] => [[c]]
        end
  end.

(** How a run of the classifier ends: with a value, with the TypeError
    of reading [.lines] of [undefined], or stopped by the bound the model
    puts on the iterations of a [while] loop. *)
Inductive outcome (A : Type) : Type :=
| Ok (a : A)
| TypeError
| OutOfFuel.
Arguments Ok {A} a.
Arguments TypeError {A}.
Arguments OutOfFuel {A}.

(** The [for] loop over [match[1]], ..., [match[match.length - 1]];
    [best] is [bestFilterIndex], [None] for [Infinity]. *)
Fixpoint scan_groups (filterMap : list (nat * FilterInfo)) (lineIndex : nat)
    (i : nat) (groups : caps) (results : list (string * FilterResult))
    (best : option nat)
  : outcome (list (string * FilterResult) * option nat) :=
  match groups with
  | [] => Ok (results, best)
  | g :: groups' =>
      match g with
      | Some _ =>
          match jsmap_get i filterMap with
          | Some filterInfo =>
              match jsmap_get (filterId filterInfo) results with
              | Some r =>
                  let results' :=
                    jsmap_set (filterId filterInfo)
                      {| lines := jsset_add lineIndex (lines r);
                         resultIsExclude := resultIsExclude r |} results in
                  let best' :=
                    match best with
                    | None => Some i
                    | Some b => if i <? b then Some i else Some b
                    end in
                  scan_groups filterMap lineIndex (S i) groups' results' best'
              | None => TypeError
              end
          | None => scan_groups filterMap lineIndex (S i) groups' results best
          end
      | None => scan_groups filterMap lineIndex (S i) groups' results best
      end
  end.

(** The [while] loop over the matches of one line, at most [fuel]
    calls of [exec]. *)
Fixpoint exec_loop (fuel : nat) (combinedRegex : RegExp)
    (filterMap : list (nat * FilterInfo)) (line : list ascii)
    (lineIndex lastIndex : nat) (results : list (string * FilterResult))
    (best : option nat)
  : outcome (list (string * FilterResult) * option nat) :=
  match fuel with
  | 0 => OutOfFuel
  | S fuel' =>
      match exec combinedRegex line lastIndex with
      | (None, _) => Ok (results, best)
      | (Some m, lastIndex1) =>
          match scan_groups filterMap lineIndex 1 (m_groups m) results best with
          | Ok (results', best') =>
              let lastIndex2 :=
                if m_index m =? lastIndex1 then S lastIndex1 else lastIndex1 in
              exec_loop fuel' combinedRegex filterMap line lineIndex lastIndex2
                results' best'
          | TypeError => TypeError
          | OutOfFuel => OutOfFuel
          end
      end
  end.

(** The body of [lines.forEach]. *)
Definition analyse_line (fuel : nat) (combinedRegex : RegExp)
    (filterMap : list (nat * FilterInfo)) (lineIndex : nat)
    (line : list ascii) (a : Analysis) : outcome Analysis :=
  match exec_loop fuel combinedRegex filterMap line lineIndex 0
          (filterResults a) None with
  | Ok (results, best) =>
      let winners :=
        match best with
        | Some b =>
            match jsmap_get b filterMap with
            | Some winner =>
                jsmap_set lineIndex (filterId winner) (linePriorityWinners a)
            | None => linePriorityWinners a
            end
        | None => linePriorityWinners a
        end in
      Ok {| filterResults := results; linePriorityWinners := winners |}
  | TypeError => TypeError
  | OutOfFuel => OutOfFuel
  end.

Fixpoint analyse_lines (fuel : nat) (combinedRegex : RegExp)
    (filterMap : list (nat * FilterInfo)) (lineIndex : nat)
    (ls : list (list ascii)) (a : Analysis) : outcome Analysis :=
  match ls with
  | [] => Ok a
  | line :: rest =>
      match analyse_line fuel combinedRegex filterMap lineIndex line a with
      | Ok a' => analyse_lines fuel combinedRegex filterMap (S lineIndex) rest a'
      | TypeError => TypeError
      | OutOfFuel => OutOfFuel
      end
  end.

Definition init_results (filterMap : list (nat * FilterInfo))
  : list (string * FilterResult) :=
  fold_left
    (fun acc e =>
       jsmap_set (filterId e.2)
         {| lines := []; resultIsExclude := isExclude e.2 |} acc)
    filterMap [].

(** [performCombinedAnalysis(text, combinedRegex, filterMap)], each
    line's [while] loop being allowed [fuel] iterations. *)
Definition performCombinedAnalysis (fuel : nat) (text : list ascii)
    (combinedRegex : RegExp) (filterMap : list (nat * FilterInfo))
  : outcome Analysis :=
  analyse_lines fuel combinedRegex filterMap 0 (split_lines text)
    {| filterResults := init_results filterMap; linePriorityWinners := [] |}.

(* ===================================================================== *)
(** * focusProvider.ts: the focus view                                   *)
(* ===================================================================== *)

(** A text document, as the list of its lines. *)
Definition TextDocument := list (list ascii).

Definition lineCount (document : TextDocument) : nat := length document.

Definition lineAt (document : TextDocument) (n : nat) : list ascii :=
  match document !! n with
  | Some l => l
  | None => []
  end.

(** [getActiveFiltersSorted()]; the project is the list of the values of
    its [filters] map, [None] when no project is set. *)
Definition getActiveFiltersSorted (project : option (list Filter))
  : list Filter * list Filter :=
  match project with
  | None => ([], [])
  | Some filters =>
      let active :=
        sort_by_priority
          (List.filter
             (fun f => negb (FocusAction_eqb (focusAction f) NONE)) filters) in
      (List.filter (fun f => FocusAction_eqb (focusAction f) INCLUDED) active,
       List.filter (fun f => FocusAction_eqb (focusAction f) EXCLUDED) active)
  end.

(** The set [resultLines] once the exclusive filters are subtracted. *)
Definition resultLines (project : option (list Filter)) (originalUri : string)
    (document : TextDocument) : list nat :=
  let '(inclusiveFilters, exclusiveFilters) := getActiveFiltersSorted project in
  let collected :=
    match inclusiveFilters with
    | _ :: _ =>
        fold_left
          (fun acc f =>
             fold_left (fun acc lineNum => jsset_add lineNum acc)
               (getMatchedLines originalUri f) acc)
          inclusiveFilters []
    | [] =>
        fold_left (fun acc i => jsset_add i acc) (seq 0 (lineCount document)) []
    end in
  fold_left
    (fun acc f =>
       fold_left (fun acc lineNum => jsset_delete lineNum acc)
         (getMatchedLines originalUri f) acc)
    exclusiveFilters collected.

(** [getVisibleLines]: [Array.from(resultLines).sort((a, b) => a - b)] *)
Definition getVisibleLines (project : option (list Filter))
    (originalUri : string) (document : TextDocument) : list nat :=
  merge_sort Nat.le (resultLines project originalUri document).

(** The line numbers whose text [generateFilteredContent] pushes. *)
Definition renderedLines (project : option (list Filter))
    (originalUri : string) (document : TextDocument) : list nat :=
  List.filter (fun lineNum => lineNum <? lineCount document)
    (getVisibleLines project originalUri document).

Definition generateFilteredContent (project : option (list Filter))
    (originalUri : string) (document : TextDocument) : list ascii :=
  join (js (String "010" EmptyString))
    (map (lineAt document) (renderedLines project originalUri document)).

(* ===================================================================== *)
(** * Histories of a filter                                              *)
(* ===================================================================== *)

(** The operations the extension performs on a filter after it is
    constructed. *)
Inductive FilterOp :=
| SetPriority (value : Z)
| SetFocusAction (value : FocusAction)
| SetRegex (newRegex : RegExp)
| UpdateCache (uri : string) (matchedLines : list nat)
| ClearCache (uri : option string).

Definition apply_op (f : Filter) (op : FilterOp) : Filter :=
  match op with
  | SetPriority v => set_priority v f
  | SetFocusAction a => set_focusAction a f
  | SetRegex rx => setRegex rx f
  | UpdateCache uri ls => updateCache uri ls f
  | ClearCache uri => clearCache uri f
  end.

Definition run_ops (ops : list FilterOp) (f : Filter) : Filter :=
  fold_left apply_op ops f.

(** An operation is an [updateCache] or a [clearCache] that reaches the
    entry of [uri]. *)
Definition touches (uri : string) (op : FilterOp) : bool :=
  match op with
  | SetPriority _ | SetFocusAction _ => false
  | SetRegex _ => true
  | UpdateCache u _ => bool_decide (u = uri)
  | ClearCache (Some u) => bool_decide (u = EmptyString) || bool_decide (u = uri)
  | ClearCache None => true
  end.

(** Whether [uri] is still analysed after one more operation, and at the
    end of a history that starts from a new filter: it was passed to
    [updateCache] and not cleared since. *)
Definition track (uri : string) (b : bool) (op : FilterOp) : bool :=
  match op with
  | UpdateCache u _ => if bool_decide (u = uri) then true else b
  | _ => if touches uri op then false else b
  end.

Definition analysed_after (uri : string) (ops : list FilterOp) : bool :=
  fold_left (track uri) ops false.

(* ===================================================================== *)
(** * Invariants and predicates of the statements                        *)
(* ===================================================================== *)

(** Both structures of the cache of a filter know the same documents. *)
Definition cache_consistent (f : Filter) : Prop :=
  forall u, _lineCache f !! u = None <-> u ∉ _analyzedUris f.

(** Every filter the index map names has an entry in the result map. *)
Definition covers (filterMap : list (nat * FilterInfo))
    (results : list (string * FilterResult)) : Prop :=
  forall i info, jsmap_get i filterMap = Some info ->
                 is_Some (jsmap_get (filterId info) results).

Definition has_line (results : list (string * FilterResult)) (ident : string)
    (n : nat) : Prop :=
  exists r, jsmap_get ident results = Some r /\ n ∈ lines r.

(** What the classifier knows about [bestFilterIndex] while it scans a
    line: the index is in the map and the line is already recorded for
    its filter. *)
Definition best_ok (filterMap : list (nat * FilterInfo))
    (results : list (string * FilterResult)) (lineIndex : nat)
    (best : option nat) : Prop :=
  forall b, best = Some b ->
    exists info, jsmap_get b filterMap = Some info
                 /\ has_line results (filterId info) lineIndex.

Definition grows (results results' : list (string * FilterResult)) : Prop :=
  (forall ident n, has_line results ident n -> has_line results' ident n)
  /\ (forall ident, is_Some (jsmap_get ident results) ->
                    is_Some (jsmap_get ident results')).

(** What the combiner hands to the classifier: a matcher that scans
    with the global flag, or, for the empty filter list, one that never
    matches. *)
Definition is_combined_matcher (rx : RegExp) : Prop :=
  matcher_forward rx
  /\ (global rx = true \/ forall s i, matcher rx s i = None).

(** The order of the alternatives: no filter comes before one of
    higher priority. *)
Definition by_priority (f g : Filter) : Prop := (priority g <= priority f)%Z.

Definition info_of (f : Filter) : FilterInfo :=
  {| filterId := filter_id f;
     isExclude := FocusAction_eqb (focusAction f) EXCLUDED |}.

Definition winners_ok (a : Analysis) : Prop :=
  forall lineIndex w,
    jsmap_get lineIndex (linePriorityWinners a) = Some w ->
    has_line (filterResults a) w lineIndex.

(** The pattern that matches the characters of [p] one after the
    other. *)
Definition literal (p : list ascii) : pattern :=
  foldr (fun c r => RSeq (RChar c) r) REmpty p.

(* ===================================================================== *)
(** * Filters, documents and expressions of the examples                 *)
(* ===================================================================== *)

Definition sample_filter : Filter :=
  Filter_new never_regex "filter-1" default_priority.

Definition stale_filter : Filter :=
  updateCache "file:///a.log" [7] sample_filter.

(** An INCLUDED filter and an EXCLUDED filter with cached results for
    one document. *)
Definition error_filter : Filter :=
  updateCache "file:///a.log" [1; 3] sample_filter.

Definition debug_filter (cached : list nat) : Filter :=
  updateCache "file:///a.log" cached
    (set_focusAction EXCLUDED
       (Filter_new never_regex "filter-2" default_priority)).

Definition five_lines : TextDocument :=
  [js "line 0"; js "line 1"; js "line 2"; js "line 3"; js "line 4"].

(** A combined expression, with the flags [gm], that matches the empty
    string at every index. *)
Definition star_regex : RegExp :=
  {| source := js "(a*b?)"; global := true; multiline := true;
     matcher :=
       compile true
         (RSeq (RGroup 1 (RSeq (RStar (RChar "a")) (RSeq (ROpt (RChar "b")) REmpty)))
            REmpty) 1 |}.

Definition star_filterMap : list (nat * FilterInfo) :=
  [(1, {| filterId := "filter-1"; isExclude := false |})].

Definition star_analysis : Analysis :=
  {| filterResults :=
       [("filter-1"%string, {| lines := [0; 1]; resultIsExclude := false |})];
     linePriorityWinners := [(0, "filter-1"%string); (1, "filter-1"%string)] |}.

(** A filter added in REGEX mode, then given a priority. *)
Definition regex_filter (p : string) (ident : string) (prio : Z)
  : option Filter :=
  set_priority prio <$> addFilter REGEX (js p) ident.

(** What [applyFilterHighlights] and [performOnDemandAnalysis] compute
    for a document: the combiner, then the classifier on its output,
    with the number of iterations that always suffices. *)
Definition analyse (filters : list Filter) (text : list ascii)
  : option (outcome Analysis) :=
  match buildCombinedRegex filters with
  | Some (rx, filterMap) =>
      Some (performCombinedAnalysis (length text + 2) text rx filterMap)
  | None => None
  end.

(** The same from the patterns, identities and priorities of the
    filters, in input order. *)
Definition classify (specs : list (string * string * Z)) (text : list ascii)
  : option (outcome Analysis) :=
  filters ← mapM (fun spec => regex_filter spec.1.1 spec.1.2 spec.2) specs;
  analyse filters text.

(** The source of the expression the combiner compiles for them. *)
Definition combined_source (specs : list (string * string * Z))
  : option (list ascii) :=
  filters ← mapM (fun spec => regex_filter spec.1.1 spec.1.2 spec.2) specs;
  (fun built => source built.1) <$> buildCombinedRegex filters.

(** Whether the filter of a pattern matches a line when tested alone. *)
Definition matches_alone (p : string) (line : list ascii) : option bool :=
  (fun f => Filter_test f line) <$> regex_filter p "filter" default_priority.

Definition no_exclude (l : list nat) : FilterResult :=
  {| lines := l; resultIsExclude := false |}.

(* ===================================================================== *)
(** * commands.ts: highlighting and on-demand analysis                   *)
(* ===================================================================== *)

(** The array [ranges] that [applyFilterHighlights] fills for a filter:
    the lines of its result set whose priority winner it is. *)
Definition ranges (a : Analysis) (ident : string) : list nat :=
  match jsmap_get ident (filterResults a) with
  | Some r =>
      List.filter
        (fun lineNum =>
           match jsmap_get lineNum (linePriorityWinners a) with
           | Some w => bool_decide (w = ident)
           | None => false
           end)
        (lines r)
  | None => []
  end.

(** The body of [filters.forEach] in [applyFilterHighlights], for a
    filter with the given [isHighlighted] and with or without a
    [decoration]: the lines passed to [editor.setDecorations], [None]
    when it is not called.  A filter that is not highlighted has its
    decoration cleared and nothing else is done for it. *)
Definition highlightLines (isHighlighted hasDecoration : bool)
    (a : Analysis) (ident : string) : option (list nat) :=
  if negb isHighlighted then
    if hasDecoration then Some [] else None
  else
    if hasDecoration then Some (ranges a ident) else None.

(** [allFilters.find(f => f.id === filterId)] followed by [updateCache]
    on the filter found: the first filter of that identity is
    replaced by its updated state. *)
Fixpoint update_found (filterId : string) (uriString : string)
    (matched : list nat) (allFilters : list Filter) : list Filter :=
  match allFilters with
  | [] => []
  | f :: rest =>
      if bool_decide (filter_id f = filterId)
      then updateCache uriString matched f :: rest
      else f :: update_found filterId uriString matched rest
  end.

(** The type of [new RegExp(pattern, flags)], for the flags [g] and [m]. *)
Definition RegExpConstructor : Type :=
  list ascii -> bool -> bool -> option RegExp.

(** The functions that compile an expression, for any host.
    [new_RegExp] is the constructor [new RegExp(pattern, flags)] of the
    host for the flags [g] and [m], [None] when it throws.  [RegExp_new]
    is such a constructor for the grammar of [Regex.parse_loop] alone;
    what is proved of these functions for every constructor holds for
    the host's, whatever its grammar. *)
Module Host.
Section WithRegExp.

Variable new_RegExp : RegExpConstructor.

(** [buildCombinedRegex(filters)]; [None] when [new RegExp] throws. *)
Definition buildCombinedRegex (filters : list Filter)
  : option (RegExp * list (nat * FilterInfo)) :=
  match filters with
  | [] => Some (never_regex, [])
  | _ =>
      let sorted := sort_by_priority filters in
      let patterns :=
        map (fun f => js "(" ++ source (regex f) ++ js ")") sorted in
      let filterMap := index_filters 0 sorted [] in
      let combined := join (js "|") patterns in
      match new_RegExp combined true true with
      | Some rx => Some (rx, filterMap)
      | None => None
      end
  end.

(** The combiner, then the classifier on its output; each line's loop
    is allowed [length text + 2] iterations. *)
Definition analyse (filters : list Filter) (text : list ascii)
  : option (outcome Analysis) :=
  match buildCombinedRegex filters with
  | Some (rx, filterMap) =>
      Some (performCombinedAnalysis (length text + 2) text rx filterMap)
  | None => None
  end.

(** [performOnDemandAnalysis]: nothing for an empty list, otherwise the
    combiner, the classifier and one [updateCache] per entry of the
    result map.  [None] when the combined expression is rejected, the
    outcome of the classifier otherwise. *)
Definition performOnDemandAnalysis (allFilters : list Filter)
    (text : list ascii) (uriString : string) : option (outcome (list Filter)) :=
  match allFilters with
  | [] => Some (Ok allFilters)
  | _ =>
      match analyse allFilters text with
      | Some (Ok a) =>
          Some (Ok (fold_left
                      (fun fs entry =>
                         update_found entry.1 uriString (lines entry.2) fs)
                      (filterResults a) allFilters))
      | Some TypeError => Some TypeError
      | Some OutOfFuel => Some OutOfFuel
      | None => None
      end
  end.

End WithRegExp.
End Host.

(** [allFilters.some(f => !f.isAnalyzed(uriString))] *)
Definition needsAnalysis (allFilters : list Filter) (uriString : string)
  : bool :=
  existsb (fun f => negb (isAnalyzed uriString f)) allFilters.

(* ===================================================================== *)
(** * Invariants of the classifier                                       *)
(* ===================================================================== *)

(** How the result map may change while line [k] is scanned: no entry
    comes or goes, and the set of an entry is unchanged or has [k]
    added. *)
Definition line_step (k : nat) (results results' : list (string * FilterResult))
  : Prop :=
  forall ident,
    match jsmap_get ident results, jsmap_get ident results' with
    | None, None => True
    | Some r, Some r' =>
        resultIsExclude r' = resultIsExclude r
        /\ (lines r' = lines r \/ lines r' = jsset_add k (lines r))
    | _, _ => False
    end.

(** What holds of the maps before line [k] is scanned. *)
Definition scanned_up_to (filterMap : list (nat * FilterInfo)) (k : nat)
    (a : Analysis) : Prop :=
  (forall ident r, jsmap_get ident (filterResults a) = Some r ->
     StronglySorted lt (lines r) /\ Forall (fun n => n < k) (lines r))
  /\ (forall n w, jsmap_get n (linePriorityWinners a) = Some w ->
        n < k /\ has_line (filterResults a) w n
        /\ exists i info, jsmap_get i filterMap = Some info
                          /\ filterId info = w)
  /\ (forall n ident, has_line (filterResults a) ident n ->
        is_Some (jsmap_get n (linePriorityWinners a)))
  /\ covers filterMap (filterResults a).

Definition star_text : list ascii := js "cac" ++ ["010"%char] ++ js "b".

Definition ignored_filter : Filter := set_focusAction NONE sample_filter.

(** Two filters in TEXT mode, the second of higher priority, and a text
    whose first line contains the text of the first filter, whose second
    line contains neither and whose third line contains both, one inside
    the other. *)
Definition dot_filter : Filter := editFilter TEXT (js "a.b") sample_filter.

Definition star_filter : Filter :=
  set_priority 80
    (editFilter TEXT (js "b*")
       (Filter_new never_regex "filter-2" default_priority)).

Definition literal_text : list ascii :=
  js "xa.b" ++ ["010"%char] ++ js "axb" ++ ["010"%char] ++ js "a.b*".

(** A third filter, of the priority of [star_filter]. *)
Definition tie_filter : Filter :=
  set_priority 80
    (editFilter TEXT (js "c")
       (Filter_new never_regex "filter-3" default_priority)).

(* ===================================================================== *)
(** * The combined expression of TEXT filters                            *)
(* ===================================================================== *)

(** A filter as [addFilter] and [editFilter] leave it in TEXT mode: the
    source of its expression is the source of the escaped text. *)
Definition text_filter (f : Filter) : Prop :=
  mode f = TEXT
  /\ source (regex f) = source_of (escapeRegExp (textPattern f)).

(** The pattern a text of the combined expression parses to: the
    characters one after the other, and the empty non-capturing group
    for the empty text. *)
Definition body_of (p : list ascii) : pattern :=
  match p with
  | [] => mk_seq [REmpty]
  | _ => mk_seq (rev (map RChar p))
  end.

Definition alt_of (n : nat) (p : list ascii) : pattern :=
  mk_seq [RGroup n (body_of p)].

(** The alternation of the groups [n + 1], [n + 2], ... around the texts
    [ps]. *)
Fixpoint alt_chain (n : nat) (ps : list (list ascii)) : pattern :=
  match ps with
  | [] => REmpty
  | [p] => alt_of (S n) p
  | p :: rest => RAlt (alt_of (S n) p) (alt_chain (S n) rest)
  end.

(** The first of the texts [ps] that the input has at index [i], as the
    match of group [n + 1 + its position]. *)
Fixpoint first_hit (s : list ascii) (i : nat) (c : caps) (n : nat)
    (ps : list (list ascii)) : option (nat * caps) :=
  match ps with
  | [] => None
  | p :: rest =>
      if is_prefix p (drop i s)
      then Some (i + length p, set_cap (S n) (Some (i, i + length p)) c)
      else first_hit s i c (S n) rest
  end.

(** The source the combiner wraps for a text. *)
Definition text_alternative (p : list ascii) : list ascii :=
  js "(" ++ source_of (escapeRegExp p) ++ js ")".

(* ===================================================================== *)
(** * filter.ts: cache statistics                                      *)
(* ===================================================================== *)

(** [getCacheStats()]: the number of cached documents and a copy of the
    cache. *)
Definition getCacheStats (f : Filter) : nat * gmap string (list nat) :=
  (size (_lineCache f), _lineCache f).

(* ===================================================================== *)
(** * utils.ts, commands.ts: the project and its commands              *)
(* ===================================================================== *)

(** [generateId(category)]; [stamp] stands for the time stamp and the
    random suffix, [Date.now()-random]. *)
Definition generateId (category stamp : string) : string :=
  category +:+ "-" +:+ stamp.

Module Group.
(** [filters] holds the keys of the map, in insertion order; the value
    of a key is the filter object of that identity. *)
Record t := {
  filters : list string;
  isHighlighted : bool;
  focusAction : FocusAction;
  name : string;
  id : string;
  priority : Z
}.
End Group.

Module Project.
Record t := {
  filters : list string;
  groups : list (string * Group.t);
  name : string;
  id : string;
  selected : bool;
  filteringEnabled : bool
}.
End Project.

Definition createGroup (name stamp : string) : Group.t :=
  {| Group.filters := []; Group.isHighlighted := true;
     Group.focusAction := INCLUDED; Group.name := name;
     Group.id := generateId "group" stamp; Group.priority := 100 |}.

Definition createProject (name : string) : Project.t :=
  {| Project.filters := []; Project.groups := []; Project.name := name;
     Project.id := name; Project.selected := false;
     Project.filteringEnabled := true |}.

(** A filter object: the state of the class and the field [groupId]. *)
Record FilterObject := {
  this : Filter;
  groupId : option string
}.

(** The filter objects, by identity, and the selected project.  The
    maps of the project and of its groups refer to the objects by their
    keys, so that a change of an object is seen through every map that
    holds it. *)
Record State := {
  heap : gmap string FilterObject;
  selectedProject : option Project.t
}.

(** The truth value of an optional string: [undefined] and the empty
    string are false. *)
Definition truthy (o : option string) : bool :=
  match o with
  | Some s => negb (bool_decide (s = EmptyString))
  | None => false
  end.

(** [m.set(k, v)] and [m.delete(k)] on the keys of a map. *)
Definition keys_set (k : string) (keys : list string) : list string :=
  if decide (k ∈ keys) then keys else keys ++ [k].

Definition keys_delete (k : string) (keys : list string) : list string :=
  List.filter (fun x => negb (bool_decide (x = k))) keys.

Definition jsmap_delete {V : Type} (k : string) (m : list (string * V))
  : list (string * V) :=
  List.filter (fun e => negb (bool_decide (e.1 = k))) m.

(** [m.get(k)?.f()] for a method that changes the object in place. *)
Definition jsmap_alter {V : Type} (f : V -> V) (k : string)
    (m : list (string * V)) : list (string * V) :=
  map (fun e => if bool_decide (e.1 = k) then (e.1, f e.2) else e) m.

Definition group_with_filters (keys : list string) (g : Group.t) : Group.t :=
  {| Group.filters := keys; Group.isHighlighted := Group.isHighlighted g;
     Group.focusAction := Group.focusAction g; Group.name := Group.name g;
     Group.id := Group.id g; Group.priority := Group.priority g |}.

Definition group_with_focusAction (a : FocusAction) (g : Group.t) : Group.t :=
  {| Group.filters := Group.filters g;
     Group.isHighlighted := Group.isHighlighted g;
     Group.focusAction := a; Group.name := Group.name g;
     Group.id := Group.id g; Group.priority := Group.priority g |}.

Definition group_with_priority (p : Z) (g : Group.t) : Group.t :=
  {| Group.filters := Group.filters g;
     Group.isHighlighted := Group.isHighlighted g;
     Group.focusAction := Group.focusAction g; Group.name := Group.name g;
     Group.id := Group.id g; Group.priority := p |}.

Definition project_with (keys : list string) (gs : list (string * Group.t))
    (p : Project.t) : Project.t :=
  {| Project.filters := keys; Project.groups := gs;
     Project.name := Project.name p; Project.id := Project.id p;
     Project.selected := Project.selected p;
     Project.filteringEnabled := Project.filteringEnabled p |}.

(** A method call on the filter object of a key. *)
Definition on_filter (f : Filter -> Filter) (k : string)
    (h : gmap string FilterObject) : gmap string FilterObject :=
  alter (fun o => {| this := f (this o); groupId := groupId o |}) k h.

Definition set_groupId (g : option string) (k : string)
    (h : gmap string FilterObject) : gmap string FilterObject :=
  alter (fun o => {| this := this o; groupId := g |}) k h.

(** [Array.from(m.values())] for a map of filters with the keys [keys]. *)
Definition values (h : gmap string FilterObject) (keys : list string)
  : list Filter :=
  omap (fun k => this <$> h !! k) keys.

(** [addGroup], once the name is given. *)
Definition addGroup (name stamp : string) (st : State) : State :=
  match selectedProject st with
  | Some project =>
      let group := createGroup name stamp in
      {| heap := heap st;
         selectedProject :=
           Some (project_with (Project.filters project)
                   (jsmap_set (Group.id group) group (Project.groups project))
                   project) |}
  | None => st
  end.

(** [addFilter], once the mode and the pattern are given: [treeItem] is
    the identity of the tree item, if there is one. *)
Definition addFilter_command (treeItem : option string) (modePick : FilterMode)
    (p : list ascii) (stamp : string) (st : State) : State :=
  match selectedProject st with
  | Some project =>
      match addFilter modePick p (generateId "filter" stamp) with
      | Some filter =>
          let group :=
            match treeItem with
            | Some tid => jsmap_get tid (Project.groups project)
            | None => None
            end in
          let groups' :=
            match treeItem, group with
            | Some tid, Some g =>
                jsmap_alter
                  (fun g => group_with_filters
                              (keys_set (filter_id filter) (Group.filters g)) g)
                  tid (Project.groups project)
            | _, _ => Project.groups project
            end in
          {| heap := <[filter_id filter :=
                         {| this := filter; groupId := Group.id <$> group |}]>
                       (heap st);
             selectedProject :=
               Some (project_with
                       (keys_set (filter_id filter) (Project.filters project))
                       groups' project) |}
      | None => st
      end
  | None => st
  end.

(** [editFilter], once the mode and the pattern are given. *)
Definition editFilter_command (treeItem : string) (modePick : FilterMode)
    (p : list ascii) (st : State) : State :=
  match selectedProject st with
  | Some project =>
      if bool_decide (treeItem ∈ Project.filters project)
      then {| heap := on_filter (editFilter modePick p) treeItem (heap st);
              selectedProject := selectedProject st |}
      else st
  | None => st
  end.

Definition deleteFilter (treeItem : string) (st : State) : State :=
  match selectedProject st with
  | Some project =>
      if bool_decide (treeItem ∈ Project.filters project)
      then
        {| heap := heap st;
           selectedProject :=
             Some (project_with
                     (keys_delete treeItem (Project.filters project))
                     (map (fun e =>
                             (e.1, group_with_filters
                                     (keys_delete treeItem (Group.filters e.2))
                                     e.2))
                        (Project.groups project))
                     project) |}
      else st
  | None => st
  end.

Definition deleteGroup (treeItem : string) (st : State) : State :=
  match selectedProject st with
  | Some project =>
      match jsmap_get treeItem (Project.groups project) with
      | Some group =>
          {| heap := heap st;
             selectedProject :=
               Some (project_with
                       (fold_left (fun keys k => keys_delete k keys)
                          (Group.filters group) (Project.filters project))
                       (jsmap_delete treeItem (Project.groups project))
                       project) |}
      | None => st
      end
  | None => st
  end.

Definition setFocusAction (action : FocusAction) (treeItem : string)
    (st : State) : State :=
  match selectedProject st with
  | Some project =>
      if String.prefix "group-" treeItem then
        match jsmap_get treeItem (Project.groups project) with
        | Some group =>
            {| heap :=
                 fold_left (fun h k => on_filter (set_focusAction action) k h)
                   (Group.filters group) (heap st);
               selectedProject :=
                 Some (project_with (Project.filters project)
                         (jsmap_alter (group_with_focusAction action) treeItem
                            (Project.groups project))
                         project) |}
        | None => st
        end
      else if String.prefix "filter-" treeItem then
        if bool_decide (treeItem ∈ Project.filters project)
        then {| heap := on_filter (set_focusAction action) treeItem (heap st);
                selectedProject := selectedProject st |}
        else st
      else st
  | None => st
  end.

(** [getSortedFiltersInGroup(group)] *)
Definition getSortedFiltersInGroup (h : gmap string FilterObject)
    (group : Group.t) : list Filter :=
  sort_by_priority (values h (Group.filters group)).

(** The target of a drop: a group item, a filter item with its
    [groupId], or anything else. *)
Inductive DropTarget :=
| OnGroup (id : string)
| OnFilter (id : string) (groupId : option string)
| OnRoot.

Definition targetGroupId (target : DropTarget) : option string :=
  match target with
  | OnGroup id => Some id
  | OnFilter _ g => g
  | OnRoot => None
  end.

Definition targetFilterId (target : DropTarget) : string :=
  match target with
  | OnFilter id _ => id
  | _ => EmptyString
  end.

(** The first step of [handleDrop] for one dragged identity: the filter
    leaves the group its [groupId] names and enters the target group. *)
Definition move_filter (target : option string) (keys : list string)
    (acc : gmap string FilterObject * list (string * Group.t))
    (filterId : string)
  : gmap string FilterObject * list (string * Group.t) :=
  let '(h, gs) := acc in
  if bool_decide (filterId ∈ keys) then
    match h !! filterId with
    | Some o =>
        if bool_decide (groupId o = target) then (h, gs)
        else
          let gs1 :=
            match groupId o with
            | Some old =>
                if truthy (groupId o)
                then jsmap_alter
                       (fun g => group_with_filters
                                   (keys_delete (filter_id (this o))
                                      (Group.filters g)) g)
                       old gs
                else gs
            | None => gs
            end in
          let h1 := set_groupId target filterId h in
          let gs2 :=
            match target with
            | Some new =>
                if truthy target
                then jsmap_alter
                       (fun g => group_with_filters
                                   (keys_set (filter_id (this o))
                                      (Group.filters g)) g)
                       new gs1
                else gs1
            | None => gs1
            end in
          (h1, gs2)
    | None => (h, gs)
    end
  else (h, gs).

(** [findIndex], with the fallback the code takes for [-1]. *)
Fixpoint find_index {A : Type} (p : A -> bool) (l : list A) : option nat :=
  match l with
  | [] => None
  | x :: l' => if p x then Some 0 else S <$> find_index p l'
  end.

Definition insert_index {A : Type} (p : A -> bool) (l : list A) : nat :=
  match find_index p l with
  | Some i => i
  | None => 0
  end.

(** [l.splice(i, 0, ...items)] *)
Definition splice {A : Type} (i : nat) (items l : list A) : list A :=
  take i l ++ items ++ drop i l.

(** [remaining.forEach((f, i) => f.priority = (remaining.length - i) * 10)]
    from position [i] on, [n] being the length of the whole list. *)
Fixpoint reassign (n i : nat) (remaining : list string)
    (h : gmap string FilterObject) : gmap string FilterObject :=
  match remaining with
  | [] => h
  | k :: rest =>
      reassign n (S i) rest
        (on_filter (set_priority ((Z.of_nat n - Z.of_nat i) * 10)) k h)
  end.

(** The second step of [handleDrop] when the target is in a group: the
    order the filters of the group are given. *)
Definition drop_order (h : gmap string FilterObject) (keys : list string)
    (group : Group.t) (target : DropTarget) (dragData : list string)
  : list string :=
  let sortedFilters :=
    sort_by_priority (values h (Group.filters group)) in
  let remaining :=
    List.filter (fun f => negb (bool_decide (filter_id f ∈ dragData)))
      sortedFilters in
  let insertIdx :=
    insert_index (fun f => bool_decide (filter_id f = targetFilterId target))
      remaining in
  let draggedFilters :=
    omap (fun d => if bool_decide (d ∈ keys) then this <$> h !! d else None)
      dragData in
  map filter_id (splice insertIdx draggedFilters remaining).

(** An entry of the list the root level is ordered by. *)
Inductive SortableType := IsFilter | IsGroup.

Record Sortable := {
  s_id : string;
  s_priority : Z;
  s_type : SortableType
}.

Fixpoint insert_sortable (x : Sortable) (l : list Sortable) : list Sortable :=
  match l with
  | [] => [x]
  | y :: l' =>
      if (s_priority y <? s_priority x)%Z then x :: y :: l'
      else y :: insert_sortable x l'
  end.

(** [items.sort((a, b) => b.priority - a.priority)] *)
Definition sort_sortable (l : list Sortable) : list Sortable :=
  fold_left (fun acc x => insert_sortable x acc) l [].

Definition root_order (h : gmap string FilterObject) (project : Project.t)
    (gs : list (string * Group.t)) (target : DropTarget)
    (dragData : list string) : list Sortable :=
  let rootFilters :=
    omap (fun k =>
            match h !! k with
            | Some o => if truthy (groupId o) then None else Some (this o)
            | None => None
            end)
      (Project.filters project) in
  let items :=
    map (fun f => {| s_id := filter_id f; s_priority := priority f;
                     s_type := IsFilter |}) rootFilters
    ++ map (fun e => {| s_id := Group.id e.2; s_priority := Group.priority e.2;
                        s_type := IsGroup |}) gs in
  let sorted := sort_sortable items in
  let kept :=
    List.filter (fun item => negb (bool_decide (s_id item ∈ dragData))) sorted in
  let insertIdx :=
    insert_index
      (fun item => bool_decide (s_id item = targetFilterId target)
                   || bool_decide (Some (s_id item) = targetGroupId target))
      kept in
  splice insertIdx
    (map (fun d => {| s_id := d; s_priority := 0; s_type := IsFilter |}) dragData)
    kept.

(** The root level's [items.forEach]. *)
Fixpoint reassign_root (n i : nat) (items : list Sortable) (keys : list string)
    (acc : gmap string FilterObject * list (string * Group.t))
  : gmap string FilterObject * list (string * Group.t) :=
  match items with
  | [] => acc
  | item :: rest =>
      let p := ((Z.of_nat n - Z.of_nat i) * 10)%Z in
      let '(h, gs) := acc in
      reassign_root n (S i) rest keys
        match s_type item with
        | IsFilter =>
            if bool_decide (s_id item ∈ keys)
            then (on_filter (set_priority p) (s_id item) h, gs)
            else (h, gs)
        | IsGroup => (h, jsmap_alter (group_with_priority p) (s_id item) gs)
        end
  end.

(** [handleDrop(target, dataTransfer)], once the identities of the
    dragged filters are read from the transfer. *)
Definition handleDrop (target : DropTarget) (dragData : list string)
    (st : State) : State :=
  match selectedProject st with
  | Some project =>
      let keys := Project.filters project in
      let '(h1, gs1) :=
        fold_left (move_filter (targetGroupId target) keys) dragData
          (heap st, Project.groups project) in
      let '(h2, gs2) :=
        if truthy (targetGroupId target) then
          match targetGroupId target with
          | Some tg =>
              match jsmap_get tg gs1 with
              | Some group =>
                  let remaining := drop_order h1 keys group target dragData in
                  (reassign (length remaining) 0 remaining h1, gs1)
              | None => (h1, gs1)
              end
          | None => (h1, gs1)
          end
        else
          let items := root_order h1 project gs1 target dragData in
          reassign_root (length items) 0 items keys (h1, gs1) in
      {| heap := h2;
         selectedProject := Some (project_with keys gs2 project) |}
  | None => st
  end.

(** The commands on the selected project. *)
Inductive Command :=
| CmdAddGroup (name stamp : string)
| CmdAddFilter (treeItem : option string) (modePick : FilterMode)
    (p : list ascii) (stamp : string)
| CmdEditFilter (treeItem : string) (modePick : FilterMode) (p : list ascii)
| CmdDeleteFilter (treeItem : string)
| CmdDeleteGroup (treeItem : string)
| CmdSetFocusAction (action : FocusAction) (treeItem : string)
| CmdHandleDrop (target : DropTarget) (dragData : list string).

Definition run_command (st : State) (c : Command) : State :=
  match c with
  | CmdAddGroup name stamp => addGroup name stamp st
  | CmdAddFilter treeItem modePick p stamp =>
      addFilter_command treeItem modePick p stamp st
  | CmdEditFilter treeItem modePick p => editFilter_command treeItem modePick p st
  | CmdDeleteFilter treeItem => deleteFilter treeItem st
  | CmdDeleteGroup treeItem => deleteGroup treeItem st
  | CmdSetFocusAction action treeItem => setFocusAction action treeItem st
  | CmdHandleDrop target dragData => handleDrop target dragData st
  end.

(** The identity generated for a new filter is the identity of no
    filter object yet, and no filter object names the identity generated
    for a new group. *)
Definition fresh (st : State) (c : Command) : Prop :=
  match c with
  | CmdAddFilter _ _ _ stamp => heap st !! generateId "filter" stamp = None
  | CmdAddGroup _ stamp =>
      forall k o, heap st !! k = Some o ->
                  groupId o <> Some (generateId "group" stamp)
  | _ => True
  end.

Fixpoint all_fresh (st : State) (cs : list Command) : Prop :=
  match cs with
  | [] => True
  | c :: cs' => fresh st c /\ all_fresh (run_command st c) cs'
  end.

(** What the maps of a project and of its groups have in common: the
    keys of a map are distinct and a filter object is stored under its
    own identity; a group is stored under its identity, which is not
    empty; every filter of a group is a filter of the project and names
    that group in its [groupId]; a filter of the project that names a
    group of the project is in the map of that group. *)
Definition consistent (h : gmap string FilterObject) (keys : list string)
    (gs : list (string * Group.t)) : Prop :=
  NoDup keys
  /\ (forall k, k ∈ keys -> is_Some (h !! k))
  /\ (forall k o, h !! k = Some o -> filter_id (this o) = k)
  /\ NoDup gs.*1
  /\ (forall gk g, (gk, g) ∈ gs ->
        Group.id g = gk /\ gk <> EmptyString /\ NoDup (Group.filters g)
        /\ forall k, k ∈ Group.filters g ->
             k ∈ keys /\ exists o, h !! k = Some o /\ groupId o = Some gk)
  /\ forall k o gk g,
       k ∈ keys -> h !! k = Some o -> groupId o = Some gk -> (gk, g) ∈ gs ->
       k ∈ Group.filters g.

Definition integrity (st : State) : Prop :=
  match selectedProject st with
  | Some project =>
      consistent (heap st) (Project.filters project) (Project.groups project)
  | None => True
  end.

(** A new project, a group with two filters, and what the project looks
    like then. *)
Definition new_state : State :=
  {| heap := ∅; selectedProject := Some (createProject "logs") |}.

Definition group_commands : list Command :=
  [CmdAddGroup "errors" "1";
   CmdAddFilter (Some "group-1"%string) TEXT (js "error") "2";
   CmdAddFilter (Some "group-1"%string) TEXT (js "fatal") "3"].

Definition group_state : State := fold_left run_command group_commands new_state.

Definition errors_group : Group.t :=
  {| Group.filters := ["filter-2"; "filter-3"]%string;
     Group.isHighlighted := true; Group.focusAction := INCLUDED;
     Group.name := "errors"; Group.id := "group-1"; Group.priority := 100 |}.

Definition logs_project : Project.t :=
  {| Project.filters := ["filter-2"; "filter-3"]%string;
     Project.groups := [("group-1"%string, errors_group)];
     Project.name := "logs"; Project.id := "logs"; Project.selected := false;
     Project.filteringEnabled := true |}.

(* ===================================================================== *)
(** * settings.ts: saving and loading a project                        *)
(* ===================================================================== *)

(** ** The colour of a filter *)

(** A colour, as the list of the UTF-16 code units of the string: the
    constructor of [Filter] fails on a colour with a code unit above
    255, which a list of 8-bit characters cannot hold. *)
Definition units (s : string) : list N :=
  map N_of_ascii (list_ascii_of_string s).

(** The classes [\d] and [\s] (WhiteSpace and LineTerminator). *)
Definition is_digit (c : N) : bool := ((48 <=? c) && (c <=? 57))%N.

Definition is_space (c : N) : bool :=
  bool_decide (c ∈ [9; 10; 11; 12; 13; 32; 160; 5760; 8232; 8233; 8239;
                    8287; 12288; 65279]%N)
  || ((8192 <=? c) && (c <=? 8202))%N.

(** What is left of [s] after the longest run of characters of a
    class. *)
Fixpoint skip (p : N -> bool) (s : list N) : list N :=
  match s with
  | c :: rest => if p c then skip p rest else s
  | [] => []
  end.

(** What is left of [s] after the characters [lit], after [\d+]. *)
Definition expect (lit : list N) (s : list N) : option (list N) :=
  if bool_decide (take (length lit) s = lit)
  then Some (drop (length lit) s) else None.

Definition digits (s : list N) : option (list N) :=
  match s with
  | c :: _ => if is_digit c then Some (skip is_digit s) else None
  | [] => None
  end.

(** Whether [/hsl\((\d+),\s*(\d+)%,\s*(\d+)%\)/] matches at the start
    of [s].  Every [\d+] and [\s*] takes its longest run: the character
    that has to follow is outside the class, so that no shorter run is
    followed by it. *)
Definition hsl_here (s : list N) : bool :=
  bool_decide
    (is_Some
       (s ← expect (units "hsl(") s;
        s ← digits s;
        s ← expect (units ",") s;
        s ← digits (skip is_space s);
        s ← expect (units "%,") s;
        s ← digits (skip is_space s);
        expect (units "%)") s)).

(** [color.match(/hsl\((\d+),\s*(\d+)%,\s*(\d+)%\)/)] is not
    [null]: the expression matches at some index. *)
Fixpoint has_hsl (color : list N) : bool :=
  hsl_here color
  || match color with
     | _ :: rest => has_hsl rest
     | [] => false
     end.

(** [createColorPair(color)]: two [hsl] colours rebuilt from the hue,
    which are ASCII text, when [color] has the [hsl] form, and twice
    [color] itself otherwise; [generateColorPair()] gives a pair of the
    first kind. *)
Inductive ColorPair := HslPair | SamePair (color : list N).

Definition createColorPair (color : list N) : ColorPair :=
  if has_hsl color then HslPair else SamePair color.

(** Whether [btoa(svgContent)] throws in [generateSvgIcon()]: [btoa]
    refuses a code unit above 255, and the SVG text is ASCII around the
    colour. *)
Definition generateSvgIcon_throws (colors : ColorPair) : bool :=
  match colors with
  | HslPair => false
  | SamePair color => existsb (fun u => (255 <? u)%N) color
  end.

(** Whether [new Filter(regex, color, priority)] throws: the colours
    are [createColorPair(color)] for a colour that is not empty and are
    generated otherwise, and the constructor ends with
    [generateSvgIcon()].  The setters that [loadProject] calls next make
    the icon of the same colours again. *)
Definition Filter_throws (color : option (list N)) : bool :=
  match color with
  | Some (c :: rest) => generateSvgIcon_throws (createColorPair (c :: rest))
  | _ => false
  end.

(** ** The project file *)

(** What [JSON.parse] returns for a project file, as far as [loadProject]
    reads it and the model of the filter holds it: a field that is
    absent is [None]. *)
Record ParsedFilter := {
  pf_id : option string;
  pf_regex : list ascii;
  pf_color : option (list N);
  pf_priority : option Z;
  pf_focusAction : option FocusAction;
  pf_isExclude : option bool;
  pf_isShown : option bool;
  pf_mode : option FilterMode;
  pf_textPattern : option (list ascii);
  pf_groupId : option string
}.

Record ParsedGroup := {
  pg_id : option string;
  pg_name : string;
  pg_priority : option Z;
  pg_isHighlighted : option bool;
  pg_focusAction : option FocusAction;
  pg_isExclude : option bool;
  pg_isShown : option bool;
  pg_filters : option (list ParsedFilter)
}.

Record ParsedProject := {
  pp_name : string;
  pp_groups : option (list ParsedGroup);
  pp_filters : option (list ParsedFilter)
}.

Definition migrateFocusAction (focusAction : option FocusAction)
    (isExclude isShown : option bool) : FocusAction :=
  match focusAction with
  | Some a => a
  | None =>
      match isExclude with
      | Some true => EXCLUDED
      | _ =>
          match isShown with
          | Some false => NONE
          | _ => INCLUDED
          end
      end
  end.

(** The filter [loadProject] constructs for an entry, for the host's
    constructor of expressions [new_RegExp]; [None] when [new RegExp] or
    the constructor of [Filter] throws. *)
Definition load_filter (new_RegExp : RegExpConstructor) (f : ParsedFilter)
    (stamp : string) : option Filter :=
  match new_RegExp (pf_regex f) false false with
  | Some rx =>
      if Filter_throws (pf_color f) then None
      else
        let filter :=
          set_focusAction
            (migrateFocusAction (pf_focusAction f) (pf_isExclude f)
               (pf_isShown f))
            (Filter_new rx (generateId "filter" stamp)
               (default 50%Z (pf_priority f))) in
        Some {| regex := regex filter; mode := default REGEX (pf_mode f);
                textPattern := default [] (pf_textPattern f);
                filter_id := filter_id filter;
                _focusAction := _focusAction filter;
                _priority := _priority filter;
                _lineCache := _lineCache filter;
                _analyzedUris := _analyzedUris filter |}
  | None => None
  end.

(** What [loadProject] has built so far: the filter objects, the keys of
    [project.filters], [project.groups], and how many identities were
    generated for filters. *)
Record Loading := {
  l_heap : gmap string FilterObject;
  l_filters : list string;
  l_groups : list (string * Group.t);
  l_count : nat
}.

(** The body of [parsed.filters.forEach] of the current format. *)
Definition load_one (new_RegExp : RegExpConstructor)
    (fstamp : nat -> string) (acc : option Loading)
    (f : ParsedFilter) : option Loading :=
  match acc with
  | Some l =>
      match load_filter new_RegExp f (fstamp (l_count l)) with
      | Some filter =>
          let has_group :=
            truthy (pf_groupId f)
            && match pf_groupId f with
               | Some g => bool_decide (g ∈ (l_groups l).*1)
               | None => false
               end in
          Some {| l_heap := <[filter_id filter :=
                                {| this := filter; groupId := pf_groupId f |}]>
                              (l_heap l);
                  l_filters := keys_set (filter_id filter) (l_filters l);
                  l_groups :=
                    match pf_groupId f with
                    | Some g =>
                        if has_group
                        then jsmap_alter
                               (fun gr => group_with_filters
                                            (keys_set (filter_id filter)
                                               (Group.filters gr)) gr)
                               g (l_groups l)
                        else l_groups l
                    | None => l_groups l
                    end;
                  l_count := S (l_count l) |}
      | None => None
      end
  | None => None
  end.

(** The body of [parsed.groups.forEach] of the current format; [i] is
    the number of the group. *)
Definition load_group (gstamp : nat -> string)
    (gs : list (string * Group.t)) (ig : nat * ParsedGroup)
  : list (string * Group.t) :=
  let g := ig.2 in
  let group := createGroup (pg_name g) (gstamp ig.1) in
  let ident := if truthy (pg_id g) then default (Group.id group) (pg_id g)
               else Group.id group in
  jsmap_set ident
    {| Group.filters := Group.filters group;
       Group.isHighlighted := default true (pg_isHighlighted g);
       Group.focusAction :=
         migrateFocusAction (pg_focusAction g) (pg_isExclude g) (pg_isShown g);
       Group.name := Group.name group; Group.id := ident;
       Group.priority := default 100%Z (pg_priority g) |}
    gs.

(** The body of [g.filters.forEach] of the old format: the filter enters
    the group that is being built and the project. *)
Definition load_nested (new_RegExp : RegExpConstructor)
    (fstamp : nat -> string) (gid : string)
    (acc : option (Loading * list string)) (f : ParsedFilter)
  : option (Loading * list string) :=
  match acc with
  | Some (l, members) =>
      match load_filter new_RegExp f (fstamp (l_count l)) with
      | Some filter =>
          Some ({| l_heap := <[filter_id filter :=
                                 {| this := filter; groupId := Some gid |}]>
                               (l_heap l);
                   l_filters := keys_set (filter_id filter) (l_filters l);
                   l_groups := l_groups l;
                   l_count := S (l_count l) |},
                keys_set (filter_id filter) members)
      | None => None
      end
  | None => None
  end.

(** The body of [parsed.groups.forEach] of the old format; a group
    without [filters] ends the load with a TypeError. *)
Definition load_old_group (new_RegExp : RegExpConstructor)
    (gstamp fstamp : nat -> string)
    (acc : option Loading) (ig : nat * ParsedGroup) : option Loading :=
  match acc with
  | Some l =>
      let g := ig.2 in
      let group := createGroup (pg_name g) (gstamp ig.1) in
      match pg_filters g with
      | Some fs =>
          match fold_left (load_nested new_RegExp fstamp (Group.id group)) fs
                  (Some (l, [])) with
          | Some (l', members) =>
              Some {| l_heap := l_heap l'; l_filters := l_filters l';
                      l_groups :=
                        jsmap_set (Group.id group)
                          {| Group.filters := members;
                             Group.isHighlighted := Group.isHighlighted group;
                             Group.focusAction := Group.focusAction group;
                             Group.name := Group.name group;
                             Group.id := Group.id group;
                             Group.priority := default 100%Z (pg_priority g) |}
                          (l_groups l');
                      l_count := l_count l' |}
          | None => None
          end
      | None => None
      end
  | None => None
  end.

Definition indexed {A : Type} (l : list A) : list (nat * A) :=
  zip (seq 0 (length l)) l.

(** [loadProject], from the parsed file on: the objects and the
    project, or [None] for the [null] of the [catch] branch. *)
Definition loadProject (new_RegExp : RegExpConstructor)
    (parsed : ParsedProject) (gstamp fstamp : nat -> string)
  : option (gmap string FilterObject * Project.t) :=
  let start := {| l_heap := ∅; l_filters := []; l_groups := []; l_count := 0 |} in
  let loaded :=
    match pp_groups parsed, pp_filters parsed with
    | Some groups, None =>
        fold_left (load_old_group new_RegExp gstamp fstamp) (indexed groups)
          (Some start)
    | groups, filters =>
        let gs :=
          match groups with
          | Some groups => fold_left (load_group gstamp) (indexed groups) []
          | None => []
          end in
        let with_groups :=
          {| l_heap := ∅; l_filters := []; l_groups := gs; l_count := 0 |} in
        match filters with
        | Some filters =>
            fold_left (load_one new_RegExp fstamp) filters (Some with_groups)
        | None => Some with_groups
        end
    end in
  match loaded with
  | Some l =>
      Some (l_heap l,
            project_with (l_filters l) (l_groups l)
              (createProject (pp_name parsed)))
  | None => None
  end.

(** The object [saveProject] hands to [JSON.stringify]; [color] is
    [filter.color], which the record of the filter does not hold. *)
Definition save_filter (color : list N) (o : FilterObject) : ParsedFilter :=
  {| pf_id := Some (filter_id (this o));
     pf_regex := source (regex (this o));
     pf_color := Some color;
     pf_priority := Some (priority (this o));
     pf_focusAction := Some (focusAction (this o));
     pf_isExclude := None; pf_isShown := None;
     pf_mode := Some (mode (this o));
     pf_textPattern := Some (textPattern (this o));
     pf_groupId := groupId o |}.

Definition save_group (g : Group.t) : ParsedGroup :=
  {| pg_id := Some (Group.id g); pg_name := Group.name g;
     pg_priority := Some (Group.priority g);
     pg_isHighlighted := Some (Group.isHighlighted g);
     pg_focusAction := Some (Group.focusAction g);
     pg_isExclude := None; pg_isShown := None; pg_filters := None |}.

(** [color_of] gives the colour of the filter of each identity. *)
Definition saveProject (color_of : string -> list N)
    (h : gmap string FilterObject) (project : Project.t) : ParsedProject :=
  {| pp_name := Project.name project;
     pp_groups := Some (map (fun e => save_group e.2) (Project.groups project));
     pp_filters :=
       Some (omap (fun k => save_filter (color_of k) <$> h !! k)
               (Project.filters project)) |}.

(** A filter as [loadProject] builds it from what [saveProject] wrote
    for [f]: the same expression, mode, text, priority and action, a
    new identity and an empty cache. *)
Definition reloaded (ident : string) (f : Filter) : Filter :=
  {| regex := regex f; mode := mode f; textPattern := textPattern f;
     filter_id := ident; _focusAction := _focusAction f;
     _priority := _priority f; _lineCache := ∅; _analyzedUris := ∅ |}.

(** What the constructor, the setters and the commands guarantee of a
    filter: a priority between 0 and 100 and an expression that
    [new RegExp] compiled, without flags. *)
Definition loadable (new_RegExp : RegExpConstructor) (f : Filter) : Prop :=
  (0 <= priority f <= 100)%Z
  /\ exists p, new_RegExp p false false = Some (regex f).

(** What the host guarantees of the [source] of an expression:
    [new RegExp(rx.source)] is [rx] again. *)
Definition source_round_trip (new_RegExp : RegExpConstructor) : Prop :=
  forall p rx, new_RegExp p false false = Some rx ->
               new_RegExp (source rx) false false = Some rx.

(** The state of a group that a reload keeps. *)
Definition same_group (g g' : Group.t) : Prop :=
  Group.id g' = Group.id g /\ Group.name g' = Group.name g
  /\ Group.priority g' = Group.priority g
  /\ Group.focusAction g' = Group.focusAction g
  /\ Group.isHighlighted g' = Group.isHighlighted g.

(** The identity of the filter that [loadProject] constructs as its
    [j]-th. *)
Definition loaded_id (fstamp : nat -> string) (j : nat) : string :=
  generateId "filter" (fstamp j).

(** A project made by the commands: a group, a filter of the group in
    REGEX mode that is then EXCLUDED, and a filter in TEXT mode outside
    the group; the colour that [generateColorPair] gave them; stamps
    that never repeat. *)
Definition saved_commands : list Command :=
  [CmdAddGroup "errors" "1";
   CmdAddFilter (Some "group-1"%string) REGEX (js "a+b") "2";
   CmdAddFilter None TEXT (js "a.b") "3";
   CmdSetFocusAction EXCLUDED "filter-2"].

Definition saved_state : State :=
  fold_left run_command saved_commands new_state.

Definition saved_project : Project.t :=
  default (createProject "logs") (selectedProject saved_state).

Definition saved_colors (k : string) : list N := units "hsl(210, 50%, 40%)".

Fixpoint unary_stamp (n : nat) : string :=
  match n with
  | 0 => EmptyString
  | S n' => String "x" (unary_stamp n')
  end.

(** A file of the current format written before the focus action
    existed: a group with the old [isExclude] flag, a filter of that
    group with the old [isShown] flag and a priority out of range, and a
    filter that names a group the file does not list. *)
Definition flags_file : ParsedProject :=
  {| pp_name := "logs";
     pp_groups :=
       Some [ {| pg_id := Some "group-a"%string; pg_name := "errors";
                 pg_priority := None; pg_isHighlighted := None;
                 pg_focusAction := None; pg_isExclude := Some true;
                 pg_isShown := None; pg_filters := None |} ];
     pp_filters :=
       Some [ {| pf_id := None; pf_regex := js "a+";
                 pf_color := Some (units "hsl(12, 50%, 40%)");
                 pf_priority := Some 500%Z;
                 pf_focusAction := None; pf_isExclude := None;
                 pf_isShown := Some false; pf_mode := None;
                 pf_textPattern := None;
                 pf_groupId := Some "group-a"%string |};
              {| pf_id := None; pf_regex := js "b"; pf_color := None;
                 pf_priority := None;
                 pf_focusAction := None; pf_isExclude := None;
                 pf_isShown := None; pf_mode := Some TEXT;
                 pf_textPattern := Some (js "b");
                 pf_groupId := Some "group-z"%string |} ] |}.

(** The same file with an expression that [new RegExp] refuses. *)
Definition broken_file : ParsedProject :=
  {| pp_name := "logs";
     pp_groups := pp_groups flags_file;
     pp_filters :=
       Some (default [] (pp_filters flags_file)
             ++ [ {| pf_id := None; pf_regex := js "(a"; pf_color := None;
                     pf_priority := None;
                     pf_focusAction := None; pf_isExclude := None;
                     pf_isShown := None; pf_mode := None;
                     pf_textPattern := None; pf_groupId := None |} ]) |}.

(** A file with a colour that has no [hsl] form and holds the euro
    sign. *)
Definition smudged_file : ParsedProject :=
  {| pp_name := "logs";
     pp_groups := None;
     pp_filters :=
       Some [ {| pf_id := None; pf_regex := js "b";
                 pf_color := Some (units "red" ++ [8364%N]);
                 pf_priority := None;
                 pf_focusAction := None; pf_isExclude := None;
                 pf_isShown := None; pf_mode := None;
                 pf_textPattern := None; pf_groupId := None |} ] |}.

(* ===================================================================== *)
(** * Properties of the Filter class                                     *)
(* ===================================================================== *)


Lemma clamp_priority_cases (v : Z) :
  clamp_priority v
  = if (v <? 0)%Z then 0%Z else if (100 <? v)%Z then 100%Z else v.
Proof.
  unfold clamp_priority.
  destruct (Z.ltb_spec v 0), (Z.ltb_spec 100 v); lia.
Qed.









(** ** The result cache *)

Lemma cache_consistent_new (rx : RegExp) (ident : string) (p : Z) :
  cache_consistent (Filter_new rx ident p).
Proof. intros u. simpl. rewrite lookup_empty. set_solver. Qed.

Lemma cache_consistent_apply_op (f : Filter) (op : FilterOp) :
  cache_consistent f -> cache_consistent (apply_op f op).
Proof.
  intros Hf u. destruct op as [v|a|rx|u' ls|[u'|]]; simpl;
    try apply Hf; try (rewrite lookup_empty; set_solver).
  - destruct (decide (u' = u)) as [->|Hne].
    + rewrite lookup_insert_eq. set_solver.
    + rewrite lookup_insert_ne by done. specialize (Hf u). set_solver.
  - unfold clearCache. case_bool_decide; simpl.
    + rewrite lookup_empty. set_solver.
    + destruct (decide (u' = u)) as [->|Hne].
      * rewrite lookup_delete_eq. set_solver.
      * rewrite lookup_delete_ne by done. specialize (Hf u). set_solver.
Qed.

Lemma cache_consistent_run_ops (ops : list FilterOp) (f : Filter) :
  cache_consistent f -> cache_consistent (run_ops ops f).
Proof.
  revert f. induction ops as [|op ops IH]; intros f Hf; simpl; [exact Hf|].
  apply IH, cache_consistent_apply_op, Hf.
Qed.








Lemma isAnalyzed_track (uri : string) (f : Filter) (op : FilterOp) :
  isAnalyzed uri (apply_op f op) = track uri (isAnalyzed uri f) op.
Proof.
  unfold isAnalyzed, track.
  destruct op as [v|a|rx|u ls|[u|]]; simpl; try done.
  - destruct (decide (u = uri)) as [->|Hu].
    + rewrite (bool_decide_eq_true_2 (uri = uri)) by done.
      apply bool_decide_eq_true. set_solver.
    + rewrite (bool_decide_eq_false_2 (u = uri)) by done.
      apply bool_decide_ext. set_solver.
  - unfold clearCache.
    destruct (decide (u = EmptyString)) as [He|He].
    + rewrite !(bool_decide_eq_true_2 (u = EmptyString)) by done. done.
    + rewrite !(bool_decide_eq_false_2 (u = EmptyString)) by done. simpl.
      destruct (decide (u = uri)) as [->|Hu].
      * rewrite (bool_decide_eq_true_2 (uri = uri)) by done.
        apply bool_decide_eq_false. set_solver.
      * rewrite (bool_decide_eq_false_2 (u = uri)) by done.
        apply bool_decide_ext. set_solver.
Qed.

Lemma isAnalyzed_run_ops (uri : string) (ops : list FilterOp) (f : Filter) :
  isAnalyzed uri (run_ops ops f) = fold_left (track uri) ops (isAnalyzed uri f).
Proof.
  revert f. induction ops as [|op ops IH]; intros f; simpl; [done|].
  unfold run_ops in IH. rewrite IH, isAnalyzed_track. done.
Qed.

(** C10. For a document that was never passed to [updateCache], or was
    cleared since, [getMatchedLines] returns the empty array and
    [isAnalyzed] returns false; a document analysed with no match reads
    back the same empty array and differs only in [isAnalyzed]. *)
Theorem unanalyzed_read (rx : RegExp) (ident : string) (p : Z)
    (ops : list FilterOp) (uri : string) :
  analysed_after uri ops = false ->
  let f := run_ops ops (Filter_new rx ident p) in
  getMatchedLines uri f = []
  /\ isAnalyzed uri f = false
  /\ getMatchedLines uri (updateCache uri [] f) = getMatchedLines uri f
  /\ isAnalyzed uri (updateCache uri [] f) = true.
Proof.
  intros Hnot f.
  assert (Hcons : cache_consistent f)
    by apply cache_consistent_run_ops, cache_consistent_new.
  assert (Han : isAnalyzed uri f = false).
  { subst f. rewrite isAnalyzed_run_ops. exact Hnot. }
  assert (Hget : getMatchedLines uri f = []).
  { unfold getMatchedLines. apply bool_decide_eq_false in Han.
    apply Hcons in Han. rewrite Han. done. }
  split; [exact Hget|split; [exact Han|split]].
  - rewrite Hget. unfold getMatchedLines. simpl. rewrite lookup_insert_eq. done.
  - unfold isAnalyzed. simpl. apply bool_decide_eq_true. set_solver.
Qed.

Lemma unanalyzed_read_witness :
  let f :=
    run_ops [UpdateCache "file:///a.log" [4]; ClearCache (Some "file:///a.log"%string);
             UpdateCache "file:///b.log" [0]]
      (Filter_new never_regex "filter-1" 50) in
  getMatchedLines "file:///a.log" f = []
  /\ isAnalyzed "file:///a.log" f = false
  /\ getMatchedLines "file:///a.log" (updateCache "file:///a.log" [] f)
     = getMatchedLines "file:///a.log" f
  /\ isAnalyzed "file:///a.log" (updateCache "file:///a.log" [] f) = true.
Proof.
  exact (unanalyzed_read never_regex "filter-1" 50
           [UpdateCache "file:///a.log" [4]; ClearCache (Some "file:///a.log"%string);
            UpdateCache "file:///b.log" [0]]
           "file:///a.log" eq_refl).
Defined.

(* ===================================================================== *)
(** * Properties of the focus view                                       *)
(* ===================================================================== *)

Lemma elem_of_bfilter {A : Type} (p : A -> bool) (l : list A) (x : A) :
  x ∈ List.filter p l <-> x ∈ l /\ p x = true.
Proof. rewrite !list_elem_of_In. apply filter_In. Qed.

Lemma insert_by_priority_perm (f : Filter) (l : list Filter) :
  insert_by_priority f l ≡ₚ f :: l.
Proof.
  induction l as [|g l IH]; simpl; [done|].
  destruct (priority g <? priority f)%Z; [done|].
  rewrite IH. apply Permutation_swap.
Qed.

Lemma sort_by_priority_perm (l : list Filter) : sort_by_priority l ≡ₚ l.
Proof.
  unfold sort_by_priority.
  assert (H : forall acc, fold_left (fun acc f => insert_by_priority f acc) l acc
                          ≡ₚ l ++ acc).
  { induction l as [|f l IH]; intros acc; simpl; [done|].
    rewrite IH, insert_by_priority_perm. symmetry. apply Permutation_middle. }
  rewrite H. by rewrite app_nil_r.
Qed.

Lemma elem_of_jsset_add (n x : nat) (s : list nat) :
  x ∈ jsset_add n s <-> x = n \/ x ∈ s.
Proof.
  unfold jsset_add. case_decide as Hn.
  - split; [by right|]. intros [->|H]; done.
  - rewrite elem_of_app, list_elem_of_singleton. tauto.
Qed.

Lemma elem_of_jsset_delete (n x : nat) (s : list nat) :
  x ∈ jsset_delete n s <-> x ∈ s /\ x <> n.
Proof.
  unfold jsset_delete. rewrite elem_of_bfilter.
  rewrite negb_true_iff, Nat.eqb_neq. done.
Qed.

Lemma elem_of_add_all (ns s : list nat) (x : nat) :
  x ∈ fold_left (fun acc n => jsset_add n acc) ns s <-> x ∈ ns \/ x ∈ s.
Proof.
  revert s. induction ns as [|n ns IH]; intros s; simpl.
  - rewrite elem_of_nil. tauto.
  - rewrite IH, elem_of_jsset_add, elem_of_cons. tauto.
Qed.

Lemma elem_of_delete_all (ns s : list nat) (x : nat) :
  x ∈ fold_left (fun acc n => jsset_delete n acc) ns s <-> x ∈ s /\ x ∉ ns.
Proof.
  revert s. induction ns as [|n ns IH]; intros s; simpl.
  - rewrite elem_of_nil. tauto.
  - rewrite IH, elem_of_jsset_delete, not_elem_of_cons. tauto.
Qed.

Lemma elem_of_collect (uri : string) (fs : list Filter) (s : list nat)
    (x : nat) :
  x ∈ fold_left
        (fun acc f =>
           fold_left (fun acc n => jsset_add n acc) (getMatchedLines uri f) acc)
        fs s
  <-> (exists f, f ∈ fs /\ x ∈ getMatchedLines uri f) \/ x ∈ s.
Proof.
  revert s. induction fs as [|f fs IH]; intros s; simpl.
  - split; [by right|]. intros [(f & Hf & _)|H]; [|done].
    by apply elem_of_nil in Hf.
  - rewrite IH, elem_of_add_all. split.
    + intros [(g & Hg & Hx)|[Hx|Hx]].
      * left. exists g. split; [by right|done].
      * left. exists f. split; [by left|done].
      * by right.
    + intros [(g & Hg & Hx)|Hx]; [|by right; right].
      apply elem_of_cons in Hg as [->|Hg]; [by right; left|].
      left. by exists g.
Qed.

Lemma elem_of_subtract (uri : string) (fs : list Filter) (s : list nat)
    (x : nat) :
  x ∈ fold_left
        (fun acc f =>
           fold_left (fun acc n => jsset_delete n acc)
             (getMatchedLines uri f) acc)
        fs s
  <-> x ∈ s /\ forall f, f ∈ fs -> x ∉ getMatchedLines uri f.
Proof.
  revert s. induction fs as [|f fs IH]; intros s; simpl.
  - split; [|tauto]. intros H. split; [done|]. intros f Hf.
    by apply elem_of_nil in Hf.
  - rewrite IH, elem_of_delete_all. split.
    + intros [[Hs Hf] Hfs]. split; [done|].
      intros g Hg. apply elem_of_cons in Hg as [->|Hg]; [done|by apply Hfs].
    + intros [Hs H]. split; [split; [done|]|].
      * apply H. by left.
      * intros g Hg. apply H. by right.
Qed.

Lemma FocusAction_eqb_eq (a b : FocusAction) :
  FocusAction_eqb a b = true <-> a = b.
Proof. destruct a, b; simpl; split; congruence. Qed.

Lemma elem_of_active (filters : list Filter) (a : FocusAction) (f : Filter) :
  a <> NONE ->
  f ∈ List.filter (fun f => FocusAction_eqb (focusAction f) a)
        (sort_by_priority
           (List.filter
              (fun f => negb (FocusAction_eqb (focusAction f) NONE)) filters))
  <-> f ∈ filters /\ focusAction f = a.
Proof.
  intros Ha. rewrite elem_of_bfilter, sort_by_priority_perm, elem_of_bfilter.
  rewrite FocusAction_eqb_eq, negb_true_iff. split.
  - tauto.
  - intros [Hf Hfa]. split; [split; [done|]|done].
    rewrite Hfa. by destruct a.
Qed.

Lemma elem_of_resultLines (project : option (list Filter)) (uri : string)
    (document : TextDocument) (n : nat) :
  let filters := default [] project in
  n ∈ resultLines project uri document <->
    ((forall f, f ∈ filters -> focusAction f <> INCLUDED) /\ n < lineCount document
     \/ exists f, f ∈ filters /\ focusAction f = INCLUDED
                  /\ n ∈ getMatchedLines uri f)
    /\ forall f, f ∈ filters -> focusAction f = EXCLUDED ->
                 n ∉ getMatchedLines uri f.
Proof.
  intros filters.
  assert (Hin : forall a, a <> NONE -> forall f,
             f ∈ (match a with
                  | INCLUDED => (getActiveFiltersSorted project).1
                  | _ => (getActiveFiltersSorted project).2
                  end)
             <-> f ∈ filters /\ focusAction f = a).
  { intros a Ha f. subst filters. destruct project as [fs|]; simpl.
    - destruct a; [apply elem_of_active; done..|done].
    - destruct a; rewrite elem_of_nil; tauto. }
  unfold resultLines.
  destruct (getActiveFiltersSorted project) as [incl excl] eqn:E.
  assert (Hincl := Hin INCLUDED ltac:(done)).
  assert (Hexcl := Hin EXCLUDED ltac:(done)).
  simpl in Hincl, Hexcl. clear Hin.
  rewrite elem_of_subtract.
  assert (Hex : (forall f, f ∈ excl -> n ∉ getMatchedLines uri f)
                <-> (forall f, f ∈ filters -> focusAction f = EXCLUDED ->
                               n ∉ getMatchedLines uri f)).
  { split; intros H f.
    - intros Hf Ha. apply H, Hexcl. done.
    - intros Hf. apply Hexcl in Hf as [Hf Ha]. by apply H. }
  rewrite Hex. apply and_iff_compat_r.
  destruct incl as [|f0 incl'].
  - rewrite elem_of_add_all, elem_of_seq, elem_of_nil. split.
    + intros [[_ Hn]|[]]. left. split; [|simpl in Hn; lia].
      intros f Hf Ha. specialize (proj2 (Hincl f) (conj Hf Ha)).
      apply elem_of_nil.
    + intros [[_ Hn]|(f & Hf & Ha & _)]; [left; simpl; lia|].
      specialize (proj2 (Hincl f) (conj Hf Ha)). intros []%elem_of_nil.
  - rewrite elem_of_collect, elem_of_nil. split.
    + intros [(f & Hf & Hx)|[]]. right. exists f.
      apply Hincl in Hf as [Hf Ha]. done.
    + intros [[Hno _]|(f & Hf & Ha & Hx)].
      * exfalso. destruct (proj1 (Hincl f0) ltac:(by left)) as [Hf Ha].
        by apply (Hno f0).
      * left. exists f. split; [|done]. apply Hincl. done.
Qed.

(** A line number is rendered exactly when it is a line of the document
    and passes the inclusive and the exclusive filters. *)
Lemma elem_of_renderedLines (project : option (list Filter)) (uri : string)
    (document : TextDocument) (n : nat) :
  let filters := default [] project in
  n ∈ renderedLines project uri document <->
    n < lineCount document
    /\ ((forall f, f ∈ filters -> focusAction f <> INCLUDED)
        \/ exists f, f ∈ filters /\ focusAction f = INCLUDED
                     /\ n ∈ getMatchedLines uri f)
    /\ forall f, f ∈ filters -> focusAction f = EXCLUDED ->
                 n ∉ getMatchedLines uri f.
Proof.
  intros filters. unfold renderedLines, getVisibleLines.
  rewrite elem_of_bfilter, merge_sort_Permutation, Nat.ltb_lt.
  pose proof (elem_of_resultLines project uri document n) as H.
  simpl in H. fold filters in H. rewrite H. clear H. split.
  - intros [[[[Hno _]|Hex] Hexcl] Hn]; (split; [done|split; [|done]]).
    + by left.
    + by right.
  - intros (Hn & [Hno|Hex] & Hexcl); (split; [split; [|done]|done]).
    + by left.
    + by right.
Qed.

(** C3.  For every project, every cached results and every document, a
    line of the document is rendered in the focus view exactly when no
    filter is INCLUDED or the cached lines of some INCLUDED filter
    contain it, and the cached lines of no EXCLUDED filter contain it;
    the subtraction is made in both cases, so a line that an EXCLUDED
    filter lists is never rendered. *)
Theorem focus_view_inclusion (project : option (list Filter)) (uri : string)
    (document : TextDocument) (n : nat) :
  n < lineCount document ->
  let filters := default [] project in
  (n ∈ renderedLines project uri document <->
     ((forall f, f ∈ filters -> focusAction f <> INCLUDED)
      \/ exists f, f ∈ filters /\ focusAction f = INCLUDED
                   /\ n ∈ getMatchedLines uri f)
     /\ forall f, f ∈ filters -> focusAction f = EXCLUDED ->
                  n ∉ getMatchedLines uri f)
  /\ ((exists f, f ∈ filters /\ focusAction f = EXCLUDED
                 /\ n ∈ getMatchedLines uri f) ->
      n ∉ renderedLines project uri document).
Proof.
  intros Hn filters.
  pose proof (elem_of_renderedLines project uri document n) as H.
  cbv zeta in H. fold filters in H. split.
  - rewrite H. split.
    + by intros (_ & Hincl & Hexcl).
    + by intros [Hincl Hexcl].
  - intros (f & Hf & Ha & Hin) Hr. apply H in Hr as (_ & _ & Hexcl).
    by apply (Hexcl f).
Qed.

Lemma focus_view_inclusion_witness :
  1 < lineCount five_lines
  /\ (let filters := [error_filter; debug_filter [3]] in
      (1 ∈ renderedLines (Some [error_filter; debug_filter [3]])
             "file:///a.log" five_lines <->
         ((forall f, f ∈ filters -> focusAction f <> INCLUDED)
          \/ exists f, f ∈ filters /\ focusAction f = INCLUDED
                       /\ 1 ∈ getMatchedLines "file:///a.log" f)
         /\ forall f, f ∈ filters -> focusAction f = EXCLUDED ->
                      1 ∉ getMatchedLines "file:///a.log" f)
      /\ ((exists f, f ∈ filters /\ focusAction f = EXCLUDED
                     /\ 1 ∈ getMatchedLines "file:///a.log" f) ->
          1 ∉ renderedLines (Some [error_filter; debug_filter [3]])
                "file:///a.log" five_lines)).
Proof.
  assert (Hn : 1 < lineCount five_lines) by (unfold lineCount; simpl; lia).
  split; [exact Hn|].
  exact (focus_view_inclusion (Some [error_filter; debug_filter [3]])
           "file:///a.log" five_lines 1 Hn).
Defined.

(** An included filter with cached lines 1 and 3, an excluded filter
    with cached line 3, five lines: the view shows line 1 only. *)
Example scenario_include_and_exclude :
  getVisibleLines (Some [error_filter; debug_filter [3]]) "file:///a.log"
    five_lines = [1]
  /\ generateFilteredContent (Some [error_filter; debug_filter [3]])
       "file:///a.log" five_lines = js "line 1".
Proof. split; vm_compute; reflexivity. Qed.

(** No included filter, an excluded filter with cached line 4: every
    other line of the document is shown. *)
Example scenario_exclude_only :
  getVisibleLines (Some [debug_filter [4]]) "file:///a.log" five_lines
  = [0; 1; 2; 3].
Proof. vm_compute. reflexivity. Qed.

(** The visible lines come out in ascending order. *)
Lemma getVisibleLines_sorted (project : option (list Filter)) (uri : string)
    (document : TextDocument) :
  Sorted Nat.le (getVisibleLines project uri document).
Proof. apply (Sorted_merge_sort Nat.le). Qed.

(** A cached line number that is not a line of the document any more is
    kept out of the view by the guard [lineNum < document.lineCount]. *)
Lemma stale_line_is_not_rendered (project : option (list Filter))
    (uri : string) (document : TextDocument) (n : nat) :
  lineCount document <= n -> n ∉ renderedLines project uri document.
Proof.
  intros Hn Hin. apply elem_of_renderedLines in Hin as [Hlt _]. lia.
Qed.

Example scenario_stale_cache :
  getVisibleLines (Some [stale_filter]) "file:///a.log" five_lines = [7]
  /\ renderedLines (Some [stale_filter]) "file:///a.log" five_lines = [].
Proof. split; vm_compute; reflexivity. Qed.

(* ===================================================================== *)
(** * Properties of the insertion-ordered maps                           *)
(* ===================================================================== *)

Section JsMapFacts.
Context {K V : Type} `{EqDecision K}.

Lemma jsmap_get_set (k k' : K) (v : V) (m : list (K * V)) :
  jsmap_get k (jsmap_set k' v m)
  = if decide (k = k') then Some v else jsmap_get k m.
Proof.
  induction m as [|[k0 v0] m IH]; simpl.
  - destruct (decide (k = k')); done.
  - destruct (decide (k' = k0)) as [->|Hne]; simpl.
    + destruct (decide (k = k0)); done.
    + destruct (decide (k = k0)) as [->|Hne'].
      * rewrite decide_False by done. done.
      * exact IH.
Qed.

Lemma jsmap_get_elem_of (k : K) (v : V) (m : list (K * V)) :
  jsmap_get k m = Some v -> (k, v) ∈ m.
Proof.
  induction m as [|[k0 v0] m IH]; simpl; [done|].
  destruct (decide (k = k0)) as [->|Hne].
  - intros [= ->]. by left.
  - intros H. right. by apply IH.
Qed.
End JsMapFacts.

(* ===================================================================== *)
(** * Properties of the combiner                                         *)
(* ===================================================================== *)

Lemma insert_by_priority_sorted (f : Filter) (l : list Filter) :
  StronglySorted by_priority l ->
  StronglySorted by_priority (insert_by_priority f l).
Proof.
  induction l as [|g l IH]; intros Hl; simpl.
  - by repeat constructor.
  - apply StronglySorted_inv in Hl as [Hl Hg].
    destruct (Z.ltb_spec (priority g) (priority f)) as [Hlt|Hge].
    + constructor; [by constructor|]. constructor; [unfold by_priority; lia|].
      eapply Forall_impl; [exact Hg|]. unfold by_priority. intros h Hh. lia.
    + constructor; [by apply IH|].
      rewrite insert_by_priority_perm. by constructor.
Qed.

(** The alternatives are in descending order of priority. *)
Lemma sort_by_priority_sorted (l : list Filter) :
  StronglySorted by_priority (sort_by_priority l).
Proof.
  unfold sort_by_priority.
  assert (H : forall acc, StronglySorted by_priority acc ->
                          StronglySorted by_priority
                            (fold_left (fun acc f => insert_by_priority f acc) l acc)).
  { induction l as [|f l IH]; intros acc Hacc; simpl; [done|].
    by apply IH, insert_by_priority_sorted. }
  apply H. constructor.
Qed.



Lemma index_filters_lookup (sorted : list Filter) :
  forall index filterMap k,
    jsmap_get k (index_filters index sorted filterMap)
    = if decide (index < k <= index + length sorted)
      then info_of <$> sorted !! (k - index - 1)
      else jsmap_get k filterMap.
Proof.
  induction sorted as [|f sorted IH]; intros index filterMap k; simpl.
  - case_decide; [lia|done].
  - rewrite IH, jsmap_get_set. fold (info_of f).
    destruct (decide (k = index + 1)) as [->|Hne].
    + rewrite decide_False by lia. rewrite decide_True by lia.
      replace (index + 1 - index - 1) with 0 by lia. done.
    + destruct (decide (S index < k <= S index + length sorted)) as [Hk|Hk].
      * rewrite decide_True by lia.
        replace (k - index - 1) with (S (k - S index - 1)) by lia. done.
      * rewrite decide_False by lia. done.
Qed.

(** The index map sends alternative [i + 1] to the filter at position [i]
    of the sorted list. *)
Lemma filterMap_lookup (sorted : list Filter) (i : nat) :
  jsmap_get (S i) (index_filters 0 sorted []) = info_of <$> sorted !! i.
Proof.
  rewrite index_filters_lookup. simpl. rewrite Nat.sub_0_r.
  case_decide as Hi; [done|].
  rewrite lookup_ge_None_2 by lia. done.
Qed.

(* ===================================================================== *)
(** * Properties of the line classifier                                  *)
(* ===================================================================== *)

Lemma search_none (m : nat -> option (nat * caps)) (tries i : nat) :
  (forall j, m j = None) -> search m tries i = None.
Proof.
  intros Hm. revert i. induction tries as [|t IH]; intros i; simpl; [done|].
  rewrite Hm. apply IH.
Qed.

Lemma search_some (m : nat -> option (nat * caps)) (tries i : nat)
    (r : MatchResult) :
  search m tries i = Some r ->
  i <= m_index r < i + tries /\ m (m_index r) = Some (m_end r, m_groups r).
Proof.
  revert i. induction tries as [|t IH]; intros i; simpl; [done|].
  destruct (m i) as [[e c]|] eqn:E.
  - intros [= <-]. simpl. split; [lia|done].
  - intros H. apply IH in H as [H1 H2]. split; [lia|done].
Qed.

(** With the [g] flag, a successful [exec] leaves [lastIndex] at the end
    of a match that starts at or after the old [lastIndex], inside the
    input. *)
Lemma exec_global_some (rx : RegExp) (s : list ascii) (lastIndex : nat)
    (m : MatchResult) (lastIndex1 : nat) :
  global rx = true -> matcher_forward rx ->
  exec rx s lastIndex = (Some m, lastIndex1) ->
  lastIndex <= m_index m <= length s /\ m_index m <= lastIndex1.
Proof.
  intros Hg Hfw. unfold exec. rewrite Hg.
  destruct (Nat.ltb_spec (length s) lastIndex) as [Hlt|Hle]; [done|].
  destruct (search _ _ _) as [r|] eqn:E; [|done].
  intros [= -> <-]. apply search_some in E as [H1 H2].
  apply Hfw in H2. lia.
Qed.

Lemma grows_refl results : grows results results.
Proof. split; auto. Qed.

Lemma grows_trans r1 r2 r3 : grows r1 r2 -> grows r2 r3 -> grows r1 r3.
Proof. intros [A1 A2] [B1 B2]. split; auto. Qed.

Lemma grows_add_line (results : list (string * FilterResult)) (ident : string)
    (r : FilterResult) (n : nat) :
  jsmap_get ident results = Some r ->
  let results' :=
    jsmap_set ident {| lines := jsset_add n (lines r);
                       resultIsExclude := resultIsExclude r |} results in
  grows results results' /\ has_line results' ident n.
Proof.
  intros Hr results'. subst results'. split; [split|].
  - intros k x (r0 & Hk & Hx). unfold has_line. rewrite jsmap_get_set.
    destruct (decide (k = ident)) as [->|Hne]; [|by exists r0].
    eexists. split; [done|]. simpl. apply elem_of_jsset_add. right.
    congruence.
  - intros k Hk. rewrite jsmap_get_set. destruct (decide (k = ident)); eauto.
  - unfold has_line. rewrite jsmap_get_set, decide_True by done.
    eexists. split; [done|]. simpl. apply elem_of_jsset_add. by left.
Qed.

Lemma covers_grows filterMap results results' :
  covers filterMap results -> grows results results' ->
  covers filterMap results'.
Proof. intros Hc [_ Hg] i info Hi. apply Hg, (Hc i info Hi). Qed.

Lemma best_ok_grows filterMap results results' lineIndex best :
  best_ok filterMap results lineIndex best -> grows results results' ->
  best_ok filterMap results' lineIndex best.
Proof.
  intros Hb [Hg _] b Hbest. destruct (Hb b Hbest) as (info & Hi & Hl).
  exists info. split; [done|]. by apply Hg.
Qed.

(** The inner [for] loop cannot fail when the result map covers the index
    map. *)
Lemma scan_groups_ok filterMap lineIndex groups :
  forall i results best,
    covers filterMap results ->
    exists results' best',
      scan_groups filterMap lineIndex i groups results best
      = Ok (results', best')
      /\ grows results results'.
Proof.
  induction groups as [|g groups IH]; intros i results best Hc; simpl.
  - exists results, best. split; [done|apply grows_refl].
  - destruct g as [range|]; [|apply IH, Hc].
    destruct (jsmap_get i filterMap) as [info|] eqn:Ei; [|apply IH, Hc].
    destruct (Hc i info Ei) as [r Hr]. rewrite Hr.
    destruct (grows_add_line results (filterId info) r lineIndex Hr)
      as [Hg _].
    edestruct IH as (results' & best' & E & Hg').
    { eapply covers_grows; [exact Hc|exact Hg]. }
    exists results', best'. split; [exact E|].
    eapply grows_trans; [exact Hg|exact Hg'].
Qed.

(** Whatever the maps are, a successful inner loop keeps the facts about
    [bestFilterIndex]. *)
Lemma scan_groups_best filterMap lineIndex groups :
  forall i results best results' best',
    scan_groups filterMap lineIndex i groups results best = Ok (results', best') ->
    best_ok filterMap results lineIndex best ->
    grows results results' /\ best_ok filterMap results' lineIndex best'.
Proof.
  induction groups as [|g groups IH]; intros i results best results' best';
    simpl.
  - intros [= <- <-] Hb. split; [apply grows_refl|exact Hb].
  - destruct g as [range|]; [|apply IH].
    destruct (jsmap_get i filterMap) as [info|] eqn:Ei; [|apply IH].
    destruct (jsmap_get (filterId info) results) as [r|] eqn:Er; [|done].
    intros E Hb.
    destruct (grows_add_line results (filterId info) r lineIndex Er)
      as [Hg Hl].
    apply IH in E.
    + destruct E as [Hg' Hb']. split; [|exact Hb'].
      eapply grows_trans; [exact Hg|exact Hg'].
    + intros b Hbest.
      assert (Hcase : b = i \/ best = Some b).
      { destruct best as [b0|]; [|left; congruence].
        destruct (i <? b0); [left|right]; congruence. }
      destruct Hcase as [->|Hold].
      * exists info. done.
      * eapply best_ok_grows; [exact Hb|exact Hg|exact Hold].
Qed.

Lemma exec_no_match (rx : RegExp) (s : list ascii) (lastIndex : nat) :
  (forall i, matcher rx s i = None) -> (exec rx s lastIndex).1 = None.
Proof.
  intros Hnone. unfold exec. rewrite (search_none (matcher rx s)) by done.
  by destruct (length s <? _).
Qed.

(** The [while] loop ends: with the [g] flag every iteration leaves
    [lastIndex] strictly larger, a match of length zero through the
    increment, and [exec] returns [null] once [lastIndex] is past the end
    of the line. *)
Lemma exec_loop_terminates (rx : RegExp) filterMap (line : list ascii)
    (lineIndex : nat) :
  is_combined_matcher rx ->
  forall fuel lastIndex results best,
    covers filterMap results ->
    S (length line) - lastIndex < fuel ->
    exists results' best',
      exec_loop fuel rx filterMap line lineIndex lastIndex results best
      = Ok (results', best')
      /\ grows results results'.
Proof.
  intros [Hfw Hcase]. induction fuel as [|fuel IH];
    intros lastIndex results best Hc Hfuel; [lia|]. simpl.
  destruct (exec rx line lastIndex) as [[m|] lastIndex1] eqn:E.
  - destruct Hcase as [Hg|Hnone].
    + destruct (exec_global_some rx line lastIndex m lastIndex1 Hg Hfw E)
        as [[H1 H2] H3].
      destruct (scan_groups_ok filterMap lineIndex (m_groups m) 1 results best Hc)
        as (results1 & best1 & E1 & Hg1).
      rewrite E1.
      edestruct (IH (if m_index m =? lastIndex1 then S lastIndex1 else lastIndex1)
                   results1 best1) as (results' & best' & E2 & Hg2).
      { eapply covers_grows; [exact Hc|exact Hg1]. }
      { destruct (Nat.eqb_spec (m_index m) lastIndex1); lia. }
      exists results', best'. split; [exact E2|].
      eapply grows_trans; [exact Hg1|exact Hg2].
    + pose proof (exec_no_match rx line lastIndex (Hnone line)) as Hno.
      rewrite E in Hno. discriminate Hno.
  - exists results, best. split; [done|apply grows_refl].
Qed.

Lemma search_complete (m : nat -> option (nat * caps)) (tries i j : nat) :
  i <= j < i + tries -> is_Some (m j) -> is_Some (search m tries i).
Proof.
  revert i. induction tries as [|t IH]; intros i Hj Hm; [lia|]. simpl.
  destruct (m i) as [[e c]|] eqn:E; [eauto|].
  apply IH; [|done]. destruct (decide (i = j)) as [->|Hne]; [|lia].
  rewrite E in Hm. by destruct Hm.
Qed.

(** The loop relies on the [g] flag: without it [exec] starts from 0
    again whatever [lastIndex] is, and a line with a match keeps the loop
    going for as long as it is allowed to. *)
Remark exec_loop_needs_global_flag (rx : RegExp) filterMap (line : list ascii)
    (lineIndex j : nat) :
  global rx = false -> j <= length line -> is_Some (matcher rx line j) ->
  forall fuel lastIndex results best,
    covers filterMap results ->
    exec_loop fuel rx filterMap line lineIndex lastIndex results best
    = OutOfFuel.
Proof.
  intros Hg Hj Hm. induction fuel as [|fuel IH];
    intros lastIndex results best Hc; [done|]. simpl.
  unfold exec. rewrite Hg. change (length line <? 0) with false. cbv iota.
  destruct (search_complete (matcher rx line) (S (length line - 0)) 0 j)
    as [m Hs]; [lia|done|].
  rewrite Hs.
  destruct (scan_groups_ok filterMap lineIndex (m_groups m) 1 results best Hc)
    as (results1 & best1 & E1 & Hg1).
  rewrite E1. apply IH. eapply covers_grows; [exact Hc|exact Hg1].
Qed.

Lemma exec_loop_best (rx : RegExp) filterMap (line : list ascii)
    (lineIndex : nat) :
  forall fuel lastIndex results best results' best',
    exec_loop fuel rx filterMap line lineIndex lastIndex results best
    = Ok (results', best') ->
    best_ok filterMap results lineIndex best ->
    grows results results' /\ best_ok filterMap results' lineIndex best'.
Proof.
  induction fuel as [|fuel IH];
    intros lastIndex results best results' best'; simpl; [done|].
  destruct (exec rx line lastIndex) as [[m|] lastIndex1].
  - destruct (scan_groups filterMap lineIndex 1 (m_groups m) results best)
      as [[results1 best1]| |] eqn:E1; [|done..].
    intros E2 Hb.
    destruct (scan_groups_best _ _ _ _ _ _ _ _ E1 Hb) as [Hg1 Hb1].
    destruct (IH _ _ _ _ _ E2 Hb1) as [Hg2 Hb2].
    split; [|exact Hb2]. eapply grows_trans; [exact Hg1|exact Hg2].
  - intros [= <- <-] Hb. split; [apply grows_refl|exact Hb].
Qed.

Lemma covers_init_results (filterMap : list (nat * FilterInfo)) :
  covers filterMap (init_results filterMap).
Proof.
  unfold init_results.
  assert (H : forall acc,
             let res :=
               fold_left
                 (fun acc e =>
                    jsmap_set (filterId e.2)
                      {| lines := []; resultIsExclude := isExclude e.2 |} acc)
                 filterMap acc in
             (forall ident, is_Some (jsmap_get ident acc) ->
                            is_Some (jsmap_get ident res))
             /\ forall e, e ∈ filterMap ->
                          is_Some (jsmap_get (filterId e.2) res)).
  { induction filterMap as [|e0 fm IH]; intros acc; simpl.
    - split; [auto|]. intros e He. by apply elem_of_nil in He.
    - destruct (IH (jsmap_set (filterId e0.2)
                      {| lines := []; resultIsExclude := isExclude e0.2 |} acc))
        as [IH1 IH2].
      assert (Hset : forall ident v, is_Some (jsmap_get ident acc) \/ ident = filterId e0.2 ->
                 is_Some (jsmap_get ident (jsmap_set (filterId e0.2) v acc))).
      { intros ident v Hi. rewrite jsmap_get_set.
        destruct (decide (ident = filterId e0.2)); [eauto|].
        destruct Hi; done. }
      split.
      + intros ident Hi. apply IH1, Hset. by left.
      + intros e He. apply elem_of_cons in He as [->|He]; [|by apply IH2].
        apply IH1, Hset. by right. }
  intros i info Hi. apply jsmap_get_elem_of in Hi.
  destruct (H []) as [_ H2]. apply (H2 (i, info) Hi).
Qed.

Lemma split_lines_length (text line : list ascii) :
  line ∈ split_lines text -> length line <= length text.
Proof.
  revert line. induction text as [|c text IH]; intros line; simpl.
  - intros Hl. apply list_elem_of_singleton in Hl. subst line. done.
  - destruct (Ascii.eqb c "010").
    + intros Hl. apply elem_of_cons in Hl as [->|Hl]; [simpl; lia|].
      apply IH in Hl. lia.
    + destruct (split_lines text) as [|l ls] eqn:E.
      * intros Hl. apply list_elem_of_singleton in Hl. subst line.
        simpl. lia.
      * intros Hl. apply elem_of_cons in Hl as [->|Hl].
        -- simpl. specialize (IH l ltac:(by left)). lia.
        -- specialize (IH line ltac:(by right)). lia.
Qed.

Lemma analyse_lines_terminate (rx : RegExp) filterMap (fuel : nat) :
  is_combined_matcher rx ->
  forall ls lineIndex a,
    (forall line, line ∈ ls -> length line + 2 <= fuel) ->
    covers filterMap (filterResults a) ->
    exists a', analyse_lines fuel rx filterMap lineIndex ls a = Ok a'.
Proof.
  intros Hcm. induction ls as [|line ls IH]; intros lineIndex a Hls Hc;
    simpl; [by exists a|].
  unfold analyse_line.
  edestruct (exec_loop_terminates rx filterMap line lineIndex Hcm fuel 0
               (filterResults a) None Hc) as (results' & best' & E & Hgr).
  { specialize (Hls line ltac:(by left)). lia. }
  rewrite E. apply IH.
  - intros l Hl. apply Hls. by right.
  - simpl. eapply covers_grows; [exact Hc|exact Hgr].
Qed.

(** C4. For every text, every index map and every combined matcher,
    those that match the empty string at every index included, the
    classifier returns: no line needs more iterations of its loop than it
    has characters plus two, because each iteration advances [lastIndex],
    a match of length zero by the forced increment. *)
Theorem performCombinedAnalysis_terminates (text : list ascii) (rx : RegExp)
    (filterMap : list (nat * FilterInfo)) (fuel : nat) :
  is_combined_matcher rx ->
  length text + 2 <= fuel ->
  exists a, performCombinedAnalysis fuel text rx filterMap = Ok a.
Proof.
  intros Hcm Hfuel. unfold performCombinedAnalysis.
  apply analyse_lines_terminate.
  - exact Hcm.
  - intros line Hl. apply split_lines_length in Hl. lia.
  - apply covers_init_results.
Qed.

(** Without the increment the loop would not end: a global matcher that
    matches the empty string at index 0 is found there again and again. *)
Lemma exec_stuck_without_increment (rx : RegExp) (s : list ascii) (c : caps) :
  global rx = true -> matcher rx s 0 = Some (0, c) ->
  exec rx s 0 = (Some {| m_index := 0; m_end := 0; m_groups := c |}, 0).
Proof.
  intros Hg Hm. unfold exec. rewrite Hg. simpl. rewrite Hm. done.
Qed.

(** ** The empty filter set *)

Lemma never_regex_matcher (s : list ascii) (i : nat) :
  matcher never_regex s i = None.
Proof. reflexivity. Qed.

Lemma never_regex_literal : RegExp_new (js "(?!)") false false = Some never_regex.
Proof. reflexivity. Qed.

Lemma exec_never_regex (s : list ascii) (lastIndex : nat) :
  exec never_regex s lastIndex = (None, lastIndex).
Proof.
  unfold exec.
  rewrite (search_none (matcher never_regex s))
    by (intros j; apply never_regex_matcher).
  change (global never_regex) with false. cbv iota.
  by destruct (length s <? 0).
Qed.

Lemma analysis_never_regex (fuel : nat) (text : list ascii)
    (filterMap : list (nat * FilterInfo)) :
  performCombinedAnalysis (S fuel) text never_regex filterMap
  = Ok {| filterResults := init_results filterMap;
          linePriorityWinners := [] |}.
Proof.
  unfold performCombinedAnalysis.
  generalize (init_results filterMap) as results. generalize 0 as lineIndex.
  induction (split_lines text) as [|line ls IH]; intros lineIndex results;
    simpl; [done|].
  unfold analyse_line. simpl. rewrite exec_never_regex. simpl. apply IH.
Qed.

(** C7. For the empty filter list the combiner returns the matcher of
    [/(?!)/], which matches at no index of no string, and an empty index
    map; with them the classifier returns, for every text, an empty
    result map and an empty winner map. *)
Theorem empty_filter_set_uniform :
  buildCombinedRegex [] = Some (never_regex, [])
  /\ (forall s i, matcher never_regex s i = None)
  /\ (forall s, RegExp_test never_regex s = false)
  /\ forall fuel text,
       performCombinedAnalysis (S fuel) text never_regex []
       = Ok {| filterResults := []; linePriorityWinners := [] |}.
Proof.
  split; [done|]. split; [exact never_regex_matcher|]. split.
  - intros s. unfold RegExp_test. by rewrite exec_never_regex.
  - intros fuel text. apply analysis_never_regex.
Qed.

(** ** Winners and result sets *)

Lemma analyse_line_winners (rx : RegExp) filterMap (fuel lineIndex : nat)
    (line : list ascii) (a a' : Analysis) :
  analyse_line fuel rx filterMap lineIndex line a = Ok a' ->
  winners_ok a -> winners_ok a'.
Proof.
  unfold analyse_line.
  destruct (exec_loop _ _ _ _ _ _ _ _) as [[results best]| |] eqn:E; [|done..].
  intros [= <-] Hw.
  destruct (exec_loop_best _ _ _ _ _ _ _ _ _ _ E) as [Hg Hb].
  { intros b Hbest. discriminate Hbest. }
  assert (Hold : forall l w, jsmap_get l (linePriorityWinners a) = Some w ->
                             has_line results w l).
  { intros l w Hl. apply Hg, Hw, Hl. }
  intros l w. simpl.
  destruct best as [b|]; [|apply Hold].
  destruct (Hb b eq_refl) as (info & Hi & Hl). rewrite Hi.
  rewrite jsmap_get_set. destruct (decide (l = lineIndex)) as [->|Hne].
  - intros [= <-]. exact Hl.
  - apply Hold.
Qed.

Lemma analyse_lines_winners (rx : RegExp) filterMap (fuel : nat) :
  forall ls lineIndex a a',
    analyse_lines fuel rx filterMap lineIndex ls a = Ok a' ->
    winners_ok a -> winners_ok a'.
Proof.
  induction ls as [|line ls IH]; intros lineIndex a a'; simpl.
  - intros [= <-]. done.
  - destruct (analyse_line fuel rx filterMap lineIndex line a) as [a1| |] eqn:E;
      [|done..].
    intros E' Hw. eapply IH; [exact E'|].
    eapply analyse_line_winners; [exact E|exact Hw].
Qed.

(** C9. Whenever the classifier returns and its winner map names a
    filter for a line, the result map has an entry for that filter and
    the line is in its set of lines. *)
Theorem winner_is_member (fuel : nat) (text : list ascii) (rx : RegExp)
    (filterMap : list (nat * FilterInfo)) (a : Analysis) (lineIndex : nat)
    (w : string) :
  performCombinedAnalysis fuel text rx filterMap = Ok a ->
  jsmap_get lineIndex (linePriorityWinners a) = Some w ->
  exists r, jsmap_get w (filterResults a) = Some r /\ lineIndex ∈ lines r.
Proof.
  intros Hrun Hw.
  apply (analyse_lines_winners _ _ _ _ _ _ _ Hrun); [|exact Hw].
  intros l w' Hl. discriminate Hl.
Qed.

(* ===================================================================== *)
(** * Properties of the matcher                                          *)
(* ===================================================================== *)

Lemma repeat_loop_forward (step : nat -> caps -> cont -> mresult) :
  (forall i c k x, step i c k = Some x ->
                   exists j c', i <= j /\ k j c' = Some x) ->
  forall fuel i c k x,
    repeat_loop step fuel i c k = Some x ->
    exists j c', i <= j /\ k j c' = Some x.
Proof.
  intros Hstep. induction fuel as [|fuel IH]; intros i c k x; simpl.
  - intros H. by exists i, c.
  - destruct (step i c _) as [y|] eqn:E.
    + intros [= ->]. apply Hstep in E as (j & c' & Hj & E).
      destruct (j =? i); [done|].
      apply IH in E as (j' & c'' & Hj' & E). exists j', c''. split; [lia|done].
    + intros H. by exists i, c.
Qed.

(** The matcher only moves forward: whatever it hands to its
    continuation ends at or after the index it started from. *)
Lemma rmatch_forward (m : bool) (s : list ascii) (r : pattern) :
  forall i c k x,
    rmatch m s r i c k = Some x ->
    exists j c', i <= j /\ k j c' = Some x.
Proof.
  induction r as [|a| | | |a IHa b IHb|a IHa b IHb|r IH|r IH|r IH|n r IH|neg r IH];
    intros i c k x; cbn [rmatch].
  - intros H. by exists i, c.
  - destruct (s !! i) as [b|]; [|done]. destruct (Ascii.eqb a b); [|done].
    intros H. exists (S i), c. split; [lia|done].
  - destruct (s !! i) as [b|]; [|done].
    destruct (is_line_terminator b); [done|].
    intros H. exists (S i), c. split; [lia|done].
  - destruct (at_bol m s i); [|done]. intros H. by exists i, c.
  - destruct (at_eol m s i); [|done]. intros H. by exists i, c.
  - intros H. apply IHa in H as (j & c' & Hj & H).
    apply IHb in H as (j' & c'' & Hj' & H). exists j', c''. split; [lia|done].
  - destruct (rmatch m s a i c k) as [y|] eqn:E.
    + intros [= ->]. by apply IHa in E.
    + apply IHb.
  - apply repeat_loop_forward. intros i0 c0 k0 x0. apply IH.
  - intros H. apply IH in H as (j & c' & Hj & H).
    apply repeat_loop_forward in H as (j' & c'' & Hj' & H).
    + exists j', c''. split; [lia|done].
    + intros i0 c0 k0 x0. apply IH.
  - destruct (rmatch m s r i _ _) as [y|] eqn:E.
    + intros [= ->]. apply IH in E as (j & c' & Hj & E).
      destruct (j =? i); [done|]. by exists j, c'.
    + intros H. by exists i, c.
  - intros H. apply IH in H as (j & c' & Hj & H). eauto.
  - destruct (rmatch m s r i c _) as [[e c']|]; destruct neg; try done.
    + intros H. by exists i, c'.
    + intros H. by exists i, c.
Qed.

Lemma compile_forward (src : list ascii) (g m : bool) (r : pattern) (n : nat) :
  matcher_forward
    {| source := src; global := g; multiline := m; matcher := compile m r n |}.
Proof.
  intros s i e c. simpl. unfold compile. intros H.
  apply rmatch_forward in H as (j & c' & Hj & [= <- _]). exact Hj.
Qed.

Lemma RegExp_new_forward (p : list ascii) (g m : bool) (rx : RegExp) :
  RegExp_new p g m = Some rx -> matcher_forward rx.
Proof.
  unfold RegExp_new. destruct (parse p) as [[r n]|]; [|done].
  intros [= <-]. apply compile_forward.
Qed.

(** Every expression the combiner returns is a combined matcher. *)
Lemma buildCombinedRegex_matcher (filters : list Filter) (rx : RegExp)
    (filterMap : list (nat * FilterInfo)) :
  buildCombinedRegex filters = Some (rx, filterMap) ->
  is_combined_matcher rx.
Proof.
  unfold buildCombinedRegex. destruct filters as [|f fs].
  - intros [= <- <-]. split; [apply compile_forward|].
    right. exact never_regex_matcher.
  - destruct (RegExp_new _ true true) as [rx'|] eqn:E; [|done].
    intros [= <- <-]. split; [by eapply RegExp_new_forward|]. left.
    unfold RegExp_new in E. destruct (parse _) as [[r n]|]; [|done].
    by injection E as <-.
Qed.

(** The classifier returns on every matcher the combiner builds, with
    whatever index map it is run. *)
Corollary combined_analysis_terminates (filters : list Filter) (rx : RegExp)
    (filterMap0 filterMap : list (nat * FilterInfo)) (text : list ascii)
    (fuel : nat) :
  buildCombinedRegex filters = Some (rx, filterMap0) ->
  length text + 2 <= fuel ->
  exists a, performCombinedAnalysis fuel text rx filterMap = Ok a.
Proof.
  intros Hb Hfuel. apply buildCombinedRegex_matcher in Hb.
  unfold performCombinedAnalysis.
  apply analyse_lines_terminate; [done| |apply covers_init_results].
  intros line Hl. apply split_lines_length in Hl. lia.
Qed.

(** The bound that [analyse] gives the loops is never reached. *)
Lemma analyse_returns (filters : list Filter) (text : list ascii)
    (o : outcome Analysis) :
  analyse filters text = Some o -> exists a, o = Ok a.
Proof.
  unfold analyse.
  destruct (buildCombinedRegex filters) as [[rx filterMap]|] eqn:E; [|done].
  intros [= <-].
  apply (combined_analysis_terminates filters rx filterMap filterMap text);
    [exact E|lia].
Qed.

Lemma star_regex_combined : is_combined_matcher star_regex.
Proof. split; [apply compile_forward|by left]. Qed.

Lemma star_regex_compiled : RegExp_new (js "(a*b?)") true true = Some star_regex.
Proof. reflexivity. Qed.

Lemma star_regex_matches_empty :
  matcher star_regex (js "cac") 0 = Some (0, [Some (0, 0)])
  /\ matcher star_regex (js "cac") 3 = Some (3, [Some (3, 3)]).
Proof. by vm_compute. Qed.

Lemma performCombinedAnalysis_terminates_witness :
  exists a,
    performCombinedAnalysis 9 (js "cac") star_regex
      [(1, {| filterId := "filter-1"; isExclude := false |})] = Ok a.
Proof.
  apply performCombinedAnalysis_terminates;
    [exact star_regex_combined|simpl; lia].
Defined.

Lemma winner_is_member_witness :
  performCombinedAnalysis 9 (js "cac" ++ ["010"%char] ++ js "b") star_regex
    star_filterMap = Ok star_analysis
  /\ exists r, jsmap_get "filter-1" (filterResults star_analysis) = Some r
               /\ 1 ∈ lines r.
Proof.
  split; [reflexivity|].
  apply (winner_is_member 9 (js "cac" ++ ["010"%char] ++ js "b") star_regex
           star_filterMap star_analysis 1 "filter-1"); reflexivity.
Defined.

(* ===================================================================== *)
(** * Properties of the text mode                                        *)
(* ===================================================================== *)

Lemma in_escape_class_syntax (c : ascii) :
  in_escape_class c = is_syntax_char c.
Proof. destruct c as [[] [] [] [] [] [] [] []]; reflexivity. Qed.

(** The replacement puts a backslash before the syntax characters and
    only before them. *)
Lemma parse_loop_escaped (c : ascii) (rest : list ascii) (st : pstate) :
  in_escape_class c = true ->
  parse_loop (backslash :: c :: rest) st
  = parse_loop rest (push_term (RChar c) true st).
Proof.
  intros Hc. rewrite in_escape_class_syntax in Hc.
  cbn [parse_loop]. change (Ascii.eqb backslash backslash) with true.
  cbv iota. rewrite Hc. done.
Qed.

Lemma parse_loop_plain (c : ascii) (rest : list ascii) (st : pstate) :
  in_escape_class c = false ->
  parse_loop (c :: rest) st = parse_loop rest (push_term (RChar c) true st).
Proof.
  unfold in_escape_class. intros Hc.
  repeat (apply orb_false_iff in Hc as [Hc ?]).
  cbn [parse_loop].
  repeat match goal with
         | H : Ascii.eqb c _ = false |- _ => rewrite H; clear H
         end.
  done.
Qed.

Lemma parse_loop_escapeRegExp (p : list ascii) (st : pstate) :
  parse_loop (escapeRegExp p) st
  = parse_loop [] (fold_left (fun st c => push_term (RChar c) true st) p st).
Proof.
  revert st. induction p as [|c p IH]; intros st; [done|].
  cbn [escapeRegExp fold_left]. destruct (in_escape_class c) eqn:Hc.
  - rewrite parse_loop_escaped by done. apply IH.
  - rewrite parse_loop_plain by done. apply IH.
Qed.

Lemma push_chars (p : list ascii) (st : pstate) :
  ps_stack (fold_left (fun st c => push_term (RChar c) true st) p st)
  = ps_stack st
  /\ ps_alts (fold_left (fun st c => push_term (RChar c) true st) p st)
     = ps_alts st
  /\ ps_cur (fold_left (fun st c => push_term (RChar c) true st) p st)
     = rev (map RChar p) ++ ps_cur st
  /\ ps_ngroups (fold_left (fun st c => push_term (RChar c) true st) p st)
     = ps_ngroups st.
Proof.
  revert st. induction p as [|c p IH]; intros st; [done|].
  cbn [fold_left]. destruct (IH (push_term (RChar c) true st)) as (H1 & H2 & H3 & H4).
  rewrite H1, H2, H3, H4. simpl. by rewrite <- app_assoc.
Qed.

(** The escaped pattern always compiles, to the literal pattern of the
    original string, with no capturing group. *)
Lemma parse_escapeRegExp (p : list ascii) :
  parse (escapeRegExp p) = Some (literal p, 0).
Proof.
  unfold parse. rewrite parse_loop_escapeRegExp. cbn [parse_loop].
  destruct (push_chars p (PState [] [] [] false 0)) as (H1 & H2 & H3 & H4).
  rewrite H1, H4. simpl. unfold mk_disj, mk_seq. rewrite H2, H3. simpl.
  rewrite app_nil_r, rev_involutive. f_equal. f_equal. clear.
  unfold literal. induction p as [|c p IH]; simpl; [done|]. by rewrite IH.
Qed.

Lemma rmatch_literal (m : bool) (s p : list ascii) :
  forall i c k,
    rmatch m s (literal p) i c k
    = if is_prefix p (drop i s) then k (i + length p) c else None.
Proof.
  induction p as [|a p IH]; intros i c k.
  - simpl. by rewrite Nat.add_0_r.
  - cbn [literal foldr rmatch]. fold (literal p).
    destruct (s !! i) as [b|] eqn:E.
    + rewrite (drop_S s b i E). cbn [is_prefix].
      destruct (Ascii.eqb a b); [|done]. rewrite IH. simpl.
      by rewrite Nat.add_succ_r.
    + apply lookup_ge_None in E. rewrite drop_ge by done. done.
Qed.

Lemma search_literal (m : bool) (s p : list ascii) :
  forall t i,
    length (drop i s) = t ->
    match search (compile m (literal p) 0 s) (S t) i with
    | Some _ => true
    | None => false
    end = includes (drop i s) p.
Proof.
  assert (Hm : forall i, compile m (literal p) 0 s i
                         = if is_prefix p (drop i s)
                           then Some (i + length p, []) else None).
  { intros i. unfold compile. by rewrite rmatch_literal. }
  induction t as [|t IH]; intros i Hlen.
  - cbn [search]. rewrite Hm. destruct (drop i s) as [|b rest]; [|done].
    simpl. by destruct (is_prefix p []).
  - change (search (compile m (literal p) 0 s) (S (S t)) i)
      with (match compile m (literal p) 0 s i with
            | Some (e, c) => Some {| m_index := i; m_end := e; m_groups := c |}
            | None => search (compile m (literal p) 0 s) (S t) (S i)
            end).
    rewrite Hm.
    destruct (s !! i) as [b|] eqn:E.
    + rewrite (drop_S s b i E) in *. simpl in Hlen.
      cbn [includes]. destruct (is_prefix p (b :: drop (S i) s)); [done|].
      simpl. apply IH. lia.
    + apply lookup_ge_None in E. rewrite drop_ge in Hlen by done. done.
Qed.

Lemma is_prefix_spec (p s : list ascii) :
  is_prefix p s = true <-> exists post, s = p ++ post.
Proof.
  revert s. induction p as [|a p IH]; intros s; simpl.
  - split; [by exists s|done].
  - destruct s as [|b s].
    + split; [done|]. by intros [post H].
    + rewrite andb_true_iff, IH. split.
      * intros [Hab [post ->]]. apply Ascii.eqb_eq in Hab. subst b.
        by exists post.
      * intros [post [= -> ->]]. split; [apply Ascii.eqb_refl|by exists post].
Qed.

(** [includes] is the containment of a literal substring. *)
Lemma includes_spec (s p : list ascii) :
  includes s p = true <-> exists pre post, s = pre ++ p ++ post.
Proof.
  induction s as [|b s IH]; cbn [includes]; rewrite orb_true_iff, is_prefix_spec.
  - split.
    + intros [[post H]|]; [|done]. by exists [], post.
    + intros (pre & post & H). left.
      destruct pre; [by exists post|done].
  - rewrite IH. split.
    + intros [[post H]|(pre & post & ->)]; [by exists [], post|].
      by exists (b :: pre), post.
    + intros (pre & post & H). destruct pre as [|b' pre]; [left; by exists post|].
      right. injection H as -> ->. by exists pre, post.
Qed.

(** The test of the expression compiled from an escaped pattern is
    [includes]. *)
Lemma compilePattern_text (p : list ascii) :
  exists rx,
    compilePattern TEXT p = Some (rx, p)
    /\ global rx = false
    /\ forall line, RegExp_test rx line = includes line p.
Proof.
  unfold compilePattern, RegExp_new. rewrite parse_escapeRegExp.
  eexists. split; [done|]. split; [done|].
  intros line. unfold RegExp_test, exec. cbn [global matcher fst].
  change (length line <? 0) with false. cbv iota.
  pose proof (search_literal false line p (length line) 0) as H.
  rewrite drop_0, Nat.sub_0_r in *. specialize (H eq_refl).
  destruct (search _ _ _); exact H.
Qed.

(** C5. Every pattern string compiles in TEXT mode, and on every line
    both the expression compiled from the escaped pattern and
    [Filter.test] of the resulting filter answer whether the line contains
    the pattern string as a literal substring. *)
Theorem text_mode_is_literal (p line : list ascii) (ident : string)
    (f0 : Filter) :
  (exists rx, compilePattern TEXT p = Some (rx, p)
              /\ regex (editFilter TEXT p f0) = rx
              /\ RegExp_test rx line = includes line p)
  /\ Filter_test (editFilter TEXT p f0) line = includes line p
  /\ match addFilter TEXT p ident with
     | Some f => RegExp_test (regex f) line = includes line p
                 /\ Filter_test f line = includes line p
     | None => p = []
     end
  /\ (includes line p = true <-> exists pre post, line = pre ++ p ++ post).
Proof.
  destruct (compilePattern_text p) as (rx & Hc & _ & Ht).
  split; [|split; [|split]].
  - exists rx. unfold editFilter. rewrite Hc. done.
  - unfold editFilter. rewrite Hc. done.
  - unfold addFilter. destruct p as [|a p]; [done|]. rewrite Hc. simpl.
    split; [apply Ht|done].
  - apply includes_spec.
Qed.

(** The scenario of the test suite and of the specification. *)
Example text_mode_scenario :
  exists f,
    addFilter TEXT (js "a.b*c") "filter-1" = Some f
    /\ source (regex f) = [ "a"; backslash; "."; "b"; backslash; "*"; "c" ]%char
    /\ Filter_test f (js "xa.b*cy") = true
    /\ RegExp_test (regex f) (js "xa.b*cy") = true
    /\ Filter_test f (js "axbyyyc") = false
    /\ RegExp_test (regex f) (js "axbyyyc") = false.
Proof. eexists. split; [reflexivity|]. by vm_compute. Qed.

(* ===================================================================== *)
(** * The classifier on concrete filter sets                             *)
(* ===================================================================== *)

(** The test "Priority resolution" of the suite: both filters match line
    0 and the one of priority 100 wins it. *)
Example scenario_priority_resolution :
  classify [("ERROR", "filter-high", 100); ("DATABASE", "filter-low", 10)]%Z
    (js "10:00 DATABASE ERROR: connection failed" ++ ["010"%char]
     ++ js "10:01 DATABASE: ok")
  = Some (Ok {| filterResults :=
                  [("filter-high"%string, no_exclude [0]);
                   ("filter-low"%string, no_exclude [0; 1])];
                linePriorityWinners :=
                  [(0, "filter-high"%string); (1, "filter-low"%string)] |}).
Proof. vm_compute. reflexivity. Qed.

(** The test "Multi-match on same line": the filter of higher priority
    wins although it comes later in the input order and in the line. *)
Example scenario_order_of_detection :
  classify [("apple", "filter-A", 10); ("banana", "filter-B", 100)]%Z
    (js "I like apple and banana")
  = Some (Ok {| filterResults :=
                  [("filter-B"%string, no_exclude [0]);
                   ("filter-A"%string, no_exclude [0])];
                linePriorityWinners := [(0, "filter-B"%string)] |}).
Proof. vm_compute. reflexivity. Qed.

(** Equal priorities: the filter that comes first in the input order
    wins. *)
Example scenario_tie :
  classify [("banana", "filter-A", 50); ("apple", "filter-B", 50)]%Z
    (js "I like apple and banana")
  = Some (Ok {| filterResults :=
                  [("filter-A"%string, no_exclude [0]);
                   ("filter-B"%string, no_exclude [0])];
                linePriorityWinners := [(0, "filter-A"%string)] |}).
Proof. vm_compute. reflexivity. Qed.

(** C1 fails on the code.  With the filters [/abcd/] (priority 50) and
    [/abc/] (priority 10) and the one-line text [abcd], the scan of the
    alternation finds [abcd] at index 0 through the first alternative
    and moves past it; the second alternative is never tried there, and
    line 0 is missing from the set of [/abc/], which matches the line
    when tested alone. *)
Theorem combined_scan_misses_overlapped_filter :
  combined_source [("abcd", "filter-A", 50); ("abc", "filter-B", 10)]%Z
  = Some (js "(abcd)|(abc)")
  /\ classify [("abcd", "filter-A", 50); ("abc", "filter-B", 10)]%Z (js "abcd")
  = Some (Ok {| filterResults :=
                  [("filter-A"%string, no_exclude [0]);
                   ("filter-B"%string, no_exclude [])];
                linePriorityWinners := [(0, "filter-A"%string)] |})
  /\ matches_alone "abc" (js "abcd") = Some true.
Proof. repeat split; vm_compute; reflexivity. Qed.

(** The index map counts one group per filter, the expression counts
    every parenthesis: a group inside the pattern of the first filter
    takes the index of the second, whose set then receives lines its
    pattern does not match. *)
Lemma inner_group_shifts_the_index :
  combined_source [("(error|warn)", "filter-A", 100); ("info", "filter-B", 10)]%Z
  = Some (js "((error|warn))|(info)")
  /\ classify [("(error|warn)", "filter-A", 100); ("info", "filter-B", 10)]%Z
    (js "error here")
  = Some (Ok {| filterResults :=
                  [("filter-A"%string, no_exclude [0]);
                   ("filter-B"%string, no_exclude [0])];
                linePriorityWinners := [(0, "filter-A"%string)] |})
  /\ matches_alone "info" (js "error here") = Some false.
Proof. repeat split; vm_compute; reflexivity. Qed.

(** C2 fails on the code.  With the filters [/bc/] (priority 100) and
    [/abc/] (priority 10) and the one-line text [abc], both filters match
    line 0, but the only match the scan finds starts at index 0 and
    belongs to [/abc/]: the winner of line 0 is the filter of lower
    priority. *)
Theorem winner_is_not_the_highest_priority_match :
  combined_source [("bc", "filter-A", 100); ("abc", "filter-B", 10)]%Z
  = Some (js "(bc)|(abc)")
  /\ classify [("bc", "filter-A", 100); ("abc", "filter-B", 10)]%Z (js "abc")
  = Some (Ok {| filterResults :=
                  [("filter-A"%string, no_exclude []);
                   ("filter-B"%string, no_exclude [0])];
                linePriorityWinners := [(0, "filter-B"%string)] |})
  /\ matches_alone "bc" (js "abc") = Some true
  /\ matches_alone "abc" (js "abc") = Some true.
Proof. repeat split; vm_compute; reflexivity. Qed.

(* ===================================================================== *)
(** * More properties of the line classifier                             *)
(* ===================================================================== *)

Lemma jsset_add_idem (k : nat) (s : list nat) :
  jsset_add k (jsset_add k s) = jsset_add k s.
Proof.
  unfold jsset_add. destruct (decide (k ∈ s)) as [Hk|Hk].
  - by rewrite decide_True.
  - rewrite decide_True; [done|]. apply elem_of_app. right. by left.
Qed.

Lemma line_step_refl (k : nat) results : line_step k results results.
Proof. intros ident. destruct (jsmap_get ident results); auto. Qed.

Lemma line_step_trans (k : nat) r1 r2 r3 :
  line_step k r1 r2 -> line_step k r2 r3 -> line_step k r1 r3.
Proof.
  intros H12 H23 ident. specialize (H12 ident). specialize (H23 ident).
  destruct (jsmap_get ident r1) as [a|], (jsmap_get ident r2) as [b|],
    (jsmap_get ident r3) as [c|]; try done.
  destruct H12 as [E1 L1], H23 as [E2 L2]. split; [congruence|].
  destruct L1 as [L1|L1], L2 as [L2|L2]; rewrite L2, L1; auto.
  right. apply jsset_add_idem.
Qed.

Lemma line_step_add (k : nat) (results : list (string * FilterResult))
    (ident : string) (r : FilterResult) :
  jsmap_get ident results = Some r ->
  line_step k results
    (jsmap_set ident {| lines := jsset_add k (lines r);
                        resultIsExclude := resultIsExclude r |} results).
Proof.
  intros Hr id. rewrite jsmap_get_set.
  destruct (decide (id = ident)) as [->|Hne].
  - rewrite Hr. simpl. auto.
  - destruct (jsmap_get id results); auto.
Qed.

Lemma line_step_has_line (k : nat) results results' ident n :
  line_step k results results' ->
  has_line results' ident n -> has_line results ident n \/ n = k.
Proof.
  intros Hs (r' & Hr' & Hn). specialize (Hs ident). rewrite Hr' in Hs.
  destruct (jsmap_get ident results) as [r|] eqn:Hr; [|done].
  destruct Hs as [_ [L|L]]; rewrite L in Hn.
  - left. by exists r.
  - apply elem_of_jsset_add in Hn as [->|Hn]; [by right|].
    left. by exists r.
Qed.

Lemma line_step_grows (k : nat) results results' :
  line_step k results results' -> grows results results'.
Proof.
  intros Hs. split.
  - intros ident n (r & Hr & Hn). specialize (Hs ident). rewrite Hr in Hs.
    destruct (jsmap_get ident results') as [r'|] eqn:Hr'; [|done].
    exists r'. split; [done|]. destruct Hs as [_ [L|L]]; rewrite L; [done|].
    apply elem_of_jsset_add. by right.
  - intros ident [r Hr]. specialize (Hs ident). rewrite Hr in Hs.
    destruct (jsmap_get ident results'); [eauto|done].
Qed.

Lemma line_step_keys (k : nat) results results' ident :
  line_step k results results' ->
  is_Some (jsmap_get ident results') <-> is_Some (jsmap_get ident results).
Proof.
  intros Hs. specialize (Hs ident).
  destruct (jsmap_get ident results), (jsmap_get ident results'); try done;
    split; intros [? ?]; done || eauto.
Qed.

Lemma scan_groups_step filterMap (k : nat) groups :
  forall i results best results' best',
    scan_groups filterMap k i groups results best = Ok (results', best') ->
    line_step k results results'
    /\ (((exists ident, has_line results ident k) -> is_Some best) ->
        (exists ident, has_line results' ident k) -> is_Some best').
Proof.
  induction groups as [|g groups IH]; intros i results best results' best';
    simpl.
  - intros [= <- <-]. split; [apply line_step_refl|auto].
  - destruct g as [range|]; [|apply IH].
    destruct (jsmap_get i filterMap) as [info|] eqn:Ei; [|apply IH].
    destruct (jsmap_get (filterId info) results) as [r|] eqn:Er; [|done].
    intros E. apply IH in E as [Hs HK]. split.
    + eapply line_step_trans; [|exact Hs]. by apply line_step_add.
    + intros _. apply HK. intros _. destruct best as [b|]; [|eauto].
      destruct (i <? b); eauto.
Qed.

Lemma exec_loop_step (rx : RegExp) filterMap (line : list ascii) (k : nat) :
  forall fuel lastIndex results best results' best',
    exec_loop fuel rx filterMap line k lastIndex results best
    = Ok (results', best') ->
    line_step k results results'
    /\ (((exists ident, has_line results ident k) -> is_Some best) ->
        (exists ident, has_line results' ident k) -> is_Some best')
    /\ ((results' = results /\ best' = best)
        \/ exists i, is_Some (matcher rx line i)).
Proof.
  induction fuel as [|fuel IH];
    intros lastIndex results best results' best'; simpl; [done|].
  destruct (exec rx line lastIndex) as [[m|] lastIndex1] eqn:E.
  - destruct (scan_groups filterMap k 1 (m_groups m) results best)
      as [[results1 best1]| |] eqn:E1; [|done..].
    intros E2. apply scan_groups_step in E1 as [Hs1 HK1].
    apply IH in E2 as (Hs2 & HK2 & _). split; [|split].
    + eapply line_step_trans; [exact Hs1|exact Hs2].
    + intros HK. apply HK2, HK1, HK.
    + right. exists (m_index m). unfold exec in E.
      destruct (length line <? _); [done|].
      destruct (search _ _ _) as [m'|] eqn:Es; [|done].
      injection E as <- _. apply search_some in Es as [_ Hm]. eauto.
  - intros [= <- <-]. split; [apply line_step_refl|]. split; [auto|by left].
Qed.

(** Under [covers] the loops end with a value or stopped by the bound,
    never with the TypeError. *)
Lemma exec_loop_no_throw (rx : RegExp) filterMap (line : list ascii) (k : nat) :
  forall fuel lastIndex results best,
    covers filterMap results ->
    exec_loop fuel rx filterMap line k lastIndex results best = OutOfFuel
    \/ exists results' best',
         exec_loop fuel rx filterMap line k lastIndex results best
         = Ok (results', best').
Proof.
  induction fuel as [|fuel IH]; intros lastIndex results best Hc; simpl;
    [by left|].
  destruct (exec rx line lastIndex) as [[m|] lastIndex1]; [|right; eauto].
  destruct (scan_groups_ok filterMap k (m_groups m) 1 results best Hc)
    as (results1 & best1 & E1 & Hg1).
  rewrite E1. apply IH. eapply covers_grows; [exact Hc|exact Hg1].
Qed.

Lemma StronglySorted_snoc_lt (l : list nat) (k : nat) :
  StronglySorted lt l -> Forall (fun n => n < k) l ->
  StronglySorted lt (l ++ [k]).
Proof.
  induction 1 as [|x l Hl IH Hx]; intros Hk; simpl.
  - by repeat constructor.
  - apply Forall_cons in Hk as [Hxk Hk]. constructor; [by apply IH|].
    apply Forall_app. split; [done|]. by constructor.
Qed.

Lemma jsset_add_sorted (k : nat) (l : list nat) :
  StronglySorted lt l -> Forall (fun n => n < k) l ->
  StronglySorted lt (jsset_add k l) /\ Forall (fun n => n < S k) (jsset_add k l).
Proof.
  intros Hl Hk. unfold jsset_add. case_decide as Hin.
  - split; [done|]. eapply Forall_impl; [exact Hk|]. simpl. lia.
  - split; [by apply StronglySorted_snoc_lt|].
    apply Forall_app. split.
    + eapply Forall_impl; [exact Hk|]. simpl. lia.
    + constructor; [lia|constructor].
Qed.

(** One line of [forEach] keeps what is known of the maps. *)
Lemma analyse_line_scanned (rx : RegExp) filterMap (fuel k : nat)
    (line : list ascii) (a a' : Analysis) :
  analyse_line fuel rx filterMap k line a = Ok a' ->
  scanned_up_to filterMap k a ->
  scanned_up_to filterMap (S k) a'
  /\ line_step k (filterResults a) (filterResults a')
  /\ ((exists ident, has_line (filterResults a') ident k) ->
      exists i, is_Some (matcher rx line i)).
Proof.
  unfold analyse_line.
  destruct (exec_loop _ _ _ _ _ _ _ _) as [[results best]| |] eqn:E; [|done..].
  intros [= <-] (I1 & I2 & I3 & I4). unfold scanned_up_to. simpl.
  destruct (exec_loop_step _ _ _ _ _ _ _ _ _ _ E) as (Hs & HK & Hm).
  destruct (exec_loop_best _ _ _ _ _ _ _ _ _ _ E) as [Hg Hb].
  { intros b Hbest. discriminate Hbest. }
  assert (Hfresh : ~ exists ident, has_line (filterResults a) ident k).
  { intros (ident & r & Hr & Hin). destruct (I1 ident r Hr) as [_ Hlt].
    rewrite Forall_forall in Hlt. specialize (Hlt k Hin). lia. }
  assert (HK' : (exists ident, has_line results ident k) -> is_Some best).
  { apply HK. intros H. by destruct Hfresh. }
  split; [|split; [exact Hs|]].
  - split; [|split; [|split]].
    + intros ident r' Hr'. specialize (Hs ident). rewrite Hr' in Hs.
      destruct (jsmap_get ident (filterResults a)) as [r|] eqn:Hr; [|done].
      destruct (I1 ident r Hr) as [Hsorted Hlt].
      destruct Hs as [_ [L|L]]; rewrite L.
      * split; [done|]. eapply Forall_impl; [exact Hlt|]. simpl. lia.
      * by apply jsset_add_sorted.
    + intros n w Hw.
      assert (Hold : jsmap_get n (linePriorityWinners a) = Some w ->
                n < S k /\ has_line results w n
                /\ exists i info, jsmap_get i filterMap = Some info
                                  /\ filterId info = w).
      { intros Hn. destruct (I2 n w Hn) as (Hlt & Hl & Hi).
        split; [lia|]. split; [by apply Hg|done]. }
      destruct best as [b|]; [|by apply Hold].
      destruct (Hb b eq_refl) as (info & Hi & Hl). rewrite Hi in Hw.
      rewrite jsmap_get_set in Hw. destruct (decide (n = k)) as [->|Hne].
      * injection Hw as <-. split; [lia|]. split; [done|]. eauto.
      * by apply Hold.
    + intros n ident Hl.
      assert (Hkeep : is_Some (jsmap_get n (linePriorityWinners a)) ->
                is_Some
                  (jsmap_get n
                     match best with
                     | Some b =>
                         match jsmap_get b filterMap with
                         | Some winner =>
                             jsmap_set k (filterId winner) (linePriorityWinners a)
                         | None => linePriorityWinners a
                         end
                     | None => linePriorityWinners a
                     end)).
      { intros Hn. destruct best as [b|]; [|done].
        destruct (jsmap_get b filterMap); [|done].
        rewrite jsmap_get_set. destruct (decide (n = k)); eauto. }
      destruct (line_step_has_line _ _ _ _ _ Hs Hl) as [Hold| ->].
      * apply Hkeep, (I3 n ident Hold).
      * destruct HK' as [b ->]; [by exists ident|].
        destruct (Hb b eq_refl) as (info & Hi & _). rewrite Hi.
        rewrite jsmap_get_set, decide_True by done. eauto.
    + eapply covers_grows; [exact I4|exact Hg].
  - intros Hex. destruct Hm as [[-> _]|Hm]; [by destruct Hfresh|exact Hm].
Qed.

Lemma analyse_lines_scanned (rx : RegExp) filterMap (fuel : nat) :
  forall ls k a a',
    analyse_lines fuel rx filterMap k ls a = Ok a' ->
    scanned_up_to filterMap k a ->
    scanned_up_to filterMap (k + length ls) a'
    /\ (forall ident, is_Some (jsmap_get ident (filterResults a'))
                      <-> is_Some (jsmap_get ident (filterResults a)))
    /\ (forall ident n, has_line (filterResults a') ident n ->
          has_line (filterResults a) ident n
          \/ exists line i, k <= n /\ ls !! (n - k) = Some line
                            /\ is_Some (matcher rx line i)).
Proof.
  induction ls as [|line ls IH]; intros k a a'; simpl.
  - intros [= <-] Ha. rewrite Nat.add_0_r. split; [done|]. split; [done|auto].
  - destruct (analyse_line fuel rx filterMap k line a) as [a1| |] eqn:E;
      [|done..].
    intros E' Ha.
    destruct (analyse_line_scanned _ _ _ _ _ _ _ E Ha) as (Ha1 & Hs & Hm).
    destruct (IH _ _ _ E' Ha1) as (Ha' & Hkeys & Hlines).
    split; [|split].
    + by replace (k + S (length ls)) with (S k + length ls) by lia.
    + intros ident. rewrite Hkeys. by apply line_step_keys with k.
    + intros ident n Hl. destruct (Hlines ident n Hl) as [H1|H1].
      * destruct (line_step_has_line _ _ _ _ _ Hs H1) as [H0| ->]; [by left|].
        right. destruct Hm as [i Hi]; [by exists ident|].
        exists line, i. split; [lia|]. rewrite Nat.sub_diag. done.
      * right. destruct H1 as (l & i & Hk & Hl' & Hi).
        exists l, i. split; [lia|]. split; [|done].
        replace (n - k) with (S (n - S k)) by lia. done.
Qed.

Lemma init_results_spec (filterMap : list (nat * FilterInfo)) (ident : string) :
  (is_Some (jsmap_get ident (init_results filterMap))
   <-> exists e, e ∈ filterMap /\ filterId e.2 = ident)
  /\ forall r, jsmap_get ident (init_results filterMap) = Some r ->
               lines r = [].
Proof.
  unfold init_results.
  assert (H : forall acc,
             let res :=
               fold_left
                 (fun acc e =>
                    jsmap_set (filterId e.2)
                      {| lines := []; resultIsExclude := isExclude e.2 |} acc)
                 filterMap acc in
             (is_Some (jsmap_get ident res)
              <-> is_Some (jsmap_get ident acc)
                  \/ exists e, e ∈ filterMap /\ filterId e.2 = ident)
             /\ ((forall r, jsmap_get ident acc = Some r -> lines r = []) ->
                 forall r, jsmap_get ident res = Some r -> lines r = [])).
  { induction filterMap as [|e0 fm IH]; intros acc; simpl.
    - split; [|auto]. split; [auto|].
      intros [H|(e & He & _)]; [done|]. by apply elem_of_nil in He.
    - destruct (IH (jsmap_set (filterId e0.2)
                      {| lines := []; resultIsExclude := isExclude e0.2 |} acc))
        as [IH1 IH2].
      split.
      + rewrite IH1, jsmap_get_set. split.
        * intros [H|(e & He & Hid)].
          -- destruct (decide (ident = filterId e0.2)) as [->|Hne].
             ++ right. exists e0. split; [by left|done].
             ++ by left.
          -- right. exists e. split; [by right|done].
        * intros [H|(e & He & Hid)].
          -- left. destruct (decide (ident = filterId e0.2)); eauto.
          -- apply elem_of_cons in He as [->|He].
             ++ left. rewrite decide_True by done. eauto.
             ++ right. by exists e.
      + intros Hacc. apply IH2. intros r. rewrite jsmap_get_set.
        destruct (decide (ident = filterId e0.2)).
        * by intros [= <-].
        * apply Hacc. }
  destruct (H []) as [H1 H2]. split.
  - rewrite H1. simpl. split; [|auto]. intros [[? ?]|?]; done.
  - apply H2. done.
Qed.

Lemma scanned_init (filterMap : list (nat * FilterInfo)) :
  scanned_up_to filterMap 0
    {| filterResults := init_results filterMap; linePriorityWinners := [] |}.
Proof.
  split; [|split; [|split]]; simpl.
  - intros ident r Hr. apply init_results_spec in Hr. rewrite Hr.
    split; constructor.
  - done.
  - intros n ident (r & Hr & Hn). apply init_results_spec in Hr.
    rewrite Hr in Hn. by apply elem_of_nil in Hn.
  - apply covers_init_results.
Qed.

(** What is known of every result of the classifier. *)
Lemma analysis_facts (fuel : nat) (text : list ascii) (rx : RegExp)
    (filterMap : list (nat * FilterInfo)) (a : Analysis) :
  performCombinedAnalysis fuel text rx filterMap = Ok a ->
  scanned_up_to filterMap (length (split_lines text)) a
  /\ (forall ident, is_Some (jsmap_get ident (filterResults a))
                    <-> exists e, e ∈ filterMap /\ filterId e.2 = ident)
  /\ (forall ident n, has_line (filterResults a) ident n ->
        exists line i, split_lines text !! n = Some line
                       /\ is_Some (matcher rx line i)).
Proof.
  unfold performCombinedAnalysis. intros Hrun.
  destruct (analyse_lines_scanned _ _ _ _ _ _ _ Hrun (scanned_init filterMap))
    as (Hinv & Hkeys & Hlines).
  split; [exact Hinv|]. split.
  - intros ident. rewrite Hkeys. simpl. apply init_results_spec.
  - intros ident n Hl. destruct (Hlines ident n Hl) as [H0|H1].
    + destruct H0 as (r & Hr & Hn). simpl in Hr.
      apply init_results_spec in Hr. rewrite Hr in Hn.
      by apply elem_of_nil in Hn.
    + destruct H1 as (line & i & _ & Hline & Hi). rewrite Nat.sub_0_r in Hline.
      eauto.
Qed.

Lemma analyse_lines_no_throw (rx : RegExp) filterMap (fuel : nat) :
  forall ls k a,
    covers filterMap (filterResults a) ->
    (exists a', analyse_lines fuel rx filterMap k ls a = Ok a')
    \/ analyse_lines fuel rx filterMap k ls a = OutOfFuel.
Proof.
  induction ls as [|line ls IH]; intros k a Hc; simpl; [left; eauto|].
  unfold analyse_line.
  destruct (exec_loop_no_throw rx filterMap line k fuel 0 (filterResults a)
              None Hc) as [E|(results' & best' & E)]; rewrite E; [by right|].
  apply IH. simpl. apply exec_loop_step in E as (Hs & _).
  eapply covers_grows; [exact Hc|by eapply line_step_grows].
Qed.

(** X1. Whatever the text, the expression and the index map are, the
    classifier never fails on [filterResults.get(...)!.lines]: every filter
    named by the index map has its entry before the first line is
    scanned, so a run ends with its two maps or is stopped by the bound
    on the iterations. *)
Theorem performCombinedAnalysis_never_throws (fuel : nat) (text : list ascii)
    (rx : RegExp) (filterMap : list (nat * FilterInfo)) :
  (exists a, performCombinedAnalysis fuel text rx filterMap = Ok a)
  \/ performCombinedAnalysis fuel text rx filterMap = OutOfFuel.
Proof.
  unfold performCombinedAnalysis. apply analyse_lines_no_throw. simpl.
  apply covers_init_results.
Qed.

(** X2. The result map has an entry for exactly the filters the index
    map names, those without any matching line included. *)
Theorem result_map_keys (fuel : nat) (text : list ascii) (rx : RegExp)
    (filterMap : list (nat * FilterInfo)) (a : Analysis) (ident : string) :
  performCombinedAnalysis fuel text rx filterMap = Ok a ->
  is_Some (jsmap_get ident (filterResults a))
  <-> exists e, e ∈ filterMap /\ filterId e.2 = ident.
Proof.
  intros Hrun. destruct (analysis_facts _ _ _ _ _ Hrun) as (_ & Hkeys & _).
  apply Hkeys.
Qed.

Lemma result_map_keys_witness :
  is_Some (jsmap_get "filter-1" (filterResults star_analysis))
  <-> exists e, e ∈ star_filterMap /\ filterId e.2 = "filter-1"%string.
Proof.
  apply (result_map_keys 9 star_text star_regex star_filterMap star_analysis).
  reflexivity.
Defined.

(** X3. The set of lines of every filter lists its line numbers in
    strictly ascending order, each once and each below the number of
    lines of the text; the arrays the callers cache are sorted. *)
Theorem line_sets_ascending (fuel : nat) (text : list ascii) (rx : RegExp)
    (filterMap : list (nat * FilterInfo)) (a : Analysis) (ident : string)
    (r : FilterResult) :
  performCombinedAnalysis fuel text rx filterMap = Ok a ->
  jsmap_get ident (filterResults a) = Some r ->
  StronglySorted lt (lines r)
  /\ Forall (fun n => n < length (split_lines text)) (lines r).
Proof.
  intros Hrun Hr. destruct (analysis_facts _ _ _ _ _ Hrun) as ((I1 & _) & _).
  exact (I1 ident r Hr).
Qed.

Lemma line_sets_ascending_witness :
  StronglySorted lt [0; 1]
  /\ Forall (fun n => n < length (split_lines star_text)) [0; 1].
Proof.
  apply (line_sets_ascending 9 star_text star_regex star_filterMap
           star_analysis "filter-1" {| lines := [0; 1]; resultIsExclude := false |});
    reflexivity.
Defined.

(** X4. A line has a priority winner exactly when the set of at least
    one filter contains it, and the winner is always a filter the index
    map names. *)
Theorem winner_iff_recorded (fuel : nat) (text : list ascii) (rx : RegExp)
    (filterMap : list (nat * FilterInfo)) (a : Analysis) (n : nat) :
  performCombinedAnalysis fuel text rx filterMap = Ok a ->
  (is_Some (jsmap_get n (linePriorityWinners a))
   <-> exists ident r, jsmap_get ident (filterResults a) = Some r
                       /\ n ∈ lines r)
  /\ forall w, jsmap_get n (linePriorityWinners a) = Some w ->
       exists i info, jsmap_get i filterMap = Some info /\ filterId info = w.
Proof.
  intros Hrun.
  destruct (analysis_facts _ _ _ _ _ Hrun) as ((_ & I2 & I3 & _) & _).
  split; [split|].
  - intros [w Hw]. destruct (I2 n w Hw) as (_ & (r & Hr & Hn) & _). eauto.
  - intros (ident & r & Hr & Hn). apply (I3 n ident). by exists r.
  - intros w Hw. by destruct (I2 n w Hw) as (_ & _ & Hi).
Qed.

Lemma winner_iff_recorded_witness :
  (is_Some (jsmap_get 1 (linePriorityWinners star_analysis))
   <-> exists ident r, jsmap_get ident (filterResults star_analysis) = Some r
                       /\ 1 ∈ lines r)
  /\ forall w, jsmap_get 1 (linePriorityWinners star_analysis) = Some w ->
       exists i info, jsmap_get i star_filterMap = Some info
                      /\ filterId info = w.
Proof.
  apply (winner_iff_recorded 9 star_text star_regex star_filterMap).
  reflexivity.
Defined.

Lemma elem_of_ranges (fuel : nat) (text : list ascii) (rx : RegExp)
    (filterMap : list (nat * FilterInfo)) (a : Analysis) (ident : string)
    (n : nat) :
  performCombinedAnalysis fuel text rx filterMap = Ok a ->
  n ∈ ranges a ident <-> jsmap_get n (linePriorityWinners a) = Some ident.
Proof.
  intros Hrun.
  destruct (analysis_facts _ _ _ _ _ Hrun) as ((_ & I2 & _) & _).
  unfold ranges. split.
  - destruct (jsmap_get ident (filterResults a)) as [r|];
      [|by intros ?%elem_of_nil].
    intros [_ Hw]%elem_of_bfilter.
    destruct (jsmap_get n (linePriorityWinners a)) as [w|]; [|done].
    apply bool_decide_eq_true in Hw. by subst w.
  - intros Hw. destruct (I2 n ident Hw) as (_ & (r & Hr & Hn) & _).
    rewrite Hr. apply elem_of_bfilter. split; [done|]. rewrite Hw.
    by apply bool_decide_eq_true.
Qed.

(** X5. What [applyFilterHighlights] passes to [setDecorations] for a
    filter: there is no call exactly when the filter has no decoration;
    a filter that is not highlighted gets the empty array; a line is
    among those passed exactly when the filter is highlighted and is the
    priority winner of the line; so no line is passed for two filters. *)
Theorem highlight_follows_winner (fuel : nat) (text : list ascii) (rx : RegExp)
    (filterMap : list (nat * FilterInfo)) (a : Analysis)
    (isHighlighted hasDecoration : bool) (ident : string) (n : nat) :
  performCombinedAnalysis fuel text rx filterMap = Ok a ->
  (highlightLines isHighlighted hasDecoration a ident = None
   <-> hasDecoration = false)
  /\ (isHighlighted = false -> hasDecoration = true ->
      highlightLines isHighlighted hasDecoration a ident = Some [])
  /\ (forall ls,
        highlightLines isHighlighted hasDecoration a ident = Some ls ->
        (n ∈ ls <-> isHighlighted = true
                    /\ jsmap_get n (linePriorityWinners a) = Some ident))
  /\ forall other isHighlighted' hasDecoration' ls ls',
       other <> ident ->
       highlightLines isHighlighted hasDecoration a ident = Some ls ->
       highlightLines isHighlighted' hasDecoration' a other = Some ls' ->
       n ∈ ls -> n ∉ ls'.
Proof.
  intros Hrun.
  assert (Hin : forall hl dec ident' ls,
            highlightLines hl dec a ident' = Some ls ->
            (n ∈ ls <-> hl = true
                        /\ jsmap_get n (linePriorityWinners a) = Some ident')).
  { intros hl dec ident' ls. unfold highlightLines.
    destruct hl, dec; simpl; intros [= <-].
    - rewrite (elem_of_ranges _ _ _ _ _ ident' n Hrun). tauto.
    - rewrite elem_of_nil. split; [done|]. by intros [? _]. }
  split; [|split; [|split]].
  - unfold highlightLines. by destruct isHighlighted, hasDecoration.
  - by intros -> ->.
  - intros ls. apply Hin.
  - intros other hl dec ls ls' Hne Hls Hls' H1 H2.
    apply (Hin _ _ _ _ Hls) in H1 as [_ H1].
    apply (Hin _ _ _ _ Hls') in H2 as [_ H2]. congruence.
Qed.

Lemma highlight_follows_winner_witness :
  highlightLines true true star_analysis "filter-1" = Some [0; 1]
  /\ highlightLines false true star_analysis "filter-1" = Some []
  /\ (0 ∈ [0; 1] <-> true = true
                     /\ jsmap_get 0 (linePriorityWinners star_analysis)
                        = Some "filter-1"%string).
Proof.
  assert (Hrun : performCombinedAnalysis 9 star_text star_regex star_filterMap
                 = Ok star_analysis) by reflexivity.
  split; [reflexivity|]. split.
  - apply (highlight_follows_winner 9 star_text star_regex star_filterMap
             star_analysis false true "filter-1" 0 Hrun); reflexivity.
  - apply (highlight_follows_winner 9 star_text star_regex star_filterMap
             star_analysis true true "filter-1" 0 Hrun). reflexivity.
Defined.

(* ===================================================================== *)
(** * More properties of the combiner and of the focus view              *)
(* ===================================================================== *)

(** With the constructor of the modelled grammar the functions of
    [Host] are those of the engine. *)
Lemma Host_buildCombinedRegex (filters : list Filter) :
  Host.buildCombinedRegex RegExp_new filters = buildCombinedRegex filters.
Proof. reflexivity. Qed.

Lemma Host_analyse (filters : list Filter) (text : list ascii) :
  Host.analyse RegExp_new filters text = analyse filters text.
Proof. reflexivity. Qed.

(** The index map does not depend on the constructor. *)
Lemma Host_buildCombinedRegex_map
    (new_RegExp : RegExpConstructor)
    (filters : list Filter) (rx : RegExp)
    (filterMap : list (nat * FilterInfo)) :
  Host.buildCombinedRegex new_RegExp filters = Some (rx, filterMap) ->
  filterMap = index_filters 0 (sort_by_priority filters) [].
Proof.
  unfold Host.buildCombinedRegex. destruct filters as [|f fs].
  - by intros [= <- <-].
  - destruct (new_RegExp _ true true) as [rx'|]; [|done]. by intros [= <- <-].
Qed.



(** The two filters of priority 80 come first, in input order. *)
Example scenario_index_map_with_tie :
  snd <$> Host.buildCombinedRegex RegExp_new
            [dot_filter; star_filter; tie_filter]
  = Some [(1, {| filterId := "filter-2"; isExclude := false |});
          (2, {| filterId := "filter-3"; isExclude := false |});
          (3, {| filterId := "filter-1"; isExclude := false |})].
Proof. vm_compute. reflexivity. Qed.

Lemma bfilter_sorted {A : Type} (R : A -> A -> Prop) (p : A -> bool)
    (l : list A) :
  StronglySorted R l -> StronglySorted R (List.filter p l).
Proof.
  induction 1 as [|x l Hl IH Hx]; simpl; [constructor|].
  destruct (p x); [|done]. constructor; [done|].
  apply Forall_forall. intros y Hy%elem_of_bfilter.
  rewrite Forall_forall in Hx. apply Hx, Hy.
Qed.



Lemma jsset_add_NoDup (n : nat) (s : list nat) :
  NoDup s -> NoDup (jsset_add n s).
Proof.
  intros Hs. unfold jsset_add. case_decide as Hn; [done|].
  apply NoDup_app. split; [done|]. split; [|apply NoDup_singleton].
  intros x Hx Hx'. apply list_elem_of_singleton in Hx'. by subst x.
Qed.

Lemma add_all_NoDup (ns s : list nat) :
  NoDup s -> NoDup (fold_left (fun acc n => jsset_add n acc) ns s).
Proof.
  revert s. induction ns as [|n ns IH]; intros s Hs; simpl; [done|].
  by apply IH, jsset_add_NoDup.
Qed.

Lemma delete_all_NoDup (ns s : list nat) :
  NoDup s -> NoDup (fold_left (fun acc n => jsset_delete n acc) ns s).
Proof.
  revert s. induction ns as [|n ns IH]; intros s Hs; simpl; [done|].
  apply IH. unfold jsset_delete.
  apply NoDup_ListNoDup, List.NoDup_filter, NoDup_ListNoDup, Hs.
Qed.

Lemma resultLines_NoDup (project : option (list Filter)) (uri : string)
    (document : TextDocument) :
  NoDup (resultLines project uri document).
Proof.
  unfold resultLines. destruct (getActiveFiltersSorted project) as [incl excl].
  assert (Hc : NoDup
                 match incl with
                 | [] =>
                     fold_left (fun acc i => jsset_add i acc)
                       (seq 0 (lineCount document)) []
                 | _ :: _ =>
                     fold_left
                       (fun acc f =>
                          fold_left (fun acc n => jsset_add n acc)
                            (getMatchedLines uri f) acc)
                       incl []
                 end).
  { destruct incl as [|f0 incl']; [apply add_all_NoDup; constructor|].
    generalize (f0 :: incl'). intros l.
    assert (H : forall acc, NoDup acc ->
               NoDup (fold_left
                        (fun acc f =>
                           fold_left (fun acc n => jsset_add n acc)
                             (getMatchedLines uri f) acc) l acc)).
    { induction l as [|f l IH]; intros acc Hacc; simpl; [done|].
      by apply IH, add_all_NoDup. }
    apply H. constructor. }
  revert Hc. generalize (match incl with
                         | [] =>
                             fold_left (fun acc i => jsset_add i acc)
                               (seq 0 (lineCount document)) []
                         | _ :: _ =>
                             fold_left
                               (fun acc f =>
                                  fold_left (fun acc n => jsset_add n acc)
                                    (getMatchedLines uri f) acc)
                               incl []
                         end).
  induction excl as [|f excl IH]; intros acc Hacc; simpl; [done|].
  by apply IH, delete_all_NoDup.
Qed.

Lemma sorted_NoDup_strict (l : list nat) :
  StronglySorted Nat.le l -> NoDup l -> StronglySorted lt l.
Proof.
  induction 1 as [|x l Hl IH Hx]; intros Hnd; [constructor|].
  apply NoDup_cons in Hnd as [Hx' Hnd]. constructor; [by apply IH|].
  apply Forall_forall. intros y Hy. rewrite Forall_forall in Hx.
  specialize (Hx y Hy). assert (x <> y) by (intros ->; done). lia.
Qed.

Lemma strict_bounded_length (l : list nat) (n : nat) :
  StronglySorted lt l -> Forall (fun x => x < n) l -> length l <= n.
Proof.
  intros Hs Hb.
  assert (H : forall a, Forall (fun x => a <= x) l -> length l <= n - a).
  { revert Hs Hb. induction l as [|x l IH]; intros Hs Hb a Ha; simpl; [lia|].
    apply StronglySorted_inv in Hs as [Hs Hx].
    apply Forall_cons in Hb as [Hxn Hb]. apply Forall_cons in Ha as [Hax _].
    assert (length l <= n - S x); [|lia].
    apply IH; [done|done|]. eapply Forall_impl; [exact Hx|]. simpl. lia. }
  specialize (H 0). rewrite Nat.sub_0_r in H. apply H.
  apply Forall_forall. intros. lia.
Qed.

(** X8. The visible lines and the rendered lines are in strictly
    ascending order, no line number twice; every rendered line is a line
    of the document, so the view never has more lines than the
    document. *)
Theorem focus_lines_ascending (project : option (list Filter)) (uri : string)
    (document : TextDocument) :
  StronglySorted lt (getVisibleLines project uri document)
  /\ StronglySorted lt (renderedLines project uri document)
  /\ Forall (fun n => n < lineCount document)
       (renderedLines project uri document)
  /\ length (renderedLines project uri document) <= lineCount document.
Proof.
  assert (Hv : StronglySorted lt (getVisibleLines project uri document)).
  { apply sorted_NoDup_strict.
    - apply (StronglySorted_merge_sort Nat.le).
    - unfold getVisibleLines. rewrite merge_sort_Permutation.
      apply resultLines_NoDup. }
  assert (Hr : StronglySorted lt (renderedLines project uri document))
    by by apply bfilter_sorted.
  assert (Hb : Forall (fun n => n < lineCount document)
                 (renderedLines project uri document)).
  { apply Forall_forall. intros n [_ Hn]%elem_of_bfilter.
    by apply Nat.ltb_lt in Hn. }
  split; [done|]. split; [done|]. split; [done|].
  by apply strict_bounded_length.
Qed.

Lemma add_all_seq (n : nat) :
  fold_left (fun acc i => jsset_add i acc) (seq 0 n) [] = seq 0 n.
Proof.
  assert (H : forall k a, fold_left (fun acc i => jsset_add i acc) (seq a k)
                            (seq 0 a) = seq 0 (a + k)).
  { induction k as [|k IH]; intros a; simpl; [by rewrite Nat.add_0_r|].
    unfold jsset_add at 2. rewrite decide_False.
    - replace (seq 0 a ++ [a]) with (seq 0 (S a)).
      + rewrite IH. f_equal. lia.
      + by rewrite seq_S.
    - rewrite elem_of_seq. lia. }
  apply (H n 0).
Qed.

Lemma seq_sorted (n a : nat) : Sorted Nat.le (seq a n).
Proof.
  revert a. induction n as [|n IH]; intros a; simpl; [constructor|].
  constructor; [apply IH|]. destruct n; simpl; constructor. lia.
Qed.

Lemma map_lineAt_seq (document : TextDocument) :
  map (lineAt document) (seq 0 (length document)) = document.
Proof.
  unfold lineAt. apply list_eq. intros i. rewrite list_lookup_fmap.
  destruct (decide (i < length document)) as [Hi|Hi].
  - rewrite lookup_seq_lt by done. simpl.
    destruct (document !! i) eqn:E; [done|].
    apply lookup_ge_None in E. lia.
  - rewrite lookup_seq_ge by lia. simpl. symmetry.
    apply lookup_ge_None. lia.
Qed.

(** X9. When no project is set, or no filter of the project has the
    action INCLUDED or EXCLUDED, every line is visible and the content
    of the focus view is the document itself, its lines joined by line
    feeds. *)
Theorem focus_view_without_active_filters (project : option (list Filter))
    (uri : string) (document : TextDocument) :
  Forall (fun f => focusAction f = NONE) (default [] project) ->
  getVisibleLines project uri document = seq 0 (lineCount document)
  /\ generateFilteredContent project uri document
     = join (js (String "010" EmptyString)) document.
Proof.
  intros Hnone.
  assert (Hact : getActiveFiltersSorted project = ([], [])).
  { destruct project as [filters|]; [|done]. simpl in *.
    replace (List.filter
               (fun f => negb (FocusAction_eqb (focusAction f) NONE)) filters)
      with (@nil Filter); [done|].
    symmetry. induction Hnone as [|f l Hf Hl IH]; simpl; [done|].
    by rewrite Hf. }
  assert (Hv : getVisibleLines project uri document = seq 0 (lineCount document)).
  { unfold getVisibleLines, resultLines. rewrite Hact. simpl.
    rewrite add_all_seq.
    apply (Sorted_unique Nat.le).
    - apply (Sorted_merge_sort Nat.le).
    - apply seq_sorted.
    - apply merge_sort_Permutation. }
  split; [exact Hv|].
  unfold generateFilteredContent, renderedLines. rewrite Hv. f_equal.
  rewrite forallb_filter_id.
  - apply map_lineAt_seq.
  - apply forallb_forall. intros n Hn%in_seq. apply Nat.ltb_lt. lia.
Qed.

Lemma focus_view_without_active_filters_witness :
  getVisibleLines (Some [ignored_filter]) "file:///a.log" five_lines
  = seq 0 (lineCount five_lines)
  /\ generateFilteredContent (Some [ignored_filter]) "file:///a.log" five_lines
     = join (js (String "010" EmptyString)) five_lines.
Proof.
  apply focus_view_without_active_filters. repeat constructor.
Defined.

(** X10. When the cached line numbers of the INCLUDED filters are all
    line numbers of the document, the guard of the rendering drops
    nothing: the rendered lines are the visible lines. *)
Theorem rendered_lines_are_visible_lines (project : option (list Filter))
    (uri : string) (document : TextDocument) :
  (forall f, f ∈ default [] project -> focusAction f = INCLUDED ->
     Forall (fun n => n < lineCount document) (getMatchedLines uri f)) ->
  renderedLines project uri document = getVisibleLines project uri document.
Proof.
  intros Hcache. unfold renderedLines. apply forallb_filter_id.
  apply forallb_forall. intros n Hn. apply Nat.ltb_lt.
  apply list_elem_of_In in Hn. unfold getVisibleLines in Hn.
  rewrite merge_sort_Permutation in Hn.
  apply elem_of_resultLines in Hn as [[[_ Hlt]|(f & Hf & Ha & Hin)] _];
    [exact Hlt|].
  specialize (Hcache f Hf Ha). rewrite Forall_forall in Hcache.
  by apply Hcache.
Qed.

Lemma rendered_lines_are_visible_lines_witness :
  renderedLines (Some [error_filter; debug_filter [3]]) "file:///a.log"
    five_lines
  = getVisibleLines (Some [error_filter; debug_filter [3]]) "file:///a.log"
      five_lines.
Proof.
  apply rendered_lines_are_visible_lines. intros f Hf Ha.
  apply elem_of_cons in Hf as [->|Hf].
  - vm_compute. repeat constructor.
  - apply list_elem_of_singleton in Hf. subst f. discriminate Ha.
Defined.

(* ===================================================================== *)
(** * Properties of the on-demand analysis                               *)
(* ===================================================================== *)

Lemma jsmap_set_keys_elem {K V : Type} `{EqDecision K} (k x : K) (v : V)
    (m : list (K * V)) :
  x ∈ (jsmap_set k v m).*1 <-> x = k \/ x ∈ m.*1.
Proof.
  induction m as [|[k0 v0] m IH]; simpl.
  - rewrite list_elem_of_singleton, elem_of_nil. tauto.
  - destruct (decide (k = k0)) as [->|Hne]; simpl.
    + rewrite !elem_of_cons. tauto.
    + rewrite !elem_of_cons, IH. tauto.
Qed.

Lemma jsmap_set_keys_NoDup {K V : Type} `{EqDecision K} (k : K) (v : V)
    (m : list (K * V)) :
  NoDup m.*1 -> NoDup (jsmap_set k v m).*1.
Proof.
  induction m as [|[k0 v0] m IH]; simpl; intros Hm.
  - apply NoDup_singleton.
  - apply NoDup_cons in Hm as [Hk0 Hm].
    destruct (decide (k = k0)) as [->|Hne]; simpl.
    + by apply NoDup_cons.
    + apply NoDup_cons. split; [|by apply IH].
      rewrite jsmap_set_keys_elem. intros [->|H]; done.
Qed.

Lemma jsmap_set_keys_same {K V : Type} `{EqDecision K} (k : K) (v : V)
    (m : list (K * V)) :
  is_Some (jsmap_get k m) -> (jsmap_set k v m).*1 = m.*1.
Proof.
  induction m as [|[k0 v0] m IH]; simpl; [by intros [? ?]|].
  destruct (decide (k = k0)) as [->|Hne]; simpl; [done|].
  intros H. f_equal. by apply IH.
Qed.

Lemma jsmap_get_NoDup {K V : Type} `{EqDecision K} (k : K) (v : V)
    (m : list (K * V)) :
  NoDup m.*1 -> (k, v) ∈ m -> jsmap_get k m = Some v.
Proof.
  induction m as [|[k0 v0] m IH]; simpl; intros Hm Hin.
  - by apply elem_of_nil in Hin.
  - apply NoDup_cons in Hm as [Hk0 Hm].
    apply elem_of_cons in Hin as [[= -> ->]|Hin].
    + by rewrite decide_True.
    + destruct (decide (k = k0)) as [->|Hne]; [|by apply IH].
      destruct Hk0. apply list_elem_of_fmap. by exists (k0, v).
Qed.

Lemma scan_groups_keys filterMap (k : nat) groups :
  forall i results best results' best',
    scan_groups filterMap k i groups results best = Ok (results', best') ->
    results'.*1 = results.*1.
Proof.
  induction groups as [|g groups IH]; intros i results best results' best';
    simpl.
  - by intros [= <- <-].
  - destruct g as [range|]; [|apply IH].
    destruct (jsmap_get i filterMap) as [info|] eqn:Ei; [|apply IH].
    destruct (jsmap_get (filterId info) results) as [r|] eqn:Er; [|done].
    intros E. apply IH in E. rewrite E. apply jsmap_set_keys_same. eauto.
Qed.

Lemma exec_loop_keys (rx : RegExp) filterMap (line : list ascii) (k : nat) :
  forall fuel lastIndex results best results' best',
    exec_loop fuel rx filterMap line k lastIndex results best
    = Ok (results', best') ->
    results'.*1 = results.*1.
Proof.
  induction fuel as [|fuel IH];
    intros lastIndex results best results' best'; simpl; [done|].
  destruct (exec rx line lastIndex) as [[m|] lastIndex1].
  - destruct (scan_groups filterMap k 1 (m_groups m) results best)
      as [[results1 best1]| |] eqn:E1; [|done..].
    intros E2. apply IH in E2. apply scan_groups_keys in E1. congruence.
  - by intros [= <- <-].
Qed.

Lemma analyse_lines_keys (rx : RegExp) filterMap (fuel : nat) :
  forall ls k a a',
    analyse_lines fuel rx filterMap k ls a = Ok a' ->
    (filterResults a').*1 = (filterResults a).*1.
Proof.
  induction ls as [|line ls IH]; intros k a a'; simpl; [by intros [= <-]|].
  unfold analyse_line.
  destruct (exec_loop _ _ _ _ _ _ _ _) as [[results best]| |] eqn:E; [|done..].
  intros E'. apply IH in E'. apply exec_loop_keys in E. simpl in E'. congruence.
Qed.

(** The keys of the result map are distinct. *)
Lemma analysis_keys_NoDup (fuel : nat) (text : list ascii) (rx : RegExp)
    (filterMap : list (nat * FilterInfo)) (a : Analysis) :
  performCombinedAnalysis fuel text rx filterMap = Ok a ->
  NoDup (filterResults a).*1.
Proof.
  unfold performCombinedAnalysis. intros Hrun.
  apply analyse_lines_keys in Hrun. rewrite Hrun. simpl. clear Hrun.
  unfold init_results.
  assert (Hnil : NoDup (@nil (string * FilterResult)).*1) by constructor.
  revert Hnil. generalize (@nil (string * FilterResult)).
  induction filterMap as [|e fm IH]; intros acc Hacc; simpl; [done|].
  apply IH. by apply jsmap_set_keys_NoDup.
Qed.

Lemma update_found_map (ident uri : string) (matched : list nat)
    (fs : list Filter) :
  NoDup (map filter_id fs) ->
  update_found ident uri matched fs
  = map (fun f => if bool_decide (filter_id f = ident)
                  then updateCache uri matched f else f) fs.
Proof.
  induction fs as [|f fs IH]; simpl; intros Hnd; [done|].
  apply NoDup_cons in Hnd as [Hf Hnd]. case_bool_decide as Hid.
  - f_equal. clear IH. induction fs as [|g fs IH]; simpl; [done|].
    apply NoDup_cons in Hnd as [_ Hnd].
    rewrite bool_decide_eq_false_2.
    + f_equal. apply IH; [|done]. intros H. apply Hf. simpl.
      apply elem_of_cons. by right.
    + intros Hg. apply Hf. simpl. apply elem_of_cons. left. congruence.
  - f_equal. by apply IH.
Qed.

Lemma update_all_map (uri : string) (entries : list (string * FilterResult))
    (fs : list Filter) :
  NoDup (map filter_id fs) ->
  fold_left (fun fs entry => update_found entry.1 uri (lines entry.2) fs)
    entries fs
  = map (fun f =>
           fold_left
             (fun f entry => if bool_decide (filter_id f = entry.1)
                             then updateCache uri (lines entry.2) f else f)
             entries f) fs.
Proof.
  revert fs. induction entries as [|e entries IH]; intros fs Hnd; simpl.
  - by rewrite map_id.
  - rewrite update_found_map by done. rewrite IH.
    + rewrite map_map. done.
    + rewrite map_map.
      replace (map (fun x => filter_id
                               (if bool_decide (filter_id x = e.1)
                                then updateCache uri (lines e.2) x else x)) fs)
        with (map filter_id fs); [done|].
      apply map_ext. intros f. by case_bool_decide.
Qed.

Lemma update_one (uri : string) (entries : list (string * FilterResult))
    (f : Filter) (r : FilterResult) :
  NoDup entries.*1 -> (filter_id f, r) ∈ entries ->
  fold_left
    (fun f entry => if bool_decide (filter_id f = entry.1)
                    then updateCache uri (lines entry.2) f else f)
    entries f
  = updateCache uri (lines r) f.
Proof.
  assert (Hskip : forall es g, filter_id g ∉ es.*1 ->
            fold_left
              (fun f entry => if bool_decide (filter_id f = entry.1)
                              then updateCache uri (lines entry.2) f else f)
              es g = g).
  { induction es as [|e es IH]; intros g Hg; simpl; [done|].
    simpl in Hg. apply not_elem_of_cons in Hg as [Hne Hg].
    rewrite bool_decide_eq_false_2 by done. by apply IH. }
  revert f. induction entries as [|e entries IH]; intros f Hnd Hin; simpl.
  - by apply elem_of_nil in Hin.
  - simpl in Hnd. apply NoDup_cons in Hnd as [He Hnd].
    apply elem_of_cons in Hin as [<-|Hin].
    + simpl. rewrite bool_decide_eq_true_2 by done. by apply Hskip.
    + rewrite bool_decide_eq_false_2.
      * by apply IH.
      * intros Hid. apply He. rewrite <- Hid.
        apply list_elem_of_fmap. by exists (filter_id f, r).
Qed.

(** Every filter handed to the combiner is named by its index map. *)
Lemma buildCombinedRegex_names (filters : list Filter) (rx : RegExp)
    (filterMap : list (nat * FilterInfo)) (f : Filter) :
  buildCombinedRegex filters = Some (rx, filterMap) -> f ∈ filters ->
  exists e, e ∈ filterMap /\ filterId e.2 = filter_id f.
Proof.
  unfold buildCombinedRegex. destruct filters as [|f0 fs];
    [by intros _ ?%elem_of_nil|].
  destruct (RegExp_new _ true true) as [rx'|]; [|done].
  intros [= <- <-] Hf. rewrite <- sort_by_priority_perm in Hf.
  apply list_elem_of_lookup in Hf as [i Hi].
  pose proof (filterMap_lookup (sort_by_priority (f0 :: fs)) i) as Hm.
  rewrite Hi in Hm. simpl in Hm. apply jsmap_get_elem_of in Hm.
  by exists (S i, info_of f).
Qed.

Lemma Host_buildCombinedRegex_names
    (new_RegExp : RegExpConstructor)
    (filters : list Filter) (rx : RegExp)
    (filterMap : list (nat * FilterInfo)) (f : Filter) :
  Host.buildCombinedRegex new_RegExp filters = Some (rx, filterMap) ->
  f ∈ filters ->
  exists e, e ∈ filterMap /\ filterId e.2 = filter_id f.
Proof.
  intros Hb Hf. rewrite (Host_buildCombinedRegex_map _ _ _ _ Hb).
  rewrite <- sort_by_priority_perm in Hf.
  apply list_elem_of_lookup in Hf as [i Hi].
  pose proof (filterMap_lookup (sort_by_priority filters) i) as Hm.
  rewrite Hi in Hm. simpl in Hm. apply jsmap_get_elem_of in Hm.
  by exists (S i, info_of f).
Qed.

(** X11. For every constructor of expressions: when the filters have
    distinct identities and the on-demand analysis returns, every filter
    is the filter it was with one cache entry replaced: it is analysed
    for the document, its cached lines are the lines of its entry in the
    result map, and no filter asks for another analysis. *)
Theorem on_demand_analysis_caches_all
    (new_RegExp : RegExpConstructor)
    (allFilters updated : list Filter) (text : list ascii)
    (uriString : string) :
  NoDup (map filter_id allFilters) ->
  Host.performOnDemandAnalysis new_RegExp allFilters text uriString
  = Some (Ok updated) ->
  needsAnalysis updated uriString = false
  /\ Forall2
       (fun f f' =>
          f' = updateCache uriString (getMatchedLines uriString f') f)
       allFilters updated
  /\ forall f', f' ∈ updated ->
       exists a r, Host.analyse new_RegExp allFilters text = Some (Ok a)
                   /\ jsmap_get (filter_id f') (filterResults a) = Some r
                   /\ getMatchedLines uriString f' = lines r.
Proof.
  intros Hnd. unfold Host.performOnDemandAnalysis.
  destruct allFilters as [|f0 fs] eqn:Hfs.
  { intros [= <-]. split; [done|]. split; [constructor|].
    by intros f' ?%elem_of_nil. }
  rewrite <- Hfs in *. clear Hfs f0 fs.
  destruct (Host.analyse new_RegExp allFilters text) as [[a| |]|] eqn:Ea;
    try done.
  intros [= <-]. rewrite update_all_map by done.
  unfold Host.analyse in Ea.
  destruct (Host.buildCombinedRegex new_RegExp allFilters)
    as [[rx filterMap]|] eqn:Eb; [|done].
  injection Ea as Ea.
  pose proof (analysis_keys_NoDup _ _ _ _ _ Ea) as Hkeys.
  assert (Hentry : forall f, f ∈ allFilters ->
            exists r, jsmap_get (filter_id f) (filterResults a) = Some r
                      /\ fold_left
                           (fun f entry =>
                              if bool_decide (filter_id f = entry.1)
                              then updateCache uriString (lines entry.2) f
                              else f) (filterResults a) f
                         = updateCache uriString (lines r) f).
  { intros f Hf.
    destruct (analysis_facts _ _ _ _ _ Ea) as (_ & Hk & _).
    destruct (proj2 (Hk (filter_id f))) as [r Hr].
    { eapply Host_buildCombinedRegex_names; [exact Eb|exact Hf]. }
    exists r. split; [exact Hr|].
    apply update_one; [exact Hkeys|]. by apply jsmap_get_elem_of. }
  assert (Hget : forall f m, getMatchedLines uriString (updateCache uriString m f) = m).
  { intros f m. unfold getMatchedLines. simpl. by rewrite lookup_insert_eq. }
  split; [|split].
  - unfold needsAnalysis. apply not_true_iff_false. intros Hex.
    apply existsb_exists in Hex as (f' & Hin & Hf').
    apply in_map_iff in Hin as (f & <- & Hin).
    apply list_elem_of_In in Hin. destruct (Hentry f Hin) as (r & _ & Hr).
    rewrite Hr in Hf'. apply negb_true_iff in Hf'. unfold isAnalyzed in Hf'. simpl in Hf'.
    apply bool_decide_eq_false in Hf'. set_solver.
  - apply Forall2_fmap_r, Forall_Forall2_diag, Forall_forall.
    intros f Hf. destruct (Hentry f Hf) as (r & _ & Hr).
    unfold compose. cbv beta. rewrite Hr. by rewrite Hget.
  - intros f' Hin. apply list_elem_of_fmap in Hin as (f & -> & Hin).
    destruct (Hentry f Hin) as (r & Hr & Hup). rewrite Hup. exists a, r.
    split; [done|]. split; [exact Hr|apply Hget].
Qed.

Lemma on_demand_analysis_caches_all_witness :
  match Host.performOnDemandAnalysis RegExp_new [dot_filter; star_filter]
          literal_text "file:///a.log" with
  | Some (Ok updated) =>
      map (getMatchedLines "file:///a.log") updated = [[0; 2]; []]
      /\ needsAnalysis updated "file:///a.log" = false
      /\ Forall2
           (fun f f' =>
              f' = updateCache "file:///a.log"
                     (getMatchedLines "file:///a.log" f') f)
           [dot_filter; star_filter] updated
      /\ forall f', f' ∈ updated ->
           exists a r,
             Host.analyse RegExp_new [dot_filter; star_filter] literal_text
             = Some (Ok a)
             /\ jsmap_get (filter_id f') (filterResults a) = Some r
             /\ getMatchedLines "file:///a.log" f' = lines r
  | _ => False
  end.
Proof.
  assert (Hlines :
            match Host.performOnDemandAnalysis RegExp_new
                    [dot_filter; star_filter] literal_text "file:///a.log" with
            | Some (Ok updated) =>
                map (getMatchedLines "file:///a.log") updated = [[0; 2]; []]
            | _ => False
            end) by (vm_compute; reflexivity).
  destruct (Host.performOnDemandAnalysis RegExp_new [dot_filter; star_filter]
              literal_text "file:///a.log") as [[updated| |]|] eqn:E;
    [|done..].
  split; [exact Hlines|].
  apply (on_demand_analysis_caches_all RegExp_new
           [dot_filter; star_filter] updated literal_text
           "file:///a.log"); [|exact E].
  simpl. apply NoDup_cons. split; [|apply NoDup_singleton].
  rewrite list_elem_of_singleton. discriminate.
Defined.

(* ===================================================================== *)
(** * Parsing the combined source of texts                               *)
(* ===================================================================== *)

Lemma parse_open_capture (c : ascii) (rest : list ascii) (st : pstate) :
  c <> "?"%char ->
  parse_loop ("("%char :: c :: rest) st
  = parse_loop (c :: rest)
      (open_group (GCapture (S (ps_ngroups st))) (S (ps_ngroups st)) st).
Proof.
  intros Hc.
  destruct c as [[] [] [] [] [] [] [] []]; try reflexivity.
  by destruct Hc.
Qed.

Lemma parse_loop_text_char (c : ascii) (p rest : list ascii) (st : pstate) :
  parse_loop (escape_source (escapeRegExp (c :: p)) ++ rest) st
  = parse_loop (escape_source (escapeRegExp p) ++ rest)
      (push_term (RChar c) true st).
Proof.
  cbn [escapeRegExp]. destruct (in_escape_class c) eqn:Hc.
  - cbn [escape_source]. change (Ascii.eqb backslash backslash) with true.
    cbv iota. cbn [app]. by apply parse_loop_escaped.
  - assert (Hb : Ascii.eqb c backslash = false).
    { unfold in_escape_class in Hc.
      repeat (apply orb_false_iff in Hc as [Hc ?]). done. }
    cbn [escape_source]. rewrite Hb.
    destruct (Ascii.eqb c "/") eqn:E1.
    { apply Ascii.eqb_eq in E1 as ->. reflexivity. }
    destruct (Ascii.eqb c "010") eqn:E2.
    { apply Ascii.eqb_eq in E2 as ->. reflexivity. }
    destruct (Ascii.eqb c "013") eqn:E3.
    { apply Ascii.eqb_eq in E3 as ->. reflexivity. }
    cbn [app]. by apply parse_loop_plain.
Qed.

Lemma parse_loop_text_chars (p rest : list ascii) (st : pstate) :
  parse_loop (escape_source (escapeRegExp p) ++ rest) st
  = parse_loop rest (fold_left (fun st c => push_term (RChar c) true st) p st).
Proof.
  revert st. induction p as [|c p IH]; intros st; [done|].
  rewrite parse_loop_text_char. apply IH.
Qed.

Lemma text_source_head (c : ascii) (p : list ascii) :
  exists d rest, escape_source (escapeRegExp (c :: p)) = d :: rest
                 /\ d <> "?"%char.
Proof.
  cbn [escapeRegExp]. destruct (in_escape_class c) eqn:Hc.
  - cbn [escape_source]. change (Ascii.eqb backslash backslash) with true.
    cbv iota. eexists _, _. split; [done|]. discriminate.
  - assert (Hb : Ascii.eqb c backslash = false).
    { unfold in_escape_class in Hc.
      repeat (apply orb_false_iff in Hc as [Hc ?]). done. }
    assert (Hq : c <> "?"%char).
    { intros ->. discriminate Hc. }
    cbn [escape_source]. rewrite Hb.
    destruct (Ascii.eqb c "/"); [eexists _, _; split; [done|discriminate]|].
    destruct (Ascii.eqb c "010"); [eexists _, _; split; [done|discriminate]|].
    destruct (Ascii.eqb c "013"); [eexists _, _; split; [done|discriminate]|].
    eexists _, _. split; [done|exact Hq].
Qed.

Lemma source_of_text (c : ascii) (p : list ascii) :
  source_of (escapeRegExp (c :: p)) = escape_source (escapeRegExp (c :: p)).
Proof.
  cbn [escapeRegExp]. by destruct (in_escape_class c).
Qed.

(** One alternative of the combined source: a capturing group around
    the characters of the text. *)
Lemma parse_text_alternative (p rest : list ascii) (alts : list pattern)
    (q : bool) (n : nat) :
  parse_loop (text_alternative p ++ rest) (PState [] alts [] q n)
  = parse_loop rest (PState [] alts [RGroup (S n) (body_of p)] true (S n)).
Proof.
  unfold text_alternative.
  destruct p as [|c p]; [reflexivity|].
  rewrite source_of_text.
  destruct (text_source_head c p) as (d & tl & Hsrc & Hd).
  replace ((js "(" ++ escape_source (escapeRegExp (c :: p)) ++ js ")") ++ rest)
    with ("("%char :: escape_source (escapeRegExp (c :: p)) ++ ")"%char :: rest)
    by (simpl; by rewrite <- app_assoc).
  rewrite Hsrc. cbn [app]. rewrite parse_open_capture by done.
  cbn [ps_ngroups].
  change (d :: tl ++ ")"%char :: rest) with ((d :: tl) ++ ")"%char :: rest).
  rewrite <- Hsrc. rewrite parse_loop_text_chars.
  destruct (push_chars (c :: p)
              (open_group (GCapture (S n)) (S n) (PState [] alts [] q n)))
    as (H1 & H2 & H3 & H4).
  cbn [parse_loop]. change (Ascii.eqb ")" backslash) with false.
  change (Ascii.eqb ")" "(") with false. change (Ascii.eqb ")" ")") with true.
  cbv iota. unfold close_group. rewrite H1, H2, H3, H4. simpl.
  by rewrite app_nil_r.
Qed.

Lemma parse_loop_bar (rest : list ascii) (st : pstate) :
  parse_loop ("|"%char :: rest) st
  = parse_loop rest
      (PState (ps_stack st) (mk_seq (ps_cur st) :: ps_alts st) [] false
         (ps_ngroups st)).
Proof. reflexivity. Qed.

(** The combined source of texts parses to the alternation of their
    groups, numbered in order. *)
Lemma parse_combined_texts (ps : list (list ascii)) :
  ps <> [] ->
  forall alts q n,
    parse_loop (join (js "|") (map text_alternative ps)) (PState [] alts [] q n)
    = Some (fold_left (fun acc a => RAlt a acc) alts (alt_chain n ps),
            n + length ps).
Proof.
  induction ps as [|p ps IH]; [done|]. intros _ alts q n.
  destruct ps as [|p' ps].
  - cbn [map join]. rewrite <- (app_nil_r (text_alternative p)).
    rewrite parse_text_alternative. cbn [parse_loop ps_stack ps_alts ps_cur ps_ngroups].
    unfold mk_disj. cbn [alt_chain length]. unfold alt_of.
    by rewrite Nat.add_1_r.
  - change (join (js "|") (map text_alternative (p :: p' :: ps)))
      with (text_alternative p
            ++ "|"%char :: join (js "|") (map text_alternative (p' :: ps))).
    rewrite parse_text_alternative, parse_loop_bar.
    cbn [ps_stack ps_alts ps_cur ps_ngroups].
    rewrite IH by done. cbn [fold_left alt_chain length]. unfold alt_of.
    f_equal. f_equal. lia.
Qed.

Lemma literal_map (p : list ascii) : foldr RSeq REmpty (map RChar p) = literal p.
Proof.
  unfold literal. induction p as [|c p IH]; simpl; [done|]. by rewrite IH.
Qed.

Lemma rmatch_body (m : bool) (s p : list ascii) (i : nat) (c : caps)
    (k : cont) :
  rmatch m s (body_of p) i c k
  = if is_prefix p (drop i s) then k (i + length p) c else None.
Proof.
  destruct p as [|a p].
  - simpl. by rewrite Nat.add_0_r.
  - unfold body_of, mk_seq. rewrite rev_involutive, literal_map.
    apply rmatch_literal.
Qed.

Lemma rmatch_alt_of (m : bool) (s p : list ascii) (n i : nat) (c : caps)
    (k : cont) :
  rmatch m s (alt_of n p) i c k
  = if is_prefix p (drop i s)
    then k (i + length p) (set_cap n (Some (i, i + length p)) c)
    else None.
Proof.
  unfold alt_of, mk_seq. cbn [rev app foldr rmatch]. by rewrite rmatch_body.
Qed.

Lemma rmatch_alt_chain (m : bool) (s : list ascii) (i : nat) (c : caps)
    (ps : list (list ascii)) :
  ps <> [] ->
  forall n,
    rmatch m s (alt_chain n ps) i c (fun j c' => Some (j, c'))
    = first_hit s i c n ps.
Proof.
  induction ps as [|p ps IH]; [done|]. intros _ n.
  destruct ps as [|p' ps].
  - cbn [alt_chain first_hit]. rewrite rmatch_alt_of.
    by destruct (is_prefix p (drop i s)).
  - cbn [alt_chain rmatch]. rewrite rmatch_alt_of.
    change (first_hit s i c n (p :: p' :: ps))
      with (if is_prefix p (drop i s)
            then Some (i + length p, set_cap (S n) (Some (i, i + length p)) c)
            else first_hit s i c (S n) (p' :: ps)).
    destruct (is_prefix p (drop i s)); [done|]. by apply IH.
Qed.

Lemma first_hit_spec (s : list ascii) (i : nat) (c : caps)
    (ps : list (list ascii)) :
  forall n e c',
    first_hit s i c n ps = Some (e, c') ->
    exists g p, ps !! g = Some p /\ is_prefix p (drop i s) = true
                /\ e = i + length p /\ c' = <[n + g := Some (i, e)]> c.
Proof.
  induction ps as [|p ps IH]; intros n e c'; cbn [first_hit]; [done|].
  destruct (is_prefix p (drop i s)) eqn:Hp.
  - intros [= <- <-]. exists 0, p. rewrite Nat.add_0_r. done.
  - intros H. apply IH in H as (g & p0 & H1 & H2 & H3 & H4).
    exists (S g), p0. replace (n + S g) with (S n + g) by lia. done.
Qed.

Lemma first_hit_complete (s : list ascii) (i : nat) (c : caps)
    (ps : list (list ascii)) (g : nat) (p : list ascii) :
  ps !! g = Some p -> is_prefix p (drop i s) = true ->
  forall n, is_Some (first_hit s i c n ps).
Proof.
  revert g. induction ps as [|p0 ps IH]; intros g Hg Hp n; [done|].
  cbn [first_hit]. destruct (is_prefix p0 (drop i s)) eqn:E; [eauto|].
  destruct g as [|g]; [|by eapply IH].
  injection Hg as ->. congruence.
Qed.

Lemma is_prefix_includes (s p : list ascii) (i : nat) :
  is_prefix p (drop i s) = true -> includes s p = true.
Proof.
  intros H. apply is_prefix_spec in H as [post H]. apply includes_spec.
  exists (take i s), post. by rewrite <- H, take_drop.
Qed.

Lemma includes_is_prefix (s p : list ascii) :
  includes s p = true ->
  exists i, i <= length s /\ is_prefix p (drop i s) = true.
Proof.
  intros H. apply includes_spec in H as (pre & post & ->).
  exists (length pre). split; [rewrite length_app; lia|].
  rewrite drop_app_length. apply is_prefix_spec. by exists post.
Qed.

(* ===================================================================== *)
(** * Which capture puts a line into which set                           *)
(* ===================================================================== *)

Lemma exec_some_matcher (rx : RegExp) (s : list ascii) (lastIndex : nat)
    (m : MatchResult) (lastIndex1 : nat) :
  exec rx s lastIndex = (Some m, lastIndex1) ->
  matcher rx s (m_index m) = Some (m_end m, m_groups m).
Proof.
  unfold exec. destruct (length s <? _); [done|].
  destruct (search _ _ _) as [r|] eqn:E; [|done].
  intros [= -> _]. by apply search_some in E as [_ E].
Qed.

Lemma scan_groups_origin filterMap (k : nat) groups :
  forall i results best results' best',
    scan_groups filterMap k i groups results best = Ok (results', best') ->
    forall ident n,
      has_line results' ident n ->
      has_line results ident n
      \/ (n = k
          /\ exists g rng info,
               groups !! g = Some (Some rng)
               /\ jsmap_get (i + g) filterMap = Some info
               /\ filterId info = ident).
Proof.
  induction groups as [|g0 groups IH]; intros i results best results' best';
    cbn [scan_groups].
  - intros [= <- <-] ident n H. by left.
  - assert (Hshift : forall results0 best0,
              scan_groups filterMap k (S i) groups results0 best0
              = Ok (results', best') ->
              forall ident n,
                has_line results' ident n ->
                has_line results0 ident n
                \/ (n = k
                    /\ exists g rng info,
                         (g0 :: groups) !! g = Some (Some rng)
                         /\ jsmap_get (i + g) filterMap = Some info
                         /\ filterId info = ident)).
    { intros results0 best0 E ident n H.
      destruct (IH _ _ _ _ _ E ident n H) as [H0|(-> & g & rng & info & H1 & H2 & H3)];
        [by left|].
      right. split; [done|]. exists (S g), rng, info.
      replace (i + S g) with (S i + g) by lia. done. }
    destruct g0 as [rng0|]; [|apply Hshift].
    destruct (jsmap_get i filterMap) as [info0|] eqn:Ei; [|apply Hshift].
    destruct (jsmap_get (filterId info0) results) as [r|] eqn:Er; [|done].
    intros E ident n H.
    destruct (Hshift _ _ E ident n H) as [(r' & Hr' & Hn)|Hright]; [|by right].
    rewrite jsmap_get_set in Hr'.
    destruct (decide (ident = filterId info0)) as [->|Hne].
    + injection Hr' as <-. simpl in Hn. apply elem_of_jsset_add in Hn as [->|Hn].
      * right. split; [done|]. exists 0, rng0, info0.
        by rewrite Nat.add_0_r.
      * left. by exists r.
    + left. by exists r'.
Qed.

Lemma exec_loop_origin (rx : RegExp) filterMap (line : list ascii) (k : nat) :
  forall fuel lastIndex results best results' best',
    exec_loop fuel rx filterMap line k lastIndex results best
    = Ok (results', best') ->
    forall ident n,
      has_line results' ident n ->
      has_line results ident n
      \/ (n = k
          /\ exists i e c g rng info,
               matcher rx line i = Some (e, c)
               /\ c !! g = Some (Some rng)
               /\ jsmap_get (S g) filterMap = Some info
               /\ filterId info = ident).
Proof.
  induction fuel as [|fuel IH];
    intros lastIndex results best results' best'; cbn [exec_loop]; [done|].
  destruct (exec rx line lastIndex) as [[m|] lastIndex1] eqn:Ex.
  - destruct (scan_groups filterMap k 1 (m_groups m) results best)
      as [[results1 best1]| |] eqn:E1; [|done..].
    intros E2 ident n H.
    destruct (IH _ _ _ _ _ E2 ident n H) as [H1|H1]; [|by right].
    destruct (scan_groups_origin _ _ _ _ _ _ _ _ E1 ident n H1)
      as [H0|(-> & g & rng & info & G1 & G2 & G3)]; [by left|].
    right. split; [done|].
    exists (m_index m), (m_end m), (m_groups m), g, rng, info.
    split; [by eapply exec_some_matcher|]. done.
  - intros [= <- <-] ident n H. by left.
Qed.

Lemma analyse_lines_origin (rx : RegExp) filterMap (fuel : nat) :
  forall ls k a a',
    analyse_lines fuel rx filterMap k ls a = Ok a' ->
    forall ident n,
      has_line (filterResults a') ident n ->
      has_line (filterResults a) ident n
      \/ exists line i e c g rng info,
           k <= n /\ ls !! (n - k) = Some line
           /\ matcher rx line i = Some (e, c)
           /\ c !! g = Some (Some rng)
           /\ jsmap_get (S g) filterMap = Some info
           /\ filterId info = ident.
Proof.
  induction ls as [|line ls IH]; intros k a a'; cbn [analyse_lines].
  - intros [= <-] ident n H. by left.
  - unfold analyse_line.
    destruct (exec_loop _ _ _ _ _ _ _ _) as [[results best]| |] eqn:E; [|done..].
    intros E' ident n H.
    destruct (IH _ _ _ E' ident n H)
      as [H1|(l & i & e & c & g & rng & info & Hk & Hl & Hrest)].
    + simpl in H1.
      destruct (exec_loop_origin _ _ _ _ _ _ _ _ _ _ E ident n H1)
        as [H0|(-> & i & e & c & g & rng & info & Hrest)]; [by left|].
      right. exists line, i, e, c, g, rng, info.
      split; [lia|]. by rewrite Nat.sub_diag.
    + right. exists l, i, e, c, g, rng, info. split; [lia|].
      replace (n - k) with (S (n - S k)) by lia. done.
Qed.

(** Every recorded line comes from a match of the combined expression
    on that line in which the capture of the filter took part. *)
Lemma analysis_origin (fuel : nat) (text : list ascii) (rx : RegExp)
    (filterMap : list (nat * FilterInfo)) (a : Analysis) (ident : string)
    (n : nat) :
  performCombinedAnalysis fuel text rx filterMap = Ok a ->
  has_line (filterResults a) ident n ->
  exists line i e c g rng info,
    split_lines text !! n = Some line
    /\ matcher rx line i = Some (e, c)
    /\ c !! g = Some (Some rng)
    /\ jsmap_get (S g) filterMap = Some info
    /\ filterId info = ident.
Proof.
  unfold performCombinedAnalysis. intros Hrun H.
  destruct (analyse_lines_origin _ _ _ _ _ _ _ Hrun ident n H)
    as [(r & Hr & Hn)|(l & i & e & c & g & rng & info & _ & Hl & Hrest)].
  - simpl in Hr. apply init_results_spec in Hr. rewrite Hr in Hn.
    by apply elem_of_nil in Hn.
  - rewrite Nat.sub_0_r in Hl. by exists l, i, e, c, g, rng, info.
Qed.

Lemma scan_groups_records filterMap (k : nat) groups :
  forall i results best results' best' g rng info,
    scan_groups filterMap k i groups results best = Ok (results', best') ->
    groups !! g = Some (Some rng) ->
    jsmap_get (i + g) filterMap = Some info ->
    has_line results' (filterId info) k.
Proof.
  induction groups as [|g0 groups IH];
    intros i results best results' best' g rng info; [done|].
  destruct g as [|g].
  - intros E [= ->]. rewrite Nat.add_0_r. intros Hi.
    cbn [scan_groups] in E. rewrite Hi in E.
    destruct (jsmap_get (filterId info) results) as [r|] eqn:Er; [|done].
    apply scan_groups_step in E as [E _]. apply line_step_grows in E as [E _].
    apply E. eexists. rewrite jsmap_get_set, decide_True by done.
    split; [done|]. simpl. apply elem_of_jsset_add. by left.
  - intros E Hg Hi. replace (i + S g) with (S i + g) in Hi by lia.
    cbn [scan_groups] in E. simpl in Hg.
    destruct g0 as [rng0|]; [|by eapply IH].
    destruct (jsmap_get i filterMap) as [info0|]; [|by eapply IH].
    destruct (jsmap_get (filterId info0) results) as [r|]; [|done].
    by eapply IH.
Qed.

Lemma exec_loop_records (rx : RegExp) filterMap (line : list ascii) (k : nat)
    (fuel lastIndex : nat) results best results' best' (m : MatchResult)
    (lastIndex1 g : nat) rng info :
  exec_loop fuel rx filterMap line k lastIndex results best
  = Ok (results', best') ->
  exec rx line lastIndex = (Some m, lastIndex1) ->
  m_groups m !! g = Some (Some rng) ->
  jsmap_get (S g) filterMap = Some info ->
  has_line results' (filterId info) k.
Proof.
  destruct fuel as [|fuel]; [done|]. cbn [exec_loop]. intros E Hex Hg Hi.
  rewrite Hex in E.
  destruct (scan_groups filterMap k 1 (m_groups m) results best)
    as [[results1 best1]| |] eqn:E1; [|done..].
  apply exec_loop_step in E as [E _]. apply line_step_grows in E as [E _].
  apply E. by eapply scan_groups_records.
Qed.

Lemma analyse_lines_grows (rx : RegExp) filterMap (fuel : nat) :
  forall ls k a a',
    analyse_lines fuel rx filterMap k ls a = Ok a' ->
    grows (filterResults a) (filterResults a').
Proof.
  induction ls as [|line ls IH]; intros k a a'; cbn [analyse_lines].
  - intros [= <-]. apply grows_refl.
  - unfold analyse_line.
    destruct (exec_loop _ _ _ _ _ _ _ _) as [[results best]| |] eqn:E; [|done..].
    intros E'. apply IH in E'. simpl in E'.
    apply exec_loop_step in E as [E _]. apply line_step_grows in E.
    by eapply grows_trans.
Qed.

Lemma analyse_lines_records (rx : RegExp) filterMap (fuel : nat) :
  forall ls k a a' j line m lastIndex1 g rng info,
    analyse_lines fuel rx filterMap k ls a = Ok a' ->
    ls !! j = Some line ->
    exec rx line 0 = (Some m, lastIndex1) ->
    m_groups m !! g = Some (Some rng) ->
    jsmap_get (S g) filterMap = Some info ->
    has_line (filterResults a') (filterId info) (k + j).
Proof.
  induction ls as [|l ls IH];
    intros k a a' j line m lastIndex1 g rng info; [done|].
  cbn [analyse_lines]. unfold analyse_line.
  destruct (exec_loop _ _ _ _ _ _ _ _) as [[results best]| |] eqn:E; [|done..].
  intros E' Hj Hex Hg Hi. destruct j as [|j].
  - injection Hj as ->. rewrite Nat.add_0_r.
    apply analyse_lines_grows in E' as [E' _]. apply E'. simpl.
    by eapply exec_loop_records.
  - replace (k + S j) with (S k + j) by lia. by eapply IH.
Qed.

(* ===================================================================== *)
(** * The combined scan of TEXT filters                                  *)
(* ===================================================================== *)

(** [editFilter] and [addFilter] in TEXT mode leave a text filter. *)
Lemma editFilter_text_filter (p : list ascii) (f : Filter) :
  text_filter (editFilter TEXT p f).
Proof.
  unfold editFilter, compilePattern, RegExp_new.
  rewrite parse_escapeRegExp. by split.
Qed.

Lemma addFilter_text_filter (p : list ascii) (ident : string) (f : Filter) :
  addFilter TEXT p ident = Some f -> text_filter f.
Proof.
  unfold addFilter, compilePattern, RegExp_new. rewrite parse_escapeRegExp.
  destruct p; [done|]. intros [= <-]. by split.
Qed.

(** The expression the combiner compiles for text filters tries their
    texts in the order of the sorted list, at the index it is given. *)
Lemma buildCombinedRegex_text (filters : list Filter) :
  Forall text_filter filters -> filters <> [] ->
  exists rx,
    buildCombinedRegex filters
    = Some (rx, index_filters 0 (sort_by_priority filters) [])
    /\ global rx = true
    /\ forall s i,
         matcher rx s i
         = first_hit s i (replicate (length filters) None) 0
             (map textPattern (sort_by_priority filters)).
Proof.
  intros Htext Hne. unfold buildCombinedRegex.
  destruct filters as [|f0 fs] eqn:Hfs; [done|]. rewrite <- Hfs in *.
  clear Hfs f0 fs.
  pose proof (sort_by_priority_perm filters) as Hperm.
  set (sorted := sort_by_priority filters) in *.
  assert (Hsrc : map (fun f => js "(" ++ source (regex f) ++ js ")") sorted
                 = map text_alternative (map textPattern sorted)).
  { rewrite map_map. apply map_ext_in. intros f Hf.
    apply list_elem_of_In in Hf. rewrite Hperm in Hf.
    rewrite Forall_forall in Htext. destruct (Htext f Hf) as [_ ->]. done. }
  assert (Hlen : length sorted = length filters) by by rewrite Hperm.
  assert (Hps : map textPattern sorted <> []).
  { intros H. apply (f_equal length) in H. rewrite length_map, Hlen in H.
    destruct filters; done. }
  rewrite Hsrc. unfold RegExp_new, parse.
  rewrite (parse_combined_texts _ Hps). cbn [fold_left].
  eexists. split; [done|]. split; [done|]. intros s i.
  cbn [matcher]. unfold compile. rewrite rmatch_alt_chain by done.
  by rewrite Nat.add_0_l, length_map, Hlen.
Qed.

(** X12. Every line recorded for a filter comes from a match of the
    combined expression on that line in which the capture the index map
    assigns to the filter took part; a line on which the expression
    matches nowhere is in no set. *)
Theorem recorded_line_has_group (fuel : nat) (text : list ascii) (rx : RegExp)
    (filterMap : list (nat * FilterInfo)) (a : Analysis) (ident : string)
    (r : FilterResult) (n : nat) :
  performCombinedAnalysis fuel text rx filterMap = Ok a ->
  jsmap_get ident (filterResults a) = Some r -> n ∈ lines r ->
  exists line i e c g rng info,
    split_lines text !! n = Some line
    /\ matcher rx line i = Some (e, c)
    /\ c !! g = Some (Some rng)
    /\ jsmap_get (S g) filterMap = Some info
    /\ filterId info = ident.
Proof.
  intros Hrun Hr Hn. eapply analysis_origin; [exact Hrun|]. by exists r.
Qed.

Lemma recorded_line_has_group_witness :
  exists line i e c g rng info,
    split_lines star_text !! 1 = Some line
    /\ matcher star_regex line i = Some (e, c)
    /\ c !! g = Some (Some rng)
    /\ jsmap_get (S g) star_filterMap = Some info
    /\ filterId info = "filter-1"%string.
Proof.
  apply (recorded_line_has_group 9 star_text star_regex star_filterMap
           star_analysis "filter-1" {| lines := [0; 1]; resultIsExclude := false |} 1).
  - reflexivity.
  - reflexivity.
  - right. left.
Defined.

(** X13. The captures of the first match of a line are always recorded:
    when the first [exec] on a line returns a match, the line is in the
    set of every filter whose capture took part in it. *)
Theorem first_match_is_recorded (fuel : nat) (text : list ascii) (rx : RegExp)
    (filterMap : list (nat * FilterInfo)) (a : Analysis) (n : nat)
    (line : list ascii) (m : MatchResult) (lastIndex1 g : nat)
    (rng : nat * nat) (info : FilterInfo) :
  performCombinedAnalysis fuel text rx filterMap = Ok a ->
  split_lines text !! n = Some line ->
  exec rx line 0 = (Some m, lastIndex1) ->
  m_groups m !! g = Some (Some rng) ->
  jsmap_get (S g) filterMap = Some info ->
  exists r, jsmap_get (filterId info) (filterResults a) = Some r
            /\ n ∈ lines r.
Proof.
  unfold performCombinedAnalysis. intros Hrun Hline Hex Hg Hi.
  change n with (0 + n).
  exact (analyse_lines_records _ _ _ _ _ _ _ _ _ _ _ _ _ _ Hrun Hline Hex Hg Hi).
Qed.

Lemma first_match_is_recorded_witness :
  exists r, jsmap_get "filter-1"%string (filterResults star_analysis) = Some r
            /\ 1 ∈ lines r.
Proof.
  apply (first_match_is_recorded 9 star_text star_regex star_filterMap
           star_analysis 1 (js "b")
           {| m_index := 0; m_end := 1; m_groups := [Some (0, 1)] |} 1 0 (0, 1)
           {| filterId := "filter-1"; isExclude := false |});
    reflexivity.
Defined.

(** What the combined scan of text filters records. *)
Lemma text_scan_facts (filters : list Filter) (text : list ascii) :
  Forall text_filter filters ->
  exists a,
    analyse filters text = Some (Ok a)
    /\ (forall ident n,
          has_line (filterResults a) ident n ->
          exists f line,
            f ∈ filters /\ filter_id f = ident
            /\ split_lines text !! n = Some line
            /\ Filter_test f line = true)
    /\ (forall n line f,
          split_lines text !! n = Some line -> f ∈ filters ->
          Filter_test f line = true ->
          exists f0, f0 ∈ filters
                     /\ has_line (filterResults a) (filter_id f0) n)
    /\ (forall n ident,
          has_line (filterResults a) ident n ->
          is_Some (jsmap_get n (linePriorityWinners a)))
    /\ (forall f, f ∈ filters ->
          is_Some (jsmap_get (filter_id f) (filterResults a))).
Proof.
  intros Htext. destruct (decide (filters = [])) as [->|Hne].
  { destruct (analyse_returns [] text _ eq_refl) as [a Ha].
    exists a. split; [unfold analyse; simpl; by rewrite <- Ha|].
    split; [|split; [|split]].
    - intros ident n Hl.
      destruct (analysis_origin _ _ _ _ _ ident n Ha Hl)
        as (? & ? & ? & ? & ? & ? & ? & _ & _ & _ & H & _).
      done.
    - by intros n line f _ ?%elem_of_nil.
    - destruct (analysis_facts _ _ _ _ _ Ha) as ((_ & _ & Hwin & _) & _).
      exact Hwin.
    - by intros f ?%elem_of_nil. }
  destruct (buildCombinedRegex_text filters Htext Hne) as (rx & Hb & Hg & Hm).
  pose proof (sort_by_priority_perm filters) as Hperm.
  set (sorted := sort_by_priority filters) in *.
  assert (Hrun : analyse filters text
                 = Some (performCombinedAnalysis (length text + 2) text rx
                           (index_filters 0 sorted [])))
    by (unfold analyse; by rewrite Hb).
  destruct (analyse_returns _ _ _ Hrun) as [a Ha].
  destruct (analysis_facts _ _ _ _ _ Ha) as ((_ & _ & Hwin & _) & Hkeys & _).
  exists a. split; [by rewrite Hrun, Ha|]. split; [|split; [|split]].
  - intros ident n Hl.
    destruct (analysis_origin _ _ _ _ _ ident n Ha Hl)
      as (line & i & e & c & g & rng & info & Hline & Hmatch & Hc & Hi & Hid).
    rewrite Hm in Hmatch.
    apply first_hit_spec in Hmatch as (g0 & p & Hp & Hpre & _ & ->).
    rewrite Nat.add_0_l in Hc.
    apply list_lookup_insert_Some in Hc as [(<- & _ & _)|[_ Hc]];
      [|by apply lookup_replicate_1 in Hc as [? _]].
    rewrite filterMap_lookup in Hi. rewrite list_lookup_fmap in Hp.
    destruct (sorted !! g0) as [f|] eqn:Hf; [|done].
    simpl in Hi, Hp. injection Hi as <-. injection Hp as <-.
    apply list_elem_of_lookup_2 in Hf. rewrite Hperm in Hf.
    exists f, line. split; [done|]. split; [done|]. split; [done|].
    rewrite Forall_forall in Htext. destruct (Htext f Hf) as [Hmode _].
    unfold Filter_test. rewrite Hmode. by eapply is_prefix_includes.
  - intros n line f Hline Hf Htest.
    rewrite Forall_forall in Htext. destruct (Htext f Hf) as [Hmode _].
    unfold Filter_test in Htest. rewrite Hmode in Htest.
    apply includes_is_prefix in Htest as (i & Hi & Hpre).
    rewrite <- Hperm in Hf. apply list_elem_of_lookup in Hf as [j Hj].
    assert (Hsome : is_Some (matcher rx line i)).
    { rewrite Hm. eapply first_hit_complete; [|exact Hpre].
      by rewrite list_lookup_fmap, Hj. }
    destruct (search_complete (matcher rx line) (S (length line - 0)) 0 i)
      as [m Hsearch]; [lia|exact Hsome|].
    assert (Hex : exec rx line 0 = (Some m, m_end m)).
    { unfold exec. rewrite Hg. change (length line <? 0) with false.
      cbv iota. by rewrite Hsearch. }
    apply search_some in Hsearch as [_ Hmatch]. rewrite Hm in Hmatch.
    apply first_hit_spec in Hmatch as (g0 & p & Hp & _ & _ & Hcaps).
    rewrite list_lookup_fmap in Hp.
    destruct (sorted !! g0) as [f0|] eqn:Hf0; [|done].
    assert (Hlt : g0 < length filters).
    { apply lookup_lt_Some in Hf0. by rewrite <- Hperm. }
    exists f0. split.
    { rewrite <- Hperm. by eapply list_elem_of_lookup_2. }
    change (filter_id f0) with (filterId (info_of f0)).
    change n with (0 + n).
    unfold performCombinedAnalysis in Ha.
    eapply analyse_lines_records; [exact Ha|exact Hline|exact Hex| |].
    + rewrite Hcaps, Nat.add_0_l. apply list_lookup_insert_eq.
      by rewrite length_replicate.
    + by rewrite filterMap_lookup, Hf0.
  - exact Hwin.
  - intros f Hf. apply Hkeys.
    eapply buildCombinedRegex_names; [exact Hb|exact Hf].
Qed.

(** X14. For filters in TEXT mode the combiner and the classifier
    always return; every line recorded for a filter contains the text of
    a filter of that identity, and every line that contains the text of
    some filter is recorded for at least one filter and has a priority
    winner. *)
Theorem text_filters_scan (filters : list Filter) (text : list ascii) :
  Forall text_filter filters ->
  exists a,
    analyse filters text = Some (Ok a)
    /\ (forall ident r n,
          jsmap_get ident (filterResults a) = Some r -> n ∈ lines r ->
          exists f line,
            f ∈ filters /\ filter_id f = ident
            /\ split_lines text !! n = Some line
            /\ Filter_test f line = true)
    /\ (forall n line f,
          split_lines text !! n = Some line -> f ∈ filters ->
          Filter_test f line = true ->
          (exists f0 r, f0 ∈ filters
                        /\ jsmap_get (filter_id f0) (filterResults a) = Some r
                        /\ n ∈ lines r)
          /\ is_Some (jsmap_get n (linePriorityWinners a))).
Proof.
  intros Htext.
  destruct (text_scan_facts filters text Htext)
    as (a & Ha & Hsound & Hrec & Hwin & _).
  exists a. split; [exact Ha|]. split.
  - intros ident r n Hr Hn. apply Hsound. by exists r.
  - intros n line f Hline Hf Htest.
    destruct (Hrec n line f Hline Hf Htest) as (f0 & Hf0 & Hl).
    split; [|by eapply Hwin].
    destruct Hl as (r & Hr & Hn). by exists f0, r.
Qed.

Lemma text_filters_scan_witness :
  Forall text_filter [dot_filter; star_filter]
  /\ exists a,
      analyse [dot_filter; star_filter] literal_text = Some (Ok a)
      /\ (exists r, jsmap_get "filter-1" (filterResults a) = Some r
                    /\ lines r = [0; 2])
      /\ ((exists f0 r,
             f0 ∈ [dot_filter; star_filter]
             /\ jsmap_get (filter_id f0) (filterResults a) = Some r
             /\ 2 ∈ lines r)
          /\ is_Some (jsmap_get 2 (linePriorityWinners a)))
      /\ forall ident r n,
           jsmap_get ident (filterResults a) = Some r -> n ∈ lines r ->
           exists f line,
             f ∈ [dot_filter; star_filter] /\ filter_id f = ident
             /\ split_lines literal_text !! n = Some line
             /\ Filter_test f line = true.
Proof.
  assert (Htext : Forall text_filter [dot_filter; star_filter]).
  { constructor; [apply editFilter_text_filter|].
    constructor; [|constructor].
    destruct (editFilter_text_filter (js "b*")
                (Filter_new never_regex "filter-2" default_priority))
      as [H1 H2].
    split; [exact H1|exact H2]. }
  split; [exact Htext|].
  destruct (text_filters_scan [dot_filter; star_filter] literal_text Htext)
    as (a & Ha & Hsound & Hrec).
  exists a. split; [exact Ha|]. split; [|split; [|exact Hsound]].
  - revert Ha. unfold analyse.
    destruct (buildCombinedRegex [dot_filter; star_filter])
      as [[rx filterMap]|] eqn:Eb; [|done].
    assert (Ea : (performCombinedAnalysis (length literal_text + 2)
                    literal_text rx filterMap)
                 = match buildCombinedRegex [dot_filter; star_filter] with
                   | Some (rx, filterMap) =>
                       performCombinedAnalysis (length literal_text + 2)
                         literal_text rx filterMap
                   | None => OutOfFuel
                   end) by by rewrite Eb.
    rewrite Ea. clear. intros Ha. apply (inj Some) in Ha.
    assert (Hl : (lines <$> jsmap_get "filter-1"
                              (filterResults
                                 (match match buildCombinedRegex
                                                [dot_filter; star_filter] with
                                        | Some (rx, filterMap) =>
                                            performCombinedAnalysis
                                              (length literal_text + 2)
                                              literal_text rx filterMap
                                        | None => OutOfFuel
                                        end with
                                  | Ok a' => a'
                                  | _ => {| filterResults := [];
                                            linePriorityWinners := [] |}
                                  end))) = Some [0; 2])
      by (vm_compute; reflexivity).
    rewrite Ha in Hl.
    destruct (jsmap_get "filter-1" (filterResults a)) as [r|]; [|done].
    exists r. split; [done|]. by injection Hl.
  - apply (Hrec 2 (js "a.b*") star_filter).
    + vm_compute. reflexivity.
    + apply elem_of_cons. right. apply elem_of_cons. by left.
    + vm_compute. reflexivity.
Defined.

(** X15. For one filter in TEXT mode the single scan is exact: a line is
    in the set of the filter exactly when the filter, tested alone,
    matches the line. *)
Theorem single_text_filter_exact (f : Filter) (text : list ascii) :
  text_filter f ->
  exists a r,
    analyse [f] text = Some (Ok a)
    /\ jsmap_get (filter_id f) (filterResults a) = Some r
    /\ forall n line,
         split_lines text !! n = Some line ->
         (n ∈ lines r <-> Filter_test f line = true).
Proof.
  intros Htext.
  destruct (text_scan_facts [f] text) as (a & Ha & Hsound & Hrec & _ & Hkey).
  { by constructor. }
  destruct (Hkey f) as [r Hr]; [by left|].
  exists a, r. split; [exact Ha|]. split; [exact Hr|].
  intros n line Hline. split.
  - intros Hn. destruct (Hsound (filter_id f) n) as (f' & line' & Hf' & _ & Hl & Ht).
    { by exists r. }
    apply list_elem_of_singleton in Hf' as ->. congruence.
  - intros Ht. destruct (Hrec n line f Hline) as (f0 & Hf0 & r0 & Hr0 & Hn);
      [by left|exact Ht|].
    apply list_elem_of_singleton in Hf0 as ->. congruence.
Qed.

Lemma single_text_filter_exact_witness :
  exists a r,
    analyse [editFilter TEXT (js "a.b") sample_filter] star_text = Some (Ok a)
    /\ jsmap_get (filter_id (editFilter TEXT (js "a.b") sample_filter))
         (filterResults a) = Some r
    /\ forall n line,
         split_lines star_text !! n = Some line ->
         (n ∈ lines r
          <-> Filter_test (editFilter TEXT (js "a.b") sample_filter) line = true).
Proof.
  apply (single_text_filter_exact (editFilter TEXT (js "a.b") sample_filter)
           star_text).
  apply editFilter_text_filter.
Defined.

(* ===================================================================== *)
(** * The cache statistics                                             *)
(* ===================================================================== *)

Lemma cache_consistent_dom (f : Filter) :
  cache_consistent f -> dom (_lineCache f) = _analyzedUris f.
Proof.
  intros Hc. apply set_eq. intros u. rewrite elem_of_dom.
  specialize (Hc u). destruct (_lineCache f !! u) eqn:E.
  - split; [|eauto]. intros _. destruct (decide (u ∈ _analyzedUris f)); [done|].
    by apply Hc in n.
  - split; [by intros [? ?]|]. intros Hu. by apply Hc in Hu.
Qed.

(** X16. Whatever was done to a filter since it was constructed, the
    number of cached documents that [getCacheStats] reports is the number
    of documents for which [isAnalyzed] is true, and the copy of the
    cache has an entry for exactly those documents. *)
Theorem cache_stats_count_analysed (rx : RegExp) (ident : string) (p : Z)
    (ops : list FilterOp) :
  let f := run_ops ops (Filter_new rx ident p) in
  (getCacheStats f).1 = size (_analyzedUris f)
  /\ forall uri, is_Some ((getCacheStats f).2 !! uri) <-> isAnalyzed uri f = true.
Proof.
  intros f.
  assert (Hdom : dom (_lineCache f) = _analyzedUris f).
  { apply cache_consistent_dom, cache_consistent_run_ops, cache_consistent_new. }
  split.
  - unfold getCacheStats. simpl. by rewrite <- Hdom, size_dom.
  - intros uri. unfold getCacheStats, isAnalyzed. simpl.
    rewrite bool_decide_eq_true, <- Hdom. symmetry. apply elem_of_dom.
Qed.

(* ===================================================================== *)
(** * Properties of the commands on a project                          *)
(* ===================================================================== *)

Lemma elem_of_keys_set (k x : string) (keys : list string) :
  x ∈ keys_set k keys <-> x = k \/ x ∈ keys.
Proof.
  unfold keys_set. destruct (decide (k ∈ keys)) as [Hin|Hnot].
  - split; [by right|]. by intros [->|?].
  - rewrite elem_of_app, list_elem_of_singleton. tauto.
Qed.

Lemma keys_set_NoDup (k : string) (keys : list string) :
  NoDup keys -> NoDup (keys_set k keys).
Proof.
  intros Hnd. unfold keys_set. destruct (decide (k ∈ keys)); [done|].
  apply NoDup_app. split; [done|]. split; [|apply NoDup_singleton].
  intros x Hx ->%list_elem_of_singleton. done.
Qed.

Lemma elem_of_keys_delete (k x : string) (keys : list string) :
  x ∈ keys_delete k keys <-> x <> k /\ x ∈ keys.
Proof.
  unfold keys_delete. rewrite elem_of_bfilter.
  rewrite negb_true_iff, bool_decide_eq_false. tauto.
Qed.

Lemma keys_delete_NoDup (k : string) (keys : list string) :
  NoDup keys -> NoDup (keys_delete k keys).
Proof.
  intros Hnd. apply NoDup_ListNoDup, List.NoDup_filter, NoDup_ListNoDup, Hnd.
Qed.

Lemma jsmap_alter_keys {V : Type} (f : V -> V) (k : string)
    (m : list (string * V)) :
  (jsmap_alter f k m).*1 = m.*1.
Proof.
  unfold jsmap_alter. induction m as [|e m IH]; [done|].
  cbn [map fmap list_fmap]. f_equal; [by case_bool_decide|exact IH].
Qed.

Lemma elem_of_jsmap_alter {V : Type} (f : V -> V) (k : string)
    (m : list (string * V)) (x : string) (v : V) :
  (x, v) ∈ jsmap_alter f k m ->
  exists v0, (x, v0) ∈ m /\ v = if bool_decide (x = k) then f v0 else v0.
Proof.
  unfold jsmap_alter. intros H. apply list_elem_of_fmap in H as ([x0 v0] & E & Hin).
  simpl in E. case_bool_decide as Hk.
  - injection E as -> ->. exists v0. by rewrite bool_decide_eq_true_2.
  - injection E as -> ->. exists v0. by rewrite bool_decide_eq_false_2.
Qed.

Lemma elem_of_jsmap_delete {V : Type} (k : string) (m : list (string * V))
    (e : string * V) :
  e ∈ jsmap_delete k m <-> e.1 <> k /\ e ∈ m.
Proof.
  unfold jsmap_delete. rewrite elem_of_bfilter.
  rewrite negb_true_iff, bool_decide_eq_false. tauto.
Qed.

Lemma jsmap_delete_keys_NoDup {V : Type} (k : string) (m : list (string * V)) :
  NoDup m.*1 -> NoDup (jsmap_delete k m).*1.
Proof.
  unfold jsmap_delete. induction m as [|e m IH]; simpl; [done|].
  intros [He Hm]%NoDup_cons. destruct (negb _); simpl; [|by apply IH].
  apply NoDup_cons. split; [|by apply IH].
  intros H. apply He. apply list_elem_of_fmap in H as (e' & -> & H).
  apply list_elem_of_fmap. exists e'. split; [done|].
  by apply elem_of_bfilter in H as [H _].
Qed.

Lemma elem_of_jsmap_set {V : Type} (k : string) (v : V)
    (m : list (string * V)) (e : string * V) :
  e ∈ jsmap_set k v m -> e = (k, v) \/ e ∈ m.
Proof.
  induction m as [|[k0 v0] m IH]; simpl.
  - intros ->%list_elem_of_singleton. by left.
  - destruct (decide (k = k0)) as [->|Hne].
    + intros [->|H]%elem_of_cons; [by left|]. right. by right.
    + intros [->|H]%elem_of_cons; [right; by left|].
      destruct (IH H) as [->|?]; [by left|]. right. by right.
Qed.

Lemma jsmap_set_same_keys_NoDup {V : Type} (k : string) (v : V)
    (m : list (string * V)) :
  NoDup m.*1 -> NoDup (jsmap_set k v m).*1.
Proof. apply jsmap_set_keys_NoDup. Qed.

Lemma consistent_heap (h h' : gmap string FilterObject) (keys : list string)
    (gs : list (string * Group.t)) :
  consistent h keys gs ->
  (forall k,
     match h !! k, h' !! k with
     | Some o, Some o' =>
         filter_id (this o') = filter_id (this o) /\ groupId o' = groupId o
     | None, None => True
     | _, _ => False
     end) ->
  consistent h' keys gs.
Proof.
  intros (H1 & H2 & H3 & H4 & H5 & H6) Hsame. split; [done|].
  split; [|split; [|split; [done|split]]].
  - intros k Hk. destruct (H2 k Hk) as [o Ho]. specialize (Hsame k).
    rewrite Ho in Hsame. destruct (h' !! k); [eauto|done].
  - intros k o' Ho'. specialize (Hsame k). rewrite Ho' in Hsame.
    destruct (h !! k) as [o|] eqn:Ho; [|done]. destruct Hsame as [E _].
    rewrite E. by apply H3.
  - intros gk g Hg. destruct (H5 gk g Hg) as (G1 & G2 & G3 & G4).
    split; [done|]. split; [done|]. split; [done|].
    intros k Hk. destruct (G4 k Hk) as (K1 & o & Ho & Hgid).
    split; [done|]. specialize (Hsame k). rewrite Ho in Hsame.
    destruct (h' !! k) as [o'|]; [|done]. destruct Hsame as [_ E].
    exists o'. split; [done|]. by rewrite E.
  - intros k o' gk g Hk Ho' Hgid Hg. specialize (Hsame k).
    rewrite Ho' in Hsame. destruct (h !! k) as [o|] eqn:Ho; [|done].
    destruct Hsame as [_ E]. apply (H6 k o gk g); congruence.
Qed.

Lemma on_filter_same (f : Filter -> Filter) (x : string)
    (h : gmap string FilterObject) :
  (forall g, filter_id (f g) = filter_id g) ->
  forall k,
    match h !! k, on_filter f x h !! k with
    | Some o, Some o' =>
        filter_id (this o') = filter_id (this o) /\ groupId o' = groupId o
    | None, None => True
    | _, _ => False
    end.
Proof.
  intros Hf k. unfold on_filter. destruct (decide (x = k)) as [->|Hne].
  - rewrite lookup_alter_eq. destruct (h !! k); simpl; auto.
  - rewrite lookup_alter_ne by done. destruct (h !! k); auto.
Qed.

Lemma consistent_on_filter (f : Filter -> Filter) (x : string)
    (h : gmap string FilterObject) (keys : list string)
    (gs : list (string * Group.t)) :
  (forall g, filter_id (f g) = filter_id g) ->
  consistent h keys gs -> consistent (on_filter f x h) keys gs.
Proof.
  intros Hf Hc. eapply consistent_heap; [exact Hc|]. by apply on_filter_same.
Qed.

Lemma consistent_groups_alter (f : Group.t -> Group.t) (x : string)
    (h : gmap string FilterObject) (keys : list string)
    (gs : list (string * Group.t)) :
  (forall g, Group.id (f g) = Group.id g
             /\ Group.filters (f g) = Group.filters g) ->
  consistent h keys gs -> consistent h keys (jsmap_alter f x gs).
Proof.
  intros Hf (H1 & H2 & H3 & H4 & H5 & H6).
  split; [done|]. split; [done|]. split; [done|].
  split; [by rewrite jsmap_alter_keys|]. split.
  - intros gk g Hg. apply elem_of_jsmap_alter in Hg as (g0 & Hg0 & ->).
    destruct (H5 gk g0 Hg0) as (G1 & G2 & G3 & G4).
    destruct (Hf g0) as [F1 F2].
    case_bool_decide; [|done]. rewrite F1, F2. done.
  - intros k o gk g Hk Ho Hgid Hg.
    apply elem_of_jsmap_alter in Hg as (g0 & Hg0 & ->).
    destruct (Hf g0) as [F1 F2].
    case_bool_decide; [rewrite F2|]; by eapply H6.
Qed.

Lemma editFilter_id (modePick : FilterMode) (p : list ascii) (f : Filter) :
  filter_id (editFilter modePick p f) = filter_id f.
Proof.
  unfold editFilter. destruct (compilePattern modePick p) as [[rx tp]|]; done.
Qed.

Lemma addFilter_id (modePick : FilterMode) (p : list ascii) (ident : string)
    (f : Filter) :
  addFilter modePick p ident = Some f -> filter_id f = ident.
Proof.
  unfold addFilter. destruct p; [done|].
  destruct (compilePattern modePick _) as [[rx tp]|]; [|done].
  by intros [= <-].
Qed.

Lemma integrity_addGroup (name stamp : string) (st : State) :
  (forall k o, heap st !! k = Some o ->
               groupId o <> Some (generateId "group" stamp)) ->
  integrity st -> integrity (addGroup name stamp st).
Proof.
  unfold integrity, addGroup. intros Hfresh.
  destruct (selectedProject st) as [project|] eqn:E; [|by rewrite E]. simpl.
  intros (H1 & H2 & H3 & H4 & H5 & H6).
  split; [done|]. split; [done|]. split; [done|].
  split; [by apply jsmap_set_keys_NoDup|]. split.
  - intros gk g Hg.
    apply elem_of_jsmap_set in Hg as [[= -> ->]|Hg]; [|by apply H5].
    simpl. split; [done|]. split; [done|]. split; [constructor|].
    by intros k ?%elem_of_nil.
  - intros k o gk g Hk Ho Hgid Hg.
    apply elem_of_jsmap_set in Hg as [[= -> ->]|Hg]; [|by eapply H6].
    by destruct (Hfresh k o Ho).
Qed.

Lemma integrity_editFilter (treeItem : string) (modePick : FilterMode)
    (p : list ascii) (st : State) :
  integrity st -> integrity (editFilter_command treeItem modePick p st).
Proof.
  unfold integrity, editFilter_command.
  destruct (selectedProject st) as [project|] eqn:E; [|by rewrite E].
  case_bool_decide; simpl; rewrite ?E; [|done].
  apply consistent_on_filter. apply editFilter_id.
Qed.

Lemma integrity_deleteFilter (treeItem : string) (st : State) :
  integrity st -> integrity (deleteFilter treeItem st).
Proof.
  unfold integrity, deleteFilter.
  destruct (selectedProject st) as [project|] eqn:E; [|by rewrite E].
  case_bool_decide; simpl; [|by rewrite E].
  intros (H1 & H2 & H3 & H4 & H5 & H6).
  split; [by apply keys_delete_NoDup|]. split; [|split; [done|split; [|split]]].
  - intros k [_ Hk]%elem_of_keys_delete. by apply H2.
  - rewrite <- list_fmap_compose.
    replace (fst ∘ _) with (fst : string * Group.t -> string); [done|].
    done.
  - intros gk g Hg. apply list_elem_of_fmap in Hg as ([gk0 g0] & [= -> ->] & Hg0).
    destruct (H5 gk0 g0 Hg0) as (G1 & G2 & G3 & G4). simpl.
    split; [done|]. split; [done|]. split; [by apply keys_delete_NoDup|].
    intros k [Hne Hk]%elem_of_keys_delete. destruct (G4 k Hk) as [K1 K2].
    split; [|done]. apply elem_of_keys_delete. done.
  - intros k o gk g [Hne Hk]%elem_of_keys_delete Ho Hgid Hg.
    apply list_elem_of_fmap in Hg as ([gk0 g0] & [= -> ->] & Hg0). simpl.
    apply elem_of_keys_delete. split; [done|]. by eapply H6.
Qed.

Lemma integrity_addFilter (treeItem : option string) (modePick : FilterMode)
    (p : list ascii) (stamp : string) (st : State) :
  heap st !! generateId "filter" stamp = None ->
  integrity st -> integrity (addFilter_command treeItem modePick p stamp st).
Proof.
  unfold integrity, addFilter_command. intros Hfresh.
  destruct (selectedProject st) as [project|] eqn:E; [|by rewrite E].
  destruct (addFilter modePick p (generateId "filter" stamp)) as [filter|] eqn:Ef;
    [|by rewrite E].
  apply addFilter_id in Ef. rewrite Ef. simpl.
  set (ident := generateId "filter" stamp) in *.
  set (group := match treeItem with
                | Some tid => jsmap_get tid (Project.groups project)
                | None => None
                end).
  set (groups' := match treeItem with
                  | Some tid =>
                      match group with
                      | Some _ =>
                          jsmap_alter
                            (fun g => group_with_filters
                                        (keys_set ident (Group.filters g)) g)
                            tid (Project.groups project)
                      | None => Project.groups project
                      end
                  | None => Project.groups project
                  end).
  intros (H1 & H2 & H3 & H4 & H5 & H6).
  assert (Hnew : forall k, k ∈ Project.filters project -> k <> ident).
  { intros k Hk ->. destruct (H2 ident Hk) as [o Ho]. congruence. }
  (* the groups afterwards: the target with the new filter, the others
     as they were *)
  assert (Hgroups : forall gk g, (gk, g) ∈ groups' ->
            exists g0, (gk, g0) ∈ Project.groups project
                       /\ Group.id g = Group.id g0
                       /\ NoDup (Group.filters g)
                       /\ (forall k, k <> ident ->
                             (k ∈ Group.filters g <-> k ∈ Group.filters g0))
                       /\ (ident ∈ Group.filters g
                           <-> Group.id <$> group = Some gk)).
  { assert (Hsame : forall gk g0, (gk, g0) ∈ Project.groups project ->
              Group.id <$> group <> Some gk \/ treeItem = None
              \/ group = None ->
              exists g1, (gk, g1) ∈ Project.groups project
                         /\ Group.id g0 = Group.id g1
                         /\ NoDup (Group.filters g0)
                         /\ (forall k, k <> ident ->
                               (k ∈ Group.filters g0 <-> k ∈ Group.filters g1))
                         /\ (ident ∈ Group.filters g0
                             <-> Group.id <$> group = Some gk)).
    { intros gk g0 Hg0 Hother. exists g0.
      destruct (H5 gk g0 Hg0) as (G1 & G2 & G3 & G4).
      split; [done|]. split; [done|]. split; [done|]. split; [done|]. split.
      - intros Hin. destruct (G4 ident Hin) as [K _]. by destruct (Hnew ident K).
      - intros Hgid. exfalso. destruct Hother as [Hne|[->|Hnone]]; [done|..].
        + done.
        + by rewrite Hnone in Hgid. }
    subst groups'. destruct treeItem as [tid|]; [|intros; apply Hsame; auto].
    destruct group as [gt|] eqn:Egt; [|intros; apply Hsame; auto].
    assert (Htid : Group.id gt = tid).
    { subst group. apply jsmap_get_elem_of in Egt.
      by destruct (H5 tid gt Egt) as [? _]. }
    intros gk g Hg. apply elem_of_jsmap_alter in Hg as (g0 & Hg0 & ->).
    destruct (H5 gk g0 Hg0) as (G1 & G2 & G3 & G4).
    case_bool_decide as Hgk.
    - subst gk. exists g0. simpl. split; [done|]. split; [done|].
      split; [by apply keys_set_NoDup|]. split.
      + intros k Hne. rewrite elem_of_keys_set. tauto.
      + rewrite elem_of_keys_set. split; [intros _; congruence|by left].
    - apply Hsame; [done|]. left. simpl. congruence. }
  split; [by apply keys_set_NoDup|]. split; [|split; [|split; [|split]]].
  - intros k [->|Hk]%elem_of_keys_set.
    + rewrite lookup_insert_eq. eauto.
    + apply lookup_insert_is_Some. destruct (decide (ident = k)); [by left|].
      right. split; [done|]. by apply H2.
  - intros k o [[<- <-]|[_ Ho]]%lookup_insert_Some; [done|]. by apply H3.
  - subst groups'. destruct treeItem as [tid|]; [|done].
    destruct group; [|done]. by rewrite jsmap_alter_keys.
  - intros gk g Hg. destruct (Hgroups gk g Hg) as (g0 & Hg0 & Hid & Hnd & Hold & Hin).
    destruct (H5 gk g0 Hg0) as (G1 & G2 & G3 & G4).
    split; [congruence|]. split; [done|]. split; [done|]. intros k Hk.
    destruct (decide (k = ident)) as [->|Hne].
    + split; [apply elem_of_keys_set; by left|]. rewrite lookup_insert_eq.
      eexists. split; [done|]. simpl. by apply Hin.
    + apply Hold in Hk; [|done]. destruct (G4 k Hk) as (K1 & o & Ho & Hgid).
      split; [apply elem_of_keys_set; by right|]. exists o.
      by rewrite lookup_insert_ne.
  - intros k o gk g Hk Ho Hgid Hg.
    destruct (Hgroups gk g Hg) as (g0 & Hg0 & Hid & Hnd & Hold & Hin).
    apply lookup_insert_Some in Ho as [[<- <-]|[Hne Ho]].
    + by apply Hin.
    + apply Hold; [done|]. apply elem_of_keys_set in Hk as [->|Hk]; [done|].
      by eapply H6.
Qed.

Lemma elem_of_delete_keys (ds keys : list string) (x : string) :
  x ∈ fold_left (fun keys k => keys_delete k keys) ds keys
  <-> x ∈ keys /\ x ∉ ds.
Proof.
  revert keys. induction ds as [|d ds IH]; intros keys; simpl.
  - split; [|by intros [? _]]. intros H. split; [done|]. apply not_elem_of_nil.
  - rewrite IH, elem_of_keys_delete, not_elem_of_cons. tauto.
Qed.

Lemma delete_keys_NoDup (ds keys : list string) :
  NoDup keys -> NoDup (fold_left (fun keys k => keys_delete k keys) ds keys).
Proof.
  revert keys. induction ds as [|d ds IH]; intros keys Hnd; simpl; [done|].
  by apply IH, keys_delete_NoDup.
Qed.

Lemma integrity_deleteGroup (treeItem : string) (st : State) :
  integrity st -> integrity (deleteGroup treeItem st).
Proof.
  unfold integrity, deleteGroup.
  destruct (selectedProject st) as [project|] eqn:E; [|by rewrite E].
  destruct (jsmap_get treeItem (Project.groups project)) as [group|] eqn:Eg;
    [|by rewrite E].
  simpl. intros (H1 & H2 & H3 & H4 & H5 & H6).
  apply jsmap_get_elem_of in Eg.
  split; [by apply delete_keys_NoDup|]. split; [|split; [done|split; [|split]]].
  - intros k [Hk _]%elem_of_delete_keys. by apply H2.
  - by apply jsmap_delete_keys_NoDup.
  - intros gk g [Hne Hg]%elem_of_jsmap_delete. simpl in Hne.
    destruct (H5 gk g Hg) as (G1 & G2 & G3 & G4).
    split; [done|]. split; [done|]. split; [done|]. intros k Hk.
    destruct (G4 k Hk) as (K1 & o & Ho & Hgid). split; [|eauto].
    apply elem_of_delete_keys. split; [done|]. intros Hk'.
    destruct (H5 treeItem group Eg) as (_ & _ & _ & G4').
    destruct (G4' k Hk') as (_ & o' & Ho' & Hgid'). congruence.
  - intros k o gk g [Hk _]%elem_of_delete_keys Ho Hgid [_ Hg]%elem_of_jsmap_delete.
    by eapply H6.
Qed.

Lemma consistent_on_filters (f : Filter -> Filter) (ks : list string)
    (keys : list string) (gs : list (string * Group.t)) :
  (forall g, filter_id (f g) = filter_id g) ->
  forall h,
    consistent h keys gs ->
    consistent (fold_left (fun h k => on_filter f k h) ks h) keys gs.
Proof.
  intros Hf. induction ks as [|k ks IH]; intros h Hc; simpl; [done|].
  by apply IH, consistent_on_filter.
Qed.

Lemma integrity_setFocusAction (action : FocusAction) (treeItem : string)
    (st : State) :
  integrity st -> integrity (setFocusAction action treeItem st).
Proof.
  unfold integrity, setFocusAction.
  destruct (selectedProject st) as [project|] eqn:E; [|by rewrite E].
  destruct (String.prefix "group-" treeItem).
  - destruct (jsmap_get treeItem (Project.groups project)) as [group|];
      [|by rewrite E].
    simpl. intros Hc. apply consistent_groups_alter; [done|].
    by apply consistent_on_filters.
  - destruct (String.prefix "filter-" treeItem); [|by rewrite E].
    case_bool_decide; simpl; rewrite ?E; [|done].
    by apply consistent_on_filter.
Qed.

Lemma keys_delete_idem (k : string) (keys : list string) :
  keys_delete k (keys_delete k keys) = keys_delete k keys.
Proof.
  unfold keys_delete. induction keys as [|x keys IH]; simpl; [done|].
  destruct (negb (bool_decide (x = k))) eqn:E; simpl; [rewrite E|]; by rewrite IH.
Qed.

Lemma keys_delete_absent (k : string) (keys : list string) :
  k ∉ keys -> keys_delete k keys = keys.
Proof.
  unfold keys_delete. induction keys as [|x keys IH]; simpl; [done|].
  intros [Hne Hk]%not_elem_of_cons. rewrite bool_decide_eq_false_2 by done.
  simpl. by rewrite IH.
Qed.

Lemma keys_delete_set (k : string) (keys : list string) :
  keys_delete k (keys_set k keys) = keys_delete k keys.
Proof.
  unfold keys_set. destruct (decide (k ∈ keys)); [done|].
  unfold keys_delete. rewrite List.filter_app. simpl.
  rewrite bool_decide_eq_true_2 by done. simpl. by rewrite app_nil_r.
Qed.

(** One step of the move: the objects keep their state, the dragged
    filter names the target, and it is in the map of a group exactly
    when that group is the target; the other keys of every group keep
    their order. *)
Lemma move_filter_spec (target : option string) (keys : list string)
    (h : gmap string FilterObject) (gs : list (string * Group.t))
    (d : string) :
  consistent h keys gs ->
  let r := move_filter target keys (h, gs) d in
  (forall k, this <$> r.1 !! k = this <$> h !! k)
  /\ (forall k, k <> d -> r.1 !! k = h !! k)
  /\ (d ∈ keys -> groupId <$> r.1 !! d = Some target)
  /\ (d ∉ keys -> r.1 !! d = h !! d)
  /\ r.2.*1 = gs.*1
  /\ forall gk g, (gk, g) ∈ r.2 ->
       exists g0, (gk, g0) ∈ gs
                  /\ Group.id g = Group.id g0
                  /\ NoDup (Group.filters g)
                  /\ keys_delete d (Group.filters g)
                     = keys_delete d (Group.filters g0)
                  /\ (d ∈ Group.filters g <-> d ∈ keys /\ target = Some gk).
Proof.
  intros Hc. destruct Hc as (H1 & H2 & H3 & H4 & H5 & H6).
  assert (Hstay : forall gk g, (gk, g) ∈ gs ->
            (d ∈ Group.filters g <-> d ∈ keys /\ exists o, h !! d = Some o /\ groupId o = Some gk)).
  { intros gk g Hg. split.
    - intros Hin. destruct (H5 gk g Hg) as (_ & _ & _ & G4).
      by apply G4.
    - intros (Hk & o & Ho & Hgid). by eapply H6. }
  unfold move_filter. case_bool_decide as Hkey.
  2:{ cbn [fst snd]. split; [done|]. split; [done|]. split; [done|].
      split; [done|]. split; [done|]. intros gk g Hg. exists g.
      destruct (H5 gk g Hg) as (G1 & G2 & G3 & G4).
      split; [done|]. split; [done|]. split; [done|]. split; [done|].
      rewrite (Hstay gk g Hg). tauto. }
  destruct (H2 d Hkey) as [o Ho]. rewrite Ho.
  case_bool_decide as Hsame.
  { cbn [fst snd]. split; [done|]. split; [done|].
    split; [intros _; by rewrite Ho; simpl; f_equal|].
    split; [done|]. split; [done|]. intros gk g Hg. exists g.
    destruct (H5 gk g Hg) as (G1 & G2 & G3 & G4).
    split; [done|]. split; [done|]. split; [done|]. split; [done|].
    rewrite (Hstay gk g Hg). split.
    - intros (_ & o' & Ho' & Hgid). split; [done|]. congruence.
    - intros [_ Ht]. split; [done|]. exists o. split; [done|]. congruence. }
  cbn [fst snd].
  assert (Hid : filter_id (this o) = d) by by apply H3.
  rewrite Hid.
  set (gs1 := match groupId o with
              | Some old =>
                  if truthy (groupId o)
                  then jsmap_alter
                         (fun g => group_with_filters
                                     (keys_delete d (Group.filters g)) g)
                         old gs
                  else gs
              | None => gs
              end).
  (* after the first step the filter is in no group *)
  assert (Hgs1 : gs1.*1 = gs.*1
                 /\ forall gk g, (gk, g) ∈ gs1 ->
                      exists g0, (gk, g0) ∈ gs
                                 /\ Group.id g = Group.id g0
                                 /\ NoDup (Group.filters g)
                                 /\ keys_delete d (Group.filters g)
                                    = keys_delete d (Group.filters g0)
                                 /\ d ∉ Group.filters g).
  { assert (Hbase : forall gk g, (gk, g) ∈ gs -> groupId o <> Some gk ->
              exists g0, (gk, g0) ∈ gs
                         /\ Group.id g = Group.id g0
                         /\ NoDup (Group.filters g)
                         /\ keys_delete d (Group.filters g)
                            = keys_delete d (Group.filters g0)
                         /\ d ∉ Group.filters g).
    { intros gk g Hg Hne. exists g. destruct (H5 gk g Hg) as (G1 & G2 & G3 & G4).
      split; [done|]. split; [done|]. split; [done|]. split; [done|].
      rewrite (Hstay gk g Hg). intros (_ & o' & Ho' & Hgid). congruence. }
    subst gs1. destruct (groupId o) as [old|] eqn:Hold.
    - destruct (truthy (Some old)) eqn:Ht.
      + split; [by rewrite jsmap_alter_keys|]. intros gk g Hg.
        apply elem_of_jsmap_alter in Hg as (g0 & Hg0 & ->).
        destruct (H5 gk g0 Hg0) as (G1 & G2 & G3 & G4).
        case_bool_decide as Hgk.
        * exists g0. simpl. split; [done|]. split; [done|].
          split; [by apply keys_delete_NoDup|].
          split; [by rewrite keys_delete_idem|].
          rewrite elem_of_keys_delete. tauto.
        * apply Hbase; [done|]. congruence.
      + split; [done|]. intros gk g Hg. apply Hbase; [done|].
        intros [= ->]. destruct (H5 gk g Hg) as (_ & G2 & _).
        simpl in Ht. apply negb_false_iff in Ht.
        by apply bool_decide_eq_true in Ht.
    - split; [done|]. intros gk g Hg. by apply Hbase. }
  clearbody gs1. destruct Hgs1 as [Hk1 Hg1].
  split; [|split; [|split; [|split; [|split]]]].
  - intros k. unfold set_groupId. destruct (decide (d = k)) as [->|Hne].
    + rewrite lookup_alter_eq. by destruct (h !! k).
    + by rewrite lookup_alter_ne.
  - intros k Hne. unfold set_groupId. by rewrite lookup_alter_ne.
  - intros _. unfold set_groupId. by rewrite lookup_alter_eq, Ho.
  - done.
  - destruct target as [new|]; [|done]. destruct (truthy (Some new)); [|done].
    by rewrite jsmap_alter_keys.
  - assert (Hrest : forall gk g, (gk, g) ∈ gs1 -> target <> Some gk ->
              exists g0, (gk, g0) ∈ gs
                         /\ Group.id g = Group.id g0
                         /\ NoDup (Group.filters g)
                         /\ keys_delete d (Group.filters g)
                            = keys_delete d (Group.filters g0)
                         /\ (d ∈ Group.filters g <-> d ∈ keys /\ target = Some gk)).
    { intros gk g Hg Hne. destruct (Hg1 gk g Hg) as (g0 & G0 & G1 & G2 & G3 & G4).
      exists g0. split; [done|]. split; [done|]. split; [done|].
      split; [done|]. tauto. }
    assert (Hfalsy : forall gk g, (gk, g) ∈ gs1 -> truthy (Some gk) = true).
    { intros gk g Hg. destruct (Hg1 gk g Hg) as (g0 & G0 & _).
      destruct (H5 gk g0 G0) as (_ & G2 & _). simpl.
      apply negb_true_iff. by apply bool_decide_eq_false. }
    destruct target as [new|]; [|intros; by apply Hrest].
    destruct (truthy (Some new)) eqn:Ht.
    + intros gk g Hg. apply elem_of_jsmap_alter in Hg as (g1 & Hg1' & ->).
      case_bool_decide as Hgk; [|apply Hrest; [done|congruence]].
      subst gk. destruct (Hg1 new g1 Hg1') as (g0 & G0 & G1 & G2 & G3 & G4).
      exists g0. simpl. split; [done|]. split; [done|].
      split; [by apply keys_set_NoDup|].
      split; [by rewrite keys_delete_set|].
      rewrite elem_of_keys_set. split; [done|]. intros _. by left.
    + intros gk g Hg. apply Hrest; [done|]. intros [= ->].
      rewrite (Hfalsy gk g Hg) in Ht. done.
Qed.

Lemma move_filter_consistent (target : option string) (keys : list string)
    (h : gmap string FilterObject) (gs : list (string * Group.t))
    (d : string) :
  consistent h keys gs ->
  consistent (move_filter target keys (h, gs) d).1 keys
    (move_filter target keys (h, gs) d).2.
Proof.
  intros Hc.
  destruct (move_filter_spec target keys h gs d Hc)
    as (S1 & S2 & S3 & S4 & S5 & S6).
  destruct Hc as (H1 & H2 & H3 & H4 & H5 & H6).
  set (r := move_filter target keys (h, gs) d) in *.
  split; [done|]. split; [|split; [|split; [|split]]].
  - intros k Hk. destruct (H2 k Hk) as [o Ho]. specialize (S1 k).
    rewrite Ho in S1. destruct (r.1 !! k); [eauto|done].
  - intros k o' Ho'. specialize (S1 k). rewrite Ho' in S1.
    destruct (h !! k) as [o|] eqn:Ho; [|done]. simpl in S1.
    injection S1 as S1. rewrite S1. by apply H3.
  - by rewrite S5.
  - intros gk g Hg. destruct (S6 gk g Hg) as (g0 & G0 & G1 & G2 & G3 & G4).
    destruct (H5 gk g0 G0) as (F1 & F2 & F3 & F4).
    split; [congruence|]. split; [done|]. split; [done|]. intros k Hk.
    destruct (decide (k = d)) as [->|Hne].
    + apply G4 in Hk as [Hk ->]. split; [done|].
      specialize (S3 Hk). destruct (r.1 !! d) as [o'|]; [|done].
      exists o'. split; [done|]. simpl in S3. congruence.
    + assert (Hk0 : k ∈ Group.filters g0).
      { assert (Hd : k ∈ keys_delete d (Group.filters g))
          by (apply elem_of_keys_delete; done).
        rewrite G3 in Hd. by apply elem_of_keys_delete in Hd as [_ ?]. }
      destruct (F4 k Hk0) as (K1 & o & Ho & Hgid). split; [done|].
      exists o. by rewrite S2.
  - intros k o' gk g Hk Ho' Hgid Hg.
    destruct (S6 gk g Hg) as (g0 & G0 & G1 & G2 & G3 & G4).
    destruct (decide (k = d)) as [->|Hne].
    + apply G4. split; [done|]. specialize (S3 Hk). rewrite Ho' in S3.
      simpl in S3. congruence.
    + rewrite S2 in Ho' by done.
      assert (Hk0 : k ∈ Group.filters g0) by by eapply H6.
      assert (Hd : k ∈ keys_delete d (Group.filters g0))
        by (apply elem_of_keys_delete; done).
      rewrite <- G3 in Hd. by apply elem_of_keys_delete in Hd as [_ ?].
Qed.

Lemma move_filters_consistent (target : option string) (keys : list string)
    (dragData : list string) :
  forall acc,
    consistent acc.1 keys acc.2 ->
    consistent (fold_left (move_filter target keys) dragData acc).1 keys
      (fold_left (move_filter target keys) dragData acc).2.
Proof.
  induction dragData as [|d ds IH]; intros [h gs] Hc; simpl; [done|].
  apply IH. by apply move_filter_consistent.
Qed.

Lemma reassign_consistent (n : nat) (remaining keys : list string)
    (gs : list (string * Group.t)) :
  forall i h,
    consistent h keys gs -> consistent (reassign n i remaining h) keys gs.
Proof.
  induction remaining as [|k rest IH]; intros i h Hc; simpl; [done|].
  by apply IH, consistent_on_filter.
Qed.

Lemma reassign_root_consistent (n : nat) (items : list Sortable)
    (keys : list string) :
  forall i acc,
    consistent acc.1 keys acc.2 ->
    consistent (reassign_root n i items keys acc).1 keys
      (reassign_root n i items keys acc).2.
Proof.
  induction items as [|item rest IH]; intros i [h gs] Hc; [done|].
  cbn [reassign_root]. apply IH. destruct (s_type item).
  - case_bool_decide; [|done]. simpl. by apply consistent_on_filter.
  - simpl. by apply consistent_groups_alter.
Qed.

Lemma integrity_handleDrop (target : DropTarget) (dragData : list string)
    (st : State) :
  integrity st -> integrity (handleDrop target dragData st).
Proof.
  unfold integrity, handleDrop.
  destruct (selectedProject st) as [project|] eqn:E; [|by rewrite E].
  intros Hc.
  pose proof (move_filters_consistent (targetGroupId target)
                (Project.filters project) dragData
                (heap st, Project.groups project) Hc) as Hmove.
  destruct (fold_left _ dragData _) as [h1 gs1]. simpl in Hmove.
  destruct (truthy (targetGroupId target)).
  - destruct (targetGroupId target) as [tg|]; [|done].
    destruct (jsmap_get tg gs1) as [group|]; [|done].
    simpl. by apply reassign_consistent.
  - pose proof (reassign_root_consistent
                  (length (root_order h1 project gs1 target dragData)) 
                  (root_order h1 project gs1 target dragData)
                  (Project.filters project) 0 (h1, gs1) Hmove) as Hroot.
    destruct (reassign_root _ _ _ _ _) as [h2 gs2]. done.
Qed.

Lemma integrity_run_command (st : State) (c : Command) :
  integrity st -> fresh st c -> integrity (run_command st c).
Proof.
  intros Hi Hf. destruct c; simpl in *.
  - by apply integrity_addGroup.
  - by apply integrity_addFilter.
  - by apply integrity_editFilter.
  - by apply integrity_deleteFilter.
  - by apply integrity_deleteGroup.
  - by apply integrity_setFocusAction.
  - by apply integrity_handleDrop.
Qed.

Lemma integrity_createProject (name : string) :
  integrity {| heap := ∅; selectedProject := Some (createProject name) |}.
Proof.
  unfold integrity. simpl. split; [constructor|].
  split; [by intros k ?%elem_of_nil|]. split; [by intros k o ?|].
  split; [constructor|]. split; [by intros gk g ?%elem_of_nil|].
  by intros k o gk g ?%elem_of_nil.
Qed.

Lemma integrity_run_commands (cs : list Command) (st : State) :
  integrity st -> all_fresh st cs -> integrity (fold_left run_command cs st).
Proof.
  revert st. induction cs as [|c cs IH]; intros st Hi Hf; simpl; [done|].
  destruct Hf as [Hc Hcs]. apply IH; [|exact Hcs].
  by apply integrity_run_command.
Qed.

Lemma group_commands_fresh : all_fresh new_state group_commands.
Proof.
  split; [by intros k o ?|]. split; [done|]. split; [|done].
  vm_compute. reflexivity.
Qed.

(** X17. A project stays consistent under every sequence of commands
    that starts from a consistent state of the selected project, a new
    project for one, as long as the generated identities are new: at
    every moment each filter in the map of a group is a filter of the
    project whose [groupId] is the identity of that group, each filter of
    the project that names a group of the project is in the map of that
    group, and no filter is in the maps of two groups. *)
Theorem project_integrity (cs : list Command) (st : State) :
  integrity st -> all_fresh st cs ->
  let st' := fold_left run_command cs st in
  integrity st'
  /\ forall project gk1 g1 gk2 g2 k,
       selectedProject st' = Some project ->
       (gk1, g1) ∈ Project.groups project ->
       (gk2, g2) ∈ Project.groups project ->
       k ∈ Group.filters g1 -> k ∈ Group.filters g2 ->
       gk1 = gk2 /\ g1 = g2.
Proof.
  intros Hi Hf st'.
  assert (Hi' : integrity st') by by apply integrity_run_commands.
  split; [exact Hi'|]. intros project gk1 g1 gk2 g2 k Hsel Hg1 Hg2 Hk1 Hk2.
  unfold integrity in Hi'. rewrite Hsel in Hi'.
  destruct Hi' as (_ & _ & _ & H4 & H5 & _).
  destruct (H5 gk1 g1 Hg1) as (_ & _ & _ & G1).
  destruct (H5 gk2 g2 Hg2) as (_ & _ & _ & G2).
  destruct (G1 k Hk1) as (_ & o1 & Ho1 & Hid1).
  destruct (G2 k Hk2) as (_ & o2 & Ho2 & Hid2).
  assert (gk1 = gk2) as -> by congruence. split; [done|].
  apply (jsmap_get_NoDup _ _ _ H4) in Hg1, Hg2. congruence.
Qed.

Lemma project_integrity_witness :
  integrity group_state
  /\ forall project gk1 g1 gk2 g2 k,
       selectedProject group_state = Some project ->
       (gk1, g1) ∈ Project.groups project ->
       (gk2, g2) ∈ Project.groups project ->
       k ∈ Group.filters g1 -> k ∈ Group.filters g2 ->
       gk1 = gk2 /\ g1 = g2.
Proof.
  apply (project_integrity group_commands new_state).
  - apply integrity_createProject.
  - apply group_commands_fresh.
Defined.

(* ===================================================================== *)
(** * The order of a group after a drop                                  *)
(* ===================================================================== *)

Lemma insert_by_priority_head (f : Filter) (l : list Filter) :
  Forall (fun g => (priority g < priority f)%Z) l ->
  insert_by_priority f l = f :: l.
Proof.
  destruct l as [|g l]; [done|]. intros [Hg _]%Forall_cons. simpl.
  by rewrite (proj2 (Z.ltb_lt _ _) Hg).
Qed.

Lemma insert_by_priority_filter (p : Filter -> bool) (f : Filter)
    (l : list Filter) :
  StronglySorted by_priority l ->
  List.filter p (insert_by_priority f l)
  = if p f then insert_by_priority f (List.filter p l) else List.filter p l.
Proof.
  induction l as [|g l IH]; intros Hs; simpl.
  - by destruct (p f).
  - apply StronglySorted_inv in Hs as [Hs Hg].
    destruct (priority g <? priority f)%Z eqn:E.
    + apply Z.ltb_lt in E.
      assert (Hall : Forall (fun g' => (priority g' < priority f)%Z)
                       (List.filter p (g :: l))).
      { apply Forall_forall. intros g' [Hin _]%elem_of_bfilter.
        apply elem_of_cons in Hin as [->|Hin]; [done|].
        rewrite Forall_forall in Hg. specialize (Hg g' Hin).
        unfold by_priority in Hg. lia. }
      cbn [List.filter]. destruct (p f); [|done].
      by rewrite insert_by_priority_head.
    + cbn [List.filter]. rewrite (IH Hs).
      destruct (p f), (p g); simpl; rewrite ?E; done.
Qed.

(** Sorting and then dropping filters is dropping them and then
    sorting: the sort is stable. *)
Lemma sort_by_priority_filter (p : Filter -> bool) (l : list Filter) :
  List.filter p (sort_by_priority l) = sort_by_priority (List.filter p l).
Proof.
  unfold sort_by_priority.
  assert (H : forall acc,
            StronglySorted by_priority acc ->
            StronglySorted by_priority
              (fold_left (fun acc f => insert_by_priority f acc) l acc)
            /\ List.filter p
                 (fold_left (fun acc f => insert_by_priority f acc) l acc)
               = fold_left (fun acc f => insert_by_priority f acc)
                   (List.filter p l) (List.filter p acc)).
  { induction l as [|f l IH]; intros acc Hs; simpl; [done|].
    destruct (IH (insert_by_priority f acc)) as [I1 I2].
    { by apply insert_by_priority_sorted. }
    split; [done|]. rewrite I2, insert_by_priority_filter by done.
    by destruct (p f). }
  apply H. constructor.
Qed.

Lemma values_cons (h : gmap string FilterObject) (k : string)
    (ks : list string) :
  values h (k :: ks)
  = match h !! k with
    | Some o => this o :: values h ks
    | None => values h ks
    end.
Proof. unfold values. simpl. by destruct (h !! k). Qed.

Lemma values_filter (h : gmap string FilterObject) (q : string -> bool)
    (ks : list string) :
  (forall k o, h !! k = Some o -> filter_id (this o) = k) ->
  List.filter (fun f => q (filter_id f)) (values h ks)
  = values h (List.filter q ks).
Proof.
  intros Hid. induction ks as [|k ks IH]; [done|].
  rewrite values_cons. cbn [List.filter].
  destruct (h !! k) as [o|] eqn:Ho.
  - cbn [List.filter]. rewrite (Hid k o Ho).
    destruct (q k); [|exact IH]. by rewrite values_cons, Ho, IH.
  - destruct (q k); [|exact IH]. by rewrite values_cons, Ho.
Qed.

Lemma values_ext (h h' : gmap string FilterObject) (ks : list string) :
  (forall k, k ∈ ks -> this <$> h' !! k = this <$> h !! k) ->
  values h' ks = values h ks.
Proof.
  induction ks as [|k ks IH]; intros H; [done|].
  rewrite !values_cons.
  assert (IH' : values h' ks = values h ks).
  { apply IH. intros k' Hk'. apply H. by right. }
  assert (Hk : this <$> h' !! k = this <$> h !! k) by (apply H; by left).
  destruct (h' !! k), (h !! k); simpl in Hk; try done.
  injection Hk as ->. by rewrite IH'.
Qed.

Lemma values_ids (h : gmap string FilterObject) (ks : list string) :
  (forall k o, h !! k = Some o -> filter_id (this o) = k) ->
  (forall k, k ∈ ks -> is_Some (h !! k)) ->
  map filter_id (values h ks) = ks.
Proof.
  intros Hid. induction ks as [|k ks IH]; intros H; [done|].
  rewrite values_cons. destruct (H k) as [o Ho]; [by left|]. rewrite Ho.
  cbn [map]. rewrite (Hid k o Ho). f_equal. apply IH.
  intros k' Hk'. apply H. by right.
Qed.

Lemma values_lookup (h : gmap string FilterObject) (ks : list string) :
  (forall k, k ∈ ks -> is_Some (h !! k)) ->
  forall j, values h ks !! j = (ks !! j) ≫= (fun k => this <$> h !! k).
Proof.
  induction ks as [|k ks IH]; intros H j; [done|].
  rewrite values_cons. destruct (H k) as [o Ho]; [by left|]. rewrite Ho.
  destruct j as [|j]; simpl; [by rewrite Ho|].
  apply IH. intros k' Hk'. apply H. by right.
Qed.

Lemma reassign_spec (n : nat) (ks : list string) :
  NoDup ks ->
  forall i h,
    (forall j k, ks !! j = Some k ->
       reassign n i ks h !! k
       = (fun o => {| this := set_priority
                                ((Z.of_nat n - Z.of_nat (i + j)) * 10) (this o);
                      groupId := groupId o |}) <$> h !! k)
    /\ (forall k, k ∉ ks -> reassign n i ks h !! k = h !! k).
Proof.
  induction ks as [|k0 ks IH]; intros Hnd i h; simpl.
  - split; [done|]. done.
  - apply NoDup_cons in Hnd as [Hk0 Hnd].
    destruct (IH Hnd (S i)
                (on_filter (set_priority ((Z.of_nat n - Z.of_nat i) * 10)) k0 h))
      as [I1 I2].
    split.
    + intros [|j] k Hj; simpl in Hj.
      * injection Hj as <-. rewrite I2 by done. unfold on_filter.
        rewrite lookup_alter_eq, Nat.add_0_r. done.
      * rewrite (I1 j k Hj). unfold on_filter.
        rewrite lookup_alter_ne.
        -- by replace (S i + j) with (i + S j) by lia.
        -- intros ->. apply Hk0. by eapply list_elem_of_lookup_2.
    + intros k [Hne Hk]%not_elem_of_cons. rewrite I2 by done.
      unfold on_filter. by rewrite lookup_alter_ne.
Qed.

Lemma find_index_ids (t : string) (l : list Filter) :
  find_index (fun f => bool_decide (filter_id f = t)) l
  = find_index (fun k => bool_decide (k = t)) (map filter_id l).
Proof.
  induction l as [|f l IH]; simpl; [done|].
  destruct (bool_decide (filter_id f = t)); [done|]. by rewrite IH.
Qed.

Lemma splice_map {A B : Type} (f : A -> B) (i : nat) (xs l : list A) :
  map f (splice i xs l) = splice i (map f xs) (map f l).
Proof.
  unfold splice. rewrite !map_app.
  change (map f (take i l)) with (f <$> take i l).
  change (map f (drop i l)) with (f <$> drop i l).
  by rewrite fmap_take, fmap_drop.
Qed.

Lemma splice_perm {A : Type} (i : nat) (xs l : list A) :
  splice i xs l ≡ₚ xs ++ l.
Proof.
  unfold splice. rewrite <- (take_drop i l) at 3.
  rewrite !app_assoc. apply Permutation_app_tail, Permutation_app_comm.
Qed.

Lemma filter_map_ids (q : string -> bool) (l : list Filter) :
  map filter_id (List.filter (fun f => q (filter_id f)) l)
  = List.filter q (map filter_id l).
Proof.
  induction l as [|f l IH]; simpl; [done|].
  destruct (q (filter_id f)); simpl; by rewrite IH.
Qed.

(** A list whose priorities fall strictly from each position to the
    next is what the sort returns for any arrangement of it. *)
Lemma sort_by_priority_unique (l l' : list Filter) :
  l ≡ₚ l' ->
  StronglySorted (fun f g => (priority g < priority f)%Z) l' ->
  sort_by_priority l = l'.
Proof.
  intros Hperm Hstrict.
  assert (Hinj : forall x1 x2, x1 ∈ l' -> x2 ∈ l' ->
                   priority x1 = priority x2 -> x1 = x2).
  { clear Hperm. induction Hstrict as [|f l' Hs IH Hf]; intros x1 x2 H1 H2 Hp.
    - by apply elem_of_nil in H1.
    - rewrite Forall_forall in Hf.
      apply elem_of_cons in H1 as [->|H1]; apply elem_of_cons in H2 as [->|H2].
      + done.
      + specialize (Hf x2 H2). lia.
      + specialize (Hf x1 H1). lia.
      + by apply IH. }
  apply (StronglySorted_unique_strong by_priority).
  - intros x1 x2 H1 H2 R1 R2. apply Hinj; [|done|unfold by_priority in *; lia].
    by rewrite <- Hperm, <- sort_by_priority_perm.
  - apply sort_by_priority_sorted.
  - clear Hperm Hinj. induction Hstrict as [|f l' Hs IH Hf]; constructor; [done|].
    eapply Forall_impl; [exact Hf|]. intros g. unfold by_priority. simpl. lia.
  - by rewrite sort_by_priority_perm.
Qed.

Lemma falling_sorted (n : nat) (l : list Filter) :
  forall i,
    (forall j f, l !! j = Some f ->
       priority f = ((Z.of_nat n - Z.of_nat (i + j)) * 10)%Z) ->
    StronglySorted (fun f g => (priority g < priority f)%Z) l.
Proof.
  induction l as [|f l IH]; intros i H; constructor.
  - apply (IH (S i)). intros j g Hj.
    rewrite (H (S j) g Hj). f_equal. lia.
  - apply Forall_forall. intros g Hg.
    apply list_elem_of_lookup in Hg as [j Hj].
    rewrite (H 0 f eq_refl), (H (S j) g Hj). lia.
Qed.

Lemma keys_delete_filter (q : string -> bool) (d : string) (l : list string) :
  keys_delete d (List.filter q l) = List.filter q (keys_delete d l).
Proof.
  unfold keys_delete. induction l as [|x l IH]; simpl; [done|].
  destruct (q x) eqn:Eq, (negb (bool_decide (x = d))) eqn:Ed; simpl;
    rewrite ?Eq, ?Ed, ?IH; done.
Qed.

Lemma filter_not_in_cons (d : string) (ds l : list string) :
  List.filter (fun k => negb (bool_decide (k ∈ d :: ds))) l
  = keys_delete d (List.filter (fun k => negb (bool_decide (k ∈ ds))) l).
Proof.
  unfold keys_delete. induction l as [|x l IH]; simpl; [done|].
  destruct (decide (x = d)) as [->|Hne].
  - rewrite (bool_decide_eq_true_2 (d ∈ d :: ds)) by by left. simpl.
    destruct (negb (bool_decide (d ∈ ds))); simpl;
      rewrite ?bool_decide_eq_true_2 by done; simpl; exact IH.
  - destruct (decide (x ∈ ds)) as [Hin|Hnot].
    + rewrite (bool_decide_eq_true_2 (x ∈ d :: ds)) by by right.
      rewrite (bool_decide_eq_true_2 (x ∈ ds)) by done. simpl. exact IH.
    + rewrite (bool_decide_eq_false_2 (x ∈ d :: ds)).
      2:{ intros [?|?]%elem_of_cons; done. }
      rewrite (bool_decide_eq_false_2 (x ∈ ds)) by done. simpl.
      rewrite (bool_decide_eq_false_2 (x = d)) by done. simpl. by rewrite IH.
Qed.

(** The first step of a drop, for all dragged filters. *)
Lemma move_filters_spec (target : option string) (keys : list string)
    (dragData : list string) :
  NoDup dragData ->
  forall h gs,
    consistent h keys gs ->
    let r := fold_left (move_filter target keys) dragData (h, gs) in
    (forall k, this <$> r.1 !! k = this <$> h !! k)
    /\ r.2.*1 = gs.*1
    /\ forall gk g, (gk, g) ∈ r.2 ->
         exists g0, (gk, g0) ∈ gs
                    /\ List.filter (fun k => negb (bool_decide (k ∈ dragData)))
                         (Group.filters g)
                       = List.filter (fun k => negb (bool_decide (k ∈ dragData)))
                           (Group.filters g0)
                    /\ forall d, d ∈ dragData ->
                         (d ∈ Group.filters g <-> d ∈ keys /\ target = Some gk).
Proof.
  induction dragData as [|d ds IH]; intros Hnd h gs Hc.
  - simpl. split; [done|]. split; [done|]. intros gk g Hg. exists g.
    split; [done|]. split; [done|]. by intros d ?%elem_of_nil.
  - apply NoDup_cons in Hnd as [Hd Hnd]. cbn [fold_left].
    destruct (move_filter_spec target keys h gs d Hc)
      as (S1 & _ & _ & _ & S5 & S6).
    pose proof (move_filter_consistent target keys h gs d Hc) as Hc'.
    destruct (move_filter target keys (h, gs) d) as [h' gs'].
    simpl in S1, S5, S6, Hc'.
    destruct (IH Hnd h' gs' Hc') as (I1 & I2 & I3).
    split; [|split].
    + intros k. by rewrite I1.
    + by rewrite I2.
    + intros gk g Hg. destruct (I3 gk g Hg) as (g' & Hg' & Hf & Hm).
      destruct (S6 gk g' Hg') as (g0 & Hg0 & _ & _ & Hdel & Hmd).
      exists g0. split; [done|]. split.
      * rewrite !filter_not_in_cons, Hf, !keys_delete_filter. by rewrite Hdel.
      * intros d' [->|Hd']%elem_of_cons; [|by apply Hm].
        rewrite <- Hmd.
        assert (Hiff : forall l, d ∈ l
                  <-> d ∈ List.filter (fun k => negb (bool_decide (k ∈ ds))) l).
        { intros l. rewrite elem_of_bfilter, negb_true_iff, bool_decide_eq_false.
          tauto. }
        by rewrite (Hiff (Group.filters g)), Hf, <- Hiff.
Qed.

Lemma dragged_values (h : gmap string FilterObject) (keys dragData : list string) :
  (forall d, d ∈ dragData -> d ∈ keys) ->
  omap (fun d => if bool_decide (d ∈ keys) then this <$> h !! d else None)
    dragData
  = values h dragData.
Proof.
  induction dragData as [|d ds IH]; intros H; [done|].
  rewrite values_cons. cbn [omap list_omap].
  rewrite bool_decide_eq_true_2 by (apply H; by left).
  assert (IH' := IH (fun d' Hd' => H d' (proj2 (elem_of_cons _ _ _) (or_intror Hd')))).
  destruct (h !! d); simpl; by rewrite <- IH'.
Qed.

(** X18. A drop on a group, or on a filter of a group, of distinct
    filters of the project: afterwards the group holds its former
    filters and the dragged ones; the filter at position [i] of the new
    order (the other filters in the order shown before, the dragged ones
    in front of the target filter, or in front of all when the target is
    the group) has the priority [(n - i) * 10] clamped to 100; with at
    most ten filters the group is shown in exactly this order. *)
Theorem drop_in_group_order (st : State) (project : Project.t)
    (target : DropTarget) (tg : string) (group : Group.t)
    (dragData : list string) :
  integrity st ->
  selectedProject st = Some project ->
  targetGroupId target = Some tg ->
  jsmap_get tg (Project.groups project) = Some group ->
  NoDup dragData ->
  (forall d, d ∈ dragData -> d ∈ Project.filters project) ->
  let rest :=
    List.filter (fun k => negb (bool_decide (k ∈ dragData)))
      (map filter_id (getSortedFiltersInGroup (heap st) group)) in
  let order :=
    splice (insert_index (fun k => bool_decide (k = targetFilterId target)) rest)
      dragData rest in
  let st' := handleDrop target dragData st in
  exists project' group',
    selectedProject st' = Some project'
    /\ jsmap_get tg (Project.groups project') = Some group'
    /\ Group.filters group' ≡ₚ order
    /\ (forall i k, order !! i = Some k ->
          exists o, heap st' !! k = Some o
                    /\ priority (this o)
                       = clamp_priority
                           ((Z.of_nat (length order) - Z.of_nat i) * 10))
    /\ (length order <= 10 ->
        map filter_id (getSortedFiltersInGroup (heap st') group') = order).
Proof.
  intros Hint Hsel Htarget Hgroup Hnd Hdrag rest order st'.
  unfold integrity in Hint. rewrite Hsel in Hint.
  set (keys := Project.filters project) in *.
  set (gs := Project.groups project) in *.
  set (h := heap st) in *.
  destruct (move_filters_spec (Some tg) keys dragData Hnd h gs Hint)
    as (M1 & M2 & M3).
  pose proof (move_filters_consistent (Some tg) keys dragData (h, gs) Hint)
    as Hc1.
  destruct (fold_left (move_filter (Some tg) keys) dragData (h, gs))
    as [h1 gs1] eqn:Efold.
  simpl in M1, M2, M3, Hc1.
  apply jsmap_get_elem_of in Hgroup as Hgin.
  destruct Hint as (H1 & H2 & H3 & H4 & H5 & H6).
  destruct (H5 tg group Hgin) as (G1 & G2 & G3 & G4).
  (* the group after the move *)
  assert (Hg1 : exists g1, (tg, g1) ∈ gs1).
  { assert (Hk : tg ∈ gs1.*1).
    { rewrite M2. apply list_elem_of_fmap. by exists (tg, group). }
    apply list_elem_of_fmap in Hk as ([k g1] & -> & Hk). by exists g1. }
  destruct Hg1 as [g1 Hg1].
  destruct Hc1 as (C1 & C2 & C3 & C4 & C5 & C6).
  assert (Hget1 : jsmap_get tg gs1 = Some g1) by by apply jsmap_get_NoDup.
  destruct (M3 tg g1 Hg1) as (g0 & Hg0 & Hfilter & Hmember).
  assert (g0 = group) as ->.
  { apply (jsmap_get_NoDup _ _ _ H4) in Hg0, Hgin. congruence. }
  destruct (C5 tg g1 Hg1) as (F1 & _ & F3 & F4).
  set (q := fun k : string => negb (bool_decide (k ∈ dragData))) in *.
  (* the order computed by the second step *)
  assert (Hshown : map filter_id (sort_by_priority (values h (Group.filters group)))
                   ≡ₚ Group.filters group).
  { change (map filter_id ?l) with (filter_id <$> l).
    rewrite sort_by_priority_perm.
    change (filter_id <$> ?l) with (map filter_id l).
    rewrite values_ids; [done|exact H3|].
    intros k Hk. apply H2. by apply G4. }
  assert (Horder : drop_order h1 keys g1 target dragData = order).
  { unfold drop_order. rewrite splice_map. unfold insert_index.
    rewrite find_index_ids.
    rewrite dragged_values by done.
    rewrite (values_ids h1 dragData C3) by (intros d Hd; by apply C2, Hdrag).
    assert (Hrest : map filter_id
                      (List.filter
                         (fun f => negb (bool_decide (filter_id f ∈ dragData)))
                         (sort_by_priority (values h1 (Group.filters g1))))
                    = rest).
    { rewrite sort_by_priority_filter.
      rewrite (values_filter h1 q _ C3).
      rewrite (values_ext h h1) by (intros; apply M1).
      rewrite Hfilter.
      rewrite <- (values_filter h q _ H3).
      rewrite <- sort_by_priority_filter.
      by rewrite (filter_map_ids q). }
    by rewrite Hrest. }
  assert (Hrest_in : forall k, k ∈ rest <-> k ∈ Group.filters group /\ k ∉ dragData).
  { intros k. unfold rest, getSortedFiltersInGroup. rewrite elem_of_bfilter.
    rewrite Hshown. unfold q. rewrite negb_true_iff, bool_decide_eq_false. done. }
  assert (Hnd_order : NoDup order).
  { unfold order. rewrite splice_perm. apply NoDup_app. split; [done|]. split.
    - intros k Hk Hr. apply Hrest_in in Hr. tauto.
    - unfold rest, getSortedFiltersInGroup.
      apply NoDup_ListNoDup, List.NoDup_filter, NoDup_ListNoDup.
      by rewrite Hshown. }
  assert (Hperm : Group.filters g1 ≡ₚ order).
  { apply NoDup_Permutation; [done|done|]. intros k. unfold order.
    rewrite splice_perm, elem_of_app, Hrest_in.
    destruct (decide (k ∈ dragData)) as [Hin|Hnot].
    - rewrite (Hmember k Hin). split; [tauto|]. intros _. split; [|done].
      by apply Hdrag.
    - assert (Hiff : forall l, k ∈ l <-> k ∈ List.filter q l).
      { intros l. unfold q.
        rewrite elem_of_bfilter, negb_true_iff, bool_decide_eq_false. tauto. }
      rewrite (Hiff (Group.filters g1)), Hfilter, <- Hiff. tauto. }
  (* the state after the drop *)
  assert (Hst' : st' = {| heap := reassign (length order) 0 order h1;
                          selectedProject := Some (project_with keys gs1 project) |}).
  { unfold st', handleDrop. rewrite Hsel, Htarget.
    fold keys. fold gs. fold h. rewrite Efold. cbn [truthy].
    rewrite bool_decide_eq_false_2 by done. cbn [negb].
    rewrite Hget1, Horder. done. }
  rewrite Hst'. cbn [heap selectedProject].
  destruct (reassign_spec (length order) order Hnd_order 0 h1) as [R1 R2].
  assert (Hpresent : forall k, k ∈ order -> is_Some (h1 !! k)).
  { intros k Hk. apply C2. rewrite <- Hperm in Hk. by apply F4. }
  exists (project_with keys gs1 project), g1.
  split; [done|]. split; [done|]. split; [done|]. split.
  - intros i k Hi. rewrite (R1 i k Hi).
    destruct (Hpresent k) as [o Ho]; [by eapply list_elem_of_lookup_2|].
    rewrite Ho. eexists. split; [done|]. done.
  - intros Hlen. unfold getSortedFiltersInGroup.
    set (h2 := reassign (length order) 0 order h1) in *.
    assert (Hc2 : consistent h2 keys gs1).
    { apply reassign_consistent. done. }
    destruct Hc2 as (_ & D2 & D3 & _).
    assert (Hpresent2 : forall k, k ∈ order -> is_Some (h2 !! k)).
    { intros k Hk. apply D2. rewrite <- Hperm in Hk. by apply F4. }
    rewrite (sort_by_priority_unique _ (values h2 order)).
    + by apply values_ids.
    + unfold values. by rewrite Hperm.
    + apply (falling_sorted (length order) _ 0). intros j f Hj.
      rewrite values_lookup in Hj by done.
      destruct (order !! j) as [k|] eqn:Hk; [|done]. simpl in Hj.
      rewrite (R1 j k Hk) in Hj.
      destruct (h1 !! k) as [o|]; [|done]. simpl in Hj. injection Hj as <-.
      apply lookup_lt_Some in Hk.
      unfold priority, set_priority, clamp_priority. simpl. lia.
Qed.

Lemma drop_in_group_order_witness :
  let target := OnFilter "filter-2" (Some "group-1"%string) in
  let dragData := ["filter-3"%string] in
  let rest :=
    List.filter (fun k => negb (bool_decide (k ∈ dragData)))
      (map filter_id (getSortedFiltersInGroup (heap group_state) errors_group)) in
  let order :=
    splice (insert_index (fun k => bool_decide (k = targetFilterId target)) rest)
      dragData rest in
  let st' := handleDrop target dragData group_state in
  exists project' group',
    selectedProject st' = Some project'
    /\ jsmap_get "group-1"%string (Project.groups project') = Some group'
    /\ Group.filters group' ≡ₚ order
    /\ (forall i k, order !! i = Some k ->
          exists o, heap st' !! k = Some o
                    /\ priority (this o)
                       = clamp_priority
                           ((Z.of_nat (length order) - Z.of_nat i) * 10))
    /\ (length order <= 10 ->
        map filter_id (getSortedFiltersInGroup (heap st') group') = order).
Proof.
  apply (drop_in_group_order group_state logs_project
           (OnFilter "filter-2" (Some "group-1"%string)) "group-1" errors_group
           ["filter-3"%string]).
  - apply integrity_run_commands;
      [apply integrity_createProject|apply group_commands_fresh].
  - vm_compute. reflexivity.
  - reflexivity.
  - reflexivity.
  - apply NoDup_singleton.
  - intros d ->%list_elem_of_singleton. right. left.
Defined.

(* ===================================================================== *)
(** * Properties of saving and loading a project                       *)
(* ===================================================================== *)

Lemma parse_loop_open (rest : list ascii) (st : pstate) :
  parse_loop ("("%char :: rest) st
  = match rest with
    | c1 :: k :: rest' =>
        if Ascii.eqb c1 "?" then
          if Ascii.eqb k ":"
          then parse_loop rest' (open_group GNonCapture (ps_ngroups st) st)
          else if Ascii.eqb k "="
          then parse_loop rest' (open_group (GLook false) (ps_ngroups st) st)
          else if Ascii.eqb k "!"
          then parse_loop rest' (open_group (GLook true) (ps_ngroups st) st)
          else None
        else parse_loop rest
               (open_group (GCapture (S (ps_ngroups st))) (S (ps_ngroups st)) st)
    | _ => parse_loop rest
             (open_group (GCapture (S (ps_ngroups st))) (S (ps_ngroups st)) st)
    end.
Proof.
  destruct rest as [|c1 [|k rest']].
  - reflexivity.
  - destruct c1 as [[] [] [] [] [] [] [] []]; reflexivity.
  - destruct c1 as [[] [] [] [] [] [] [] []]; reflexivity.
Qed.

Lemma escape_source_cons (c : ascii) (rest : list ascii) :
  escape_source (c :: rest)
  = if Ascii.eqb c backslash then
      match rest with
      | d :: rest' => c :: d :: escape_source rest'
      | [] => [c]
      end
    else if Ascii.eqb c "/" then backslash :: "/"%char :: escape_source rest
    else if Ascii.eqb c "010" then backslash :: "n"%char :: escape_source rest
    else if Ascii.eqb c "013" then backslash :: "r"%char :: escape_source rest
    else c :: escape_source rest.
Proof. reflexivity. Qed.

(** The character a source starts with, for a pattern that does not start
    with a question mark. *)
Lemma escape_source_head (c : ascii) (rest : list ascii) :
  c <> "?"%char ->
  exists d tl, escape_source (c :: rest) = d :: tl /\ d <> "?"%char.
Proof.
  intros Hc. rewrite escape_source_cons.
  destruct (Ascii.eqb c backslash) eqn:E0.
  { apply Ascii.eqb_eq in E0 as ->. destruct rest; eexists _, _; split; done. }
  destruct (Ascii.eqb c "/"); [eexists _, _; split; done|].
  destruct (Ascii.eqb c "010"); [eexists _, _; split; done|].
  destruct (Ascii.eqb c "013"); [eexists _, _; split; done|].
  eexists _, _; split; done.
Qed.

(** The parser reads a pattern and its source alike. *)
Lemma parse_loop_escape_source (n : nat) :
  forall p st, length p <= n ->
    parse_loop (escape_source p) st = parse_loop p st.
Proof.
  induction n as [|n IH]; intros p st Hlen.
  { destruct p; [done|simpl in Hlen; lia]. }
  destruct p as [|c rest]; [done|]. simpl in Hlen.
  assert (IH1 : forall st', parse_loop (escape_source rest) st' = parse_loop rest st')
    by (intros; apply IH; lia).
  rewrite escape_source_cons.
  destruct (Ascii.eqb c backslash) eqn:E0.
  { apply Ascii.eqb_eq in E0 as ->. destruct rest as [|d rest']; [done|].
    simpl in Hlen.
    assert (IH2 : forall st', parse_loop (escape_source rest') st'
                              = parse_loop rest' st')
      by (intros; apply IH; lia).
    cbn [parse_loop]. change (Ascii.eqb backslash backslash) with true.
    cbv iota. rewrite !IH2. done. }
  destruct (Ascii.eqb c "/") eqn:E1.
  { apply Ascii.eqb_eq in E1 as ->.
    change (parse_loop (backslash :: "/"%char :: escape_source rest) st)
      with (parse_loop (escape_source rest) (push_term (RChar "/") true st)).
    change (parse_loop ("/"%char :: rest) st)
      with (parse_loop rest (push_term (RChar "/") true st)).
    apply IH1. }
  destruct (Ascii.eqb c "010") eqn:E2.
  { apply Ascii.eqb_eq in E2 as ->.
    change (parse_loop (backslash :: "n"%char :: escape_source rest) st)
      with (parse_loop (escape_source rest) (push_term (RChar "010") true st)).
    change (parse_loop ("010"%char :: rest) st)
      with (parse_loop rest (push_term (RChar "010") true st)).
    apply IH1. }
  destruct (Ascii.eqb c "013") eqn:E3.
  { apply Ascii.eqb_eq in E3 as ->.
    change (parse_loop (backslash :: "r"%char :: escape_source rest) st)
      with (parse_loop (escape_source rest) (push_term (RChar "013") true st)).
    change (parse_loop ("013"%char :: rest) st)
      with (parse_loop rest (push_term (RChar "013") true st)).
    apply IH1. }
  destruct (Ascii.eqb c "(") eqn:E4.
  { apply Ascii.eqb_eq in E4 as ->. rewrite !parse_loop_open.
    destruct rest as [|c1 rest1]; [done|].
    destruct (Ascii.eqb c1 "?") eqn:Eq.
    - apply Ascii.eqb_eq in Eq as ->.
      destruct rest1 as [|k rest']; [done|]. simpl in Hlen.
      assert (IH2 : forall st', parse_loop (escape_source rest') st'
                                = parse_loop rest' st')
        by (intros; apply IH; lia).
      change (escape_source ("?"%char :: k :: rest'))
        with ("?"%char :: escape_source (k :: rest')).
      rewrite (escape_source_cons k).
      change (Ascii.eqb "?" "?") with true. cbv iota.
      destruct (Ascii.eqb k backslash) eqn:K0.
      { apply Ascii.eqb_eq in K0 as ->. by destruct rest'. }
      destruct (Ascii.eqb k "/") eqn:K1.
      { by apply Ascii.eqb_eq in K1 as ->. }
      destruct (Ascii.eqb k "010") eqn:K2.
      { by apply Ascii.eqb_eq in K2 as ->. }
      destruct (Ascii.eqb k "013") eqn:K3.
      { by apply Ascii.eqb_eq in K3 as ->. }
      rewrite !IH2. done.
    - assert (Hc1 : c1 <> "?"%char).
      { intros ->. discriminate Eq. }
      destruct (escape_source_head c1 rest1 Hc1) as (d & tl & Hsrc & Hd).
      assert (Hd' : Ascii.eqb d "?" = false) by by apply Ascii.eqb_neq.
      rewrite Hsrc. 
      assert (Hleft : match d :: tl with
                      | c2 :: k :: rest' =>
                          if Ascii.eqb c2 "?" then
                            if Ascii.eqb k ":"
                            then parse_loop rest'
                                   (open_group GNonCapture (ps_ngroups st) st)
                            else if Ascii.eqb k "="
                            then parse_loop rest'
                                   (open_group (GLook false) (ps_ngroups st) st)
                            else if Ascii.eqb k "!"
                            then parse_loop rest'
                                   (open_group (GLook true) (ps_ngroups st) st)
                            else None
                          else parse_loop (d :: tl)
                                 (open_group (GCapture (S (ps_ngroups st)))
                                    (S (ps_ngroups st)) st)
                      | _ => parse_loop (d :: tl)
                               (open_group (GCapture (S (ps_ngroups st)))
                                  (S (ps_ngroups st)) st)
                      end
                      = parse_loop (d :: tl)
                          (open_group (GCapture (S (ps_ngroups st)))
                             (S (ps_ngroups st)) st)).
      { destruct tl; [done|]. by rewrite Hd'. }
      rewrite Hleft, <- Hsrc, IH1.
      destruct rest1; [done|]. rewrite ?Eq. done. }
  (* every other character is read alone *)
  cbn [parse_loop]. rewrite E0, E4.
  destruct (Ascii.eqb c ")"); [by destruct (close_group st)|].
  destruct (Ascii.eqb c "|"); [done|].
  destruct (Ascii.eqb c "*"); [by destruct (quantify RStar st)|].
  destruct (Ascii.eqb c "+"); [by destruct (quantify RPlus st)|].
  destruct (Ascii.eqb c "?"); [by destruct (quantify ROpt st)|].
  destruct (Ascii.eqb c "."); [done|].
  destruct (Ascii.eqb c "^"); [done|].
  destruct (Ascii.eqb c "$"); [done|].
  destruct (Ascii.eqb c "[" || Ascii.eqb c "{"); [done|].
  done.
Qed.

Lemma escape_source_idem (n : nat) :
  forall p, length p <= n -> escape_source (escape_source p) = escape_source p.
Proof.
  induction n as [|n IH]; intros p Hlen.
  { destruct p; [done|simpl in Hlen; lia]. }
  destruct p as [|c rest]; [done|]. simpl in Hlen.
  assert (IH1 : escape_source (escape_source rest) = escape_source rest)
    by (apply IH; lia).
  rewrite (escape_source_cons c).
  destruct (Ascii.eqb c backslash) eqn:E0.
  { apply Ascii.eqb_eq in E0 as ->. destruct rest as [|d rest']; [done|].
    simpl in Hlen. rewrite escape_source_cons.
    change (Ascii.eqb backslash backslash) with true. cbv iota.
    rewrite IH by lia. done. }
  destruct (Ascii.eqb c "/") eqn:E1.
  { rewrite escape_source_cons.
    change (Ascii.eqb backslash backslash) with true. cbv iota.
    by rewrite IH1. }
  destruct (Ascii.eqb c "010") eqn:E2.
  { rewrite escape_source_cons.
    change (Ascii.eqb backslash backslash) with true. cbv iota.
    by rewrite IH1. }
  destruct (Ascii.eqb c "013") eqn:E3.
  { rewrite escape_source_cons.
    change (Ascii.eqb backslash backslash) with true. cbv iota.
    by rewrite IH1. }
  rewrite escape_source_cons, E0, E1, E2, E3, IH1. done.
Qed.

Lemma escape_source_nonempty (c : ascii) (rest : list ascii) :
  escape_source (c :: rest) <> [].
Proof.
  rewrite escape_source_cons.
  destruct (Ascii.eqb c backslash); [by destruct rest|].
  destruct (Ascii.eqb c "/"); [done|].
  destruct (Ascii.eqb c "010"); [done|].
  destruct (Ascii.eqb c "013"); done.
Qed.

(** Compiling the source of an expression gives the expression back. *)
Lemma RegExp_new_source (p : list ascii) (g m : bool) (rx : RegExp) :
  RegExp_new p g m = Some rx -> RegExp_new (source rx) g m = Some rx.
Proof.
  unfold RegExp_new. destruct (parse p) as [[r n]|] eqn:Ep; [|done].
  intros [= <-]. cbn [source]. destruct p as [|c rest].
  - injection Ep as <- <-. reflexivity.
  - unfold source_of at 1 2.
    unfold parse. rewrite (parse_loop_escape_source (length (c :: rest))) by done.
    fold (parse (c :: rest)). rewrite Ep. f_equal.
    unfold source_of. pose proof (escape_source_nonempty c rest) as Hne.
    destruct (escape_source (c :: rest)) as [|d tl] eqn:E; [done|].
    rewrite <- E, (escape_source_idem (length (c :: rest))) by done. done.
Qed.

Lemma load_filter_saved (new_RegExp : RegExpConstructor) (color : list N)
    (o : FilterObject) (stamp : string) :
  source_round_trip new_RegExp ->
  loadable new_RegExp (this o) ->
  Filter_throws (Some color) = false ->
  load_filter new_RegExp (save_filter color o) stamp
  = Some (reloaded (generateId "filter" stamp) (this o)).
Proof.
  intros Hsource [Hp [p Hrx]] Hcolor. unfold load_filter.
  cbn [pf_regex pf_color save_filter].
  rewrite (Hsource p _ Hrx), Hcolor. cbn.
  unfold reloaded. f_equal. f_equal.
  unfold priority in *. rewrite clamp_priority_cases.
  destruct (Z.ltb_spec (_priority (this o)) 0); [lia|].
  destruct (Z.ltb_spec 100 (_priority (this o))); [lia|done].
Qed.

Lemma load_filter_id (new_RegExp : RegExpConstructor) (f : ParsedFilter)
    (stamp : string) (filter : Filter) :
  load_filter new_RegExp f stamp = Some filter ->
  filter_id filter = generateId "filter" stamp.
Proof.
  unfold load_filter. destruct (new_RegExp _ _ _); [|done].
  destruct (Filter_throws _); [done|]. by intros [= <-].
Qed.

(** A new filter object enters the project, and the group it names if
    the project has that group. *)
Lemma consistent_add_object (h : gmap string FilterObject) (keys : list string)
    (gs : list (string * Group.t)) (f : Filter) (gid : option string) :
  consistent h keys gs ->
  h !! filter_id f = None ->
  consistent
    (<[filter_id f := {| this := f; groupId := gid |}]> h)
    (keys_set (filter_id f) keys)
    match gid with
    | Some g =>
        if truthy gid && bool_decide (g ∈ gs.*1)
        then jsmap_alter
               (fun gr => group_with_filters
                            (keys_set (filter_id f) (Group.filters gr)) gr)
               g gs
        else gs
    | None => gs
    end.
Proof.
  intros (H1 & H2 & H3 & H4 & H5 & H6) Hfresh.
  set (ident := filter_id f) in *.
  set (gs' := match gid with
              | Some g =>
                  if truthy gid && bool_decide (g ∈ gs.*1)
                  then jsmap_alter
                         (fun gr => group_with_filters
                                      (keys_set ident (Group.filters gr)) gr)
                         g gs
                  else gs
              | None => gs
              end).
  assert (Hnew : forall k, k ∈ keys -> k <> ident).
  { intros k Hk ->. destruct (H2 ident Hk) as [o Ho]. congruence. }
  assert (Hgroups : gs'.*1 = gs.*1
            /\ forall gk g, (gk, g) ∈ gs' ->
                 exists g0, (gk, g0) ∈ gs
                            /\ Group.id g = Group.id g0
                            /\ NoDup (Group.filters g)
                            /\ (forall k, k <> ident ->
                                  (k ∈ Group.filters g <-> k ∈ Group.filters g0))
                            /\ (ident ∈ Group.filters g <-> gid = Some gk)).
  { assert (Hsame : forall gk g0, (gk, g0) ∈ gs -> gid <> Some gk ->
              exists g1, (gk, g1) ∈ gs
                         /\ Group.id g0 = Group.id g1
                         /\ NoDup (Group.filters g0)
                         /\ (forall k, k <> ident ->
                               (k ∈ Group.filters g0 <-> k ∈ Group.filters g1))
                         /\ (ident ∈ Group.filters g0 <-> gid = Some gk)).
    { intros gk g0 Hg0 Hother. exists g0.
      destruct (H5 gk g0 Hg0) as (G1 & G2 & G3 & G4).
      split; [done|]. split; [done|]. split; [done|]. split; [done|].
      split; [|done].
      intros Hin. destruct (G4 ident Hin) as [K _]. by destruct (Hnew ident K). }
    assert (Hhas : forall gk g0, (gk, g0) ∈ gs ->
              truthy (Some gk) && bool_decide (gk ∈ gs.*1) = true).
    { intros gk g0 Hg0. destruct (H5 gk g0 Hg0) as (_ & G2 & _).
      apply andb_true_iff. split.
      - simpl. apply negb_true_iff. by apply bool_decide_eq_false.
      - apply bool_decide_eq_true, list_elem_of_fmap. by exists (gk, g0). }
    subst gs'. destruct gid as [gt|].
    2:{ split; [done|]. intros gk g0 Hg0. by apply Hsame. }
    destruct (truthy (Some gt) && bool_decide (gt ∈ gs.*1)) eqn:Ehas.
    2:{ split; [done|]. intros gk g0 Hg0. apply Hsame; [done|].
        intros [= ->]. by rewrite (Hhas gk g0 Hg0) in Ehas. }
    split; [by rewrite jsmap_alter_keys|].
    intros gk g Hg. apply elem_of_jsmap_alter in Hg as (g0 & Hg0 & ->).
    destruct (H5 gk g0 Hg0) as (G1 & G2 & G3 & G4).
    destruct (decide (gk = gt)) as [Hgk|Hgk];
      [rewrite (bool_decide_eq_true_2 (gk = gt)) by done
      |rewrite (bool_decide_eq_false_2 (gk = gt)) by done].
    - exists g0. simpl. split; [done|]. split; [done|].
      split; [by apply keys_set_NoDup|]. split.
      + intros k Hne. rewrite elem_of_keys_set. tauto.
      + rewrite elem_of_keys_set. split; [intros _; congruence|by left].
    - apply Hsame; [done|]. congruence. }
  destruct Hgroups as [Hkeys Hgroups].
  split; [by apply keys_set_NoDup|]. split; [|split; [|split; [|split]]].
  - intros k [->|Hk]%elem_of_keys_set.
    + rewrite lookup_insert_eq. eauto.
    + apply lookup_insert_is_Some. destruct (decide (ident = k)); [by left|].
      right. split; [done|]. by apply H2.
  - intros k o [[<- <-]|[_ Ho]]%lookup_insert_Some; [done|]. by apply H3.
  - by rewrite Hkeys.
  - intros gk g Hg. destruct (Hgroups gk g Hg) as (g0 & Hg0 & Hid & Hnd & Hold & Hin).
    destruct (H5 gk g0 Hg0) as (G1 & G2 & G3 & G4).
    split; [congruence|]. split; [done|]. split; [done|]. intros k Hk.
    destruct (decide (k = ident)) as [->|Hne].
    + split; [apply elem_of_keys_set; by left|]. rewrite lookup_insert_eq.
      eexists. split; [done|]. simpl. by apply Hin.
    + apply Hold in Hk; [|done]. destruct (G4 k Hk) as (K1 & o & Ho & Hgid).
      split; [apply elem_of_keys_set; by right|]. exists o.
      by rewrite lookup_insert_ne.
  - intros k o gk g Hk Ho Hgid Hg.
    destruct (Hgroups gk g Hg) as (g0 & Hg0 & Hid & Hnd & Hold & Hin).
    apply lookup_insert_Some in Ho as [[<- <-]|[Hne Ho]].
    + by apply Hin.
    + apply Hold; [done|]. apply elem_of_keys_set in Hk as [->|Hk]; [done|].
      by eapply H6.
Qed.

Lemma generateId_inj (category s1 s2 : string) :
  generateId category s1 = generateId category s2 -> s1 = s2.
Proof.
  unfold generateId. induction category as [|c category IH]; cbn; intros H.
  - by injection H.
  - injection H as H. by apply IH.
Qed.

Lemma generateId_nonempty (stamp : string) :
  generateId "group" stamp <> EmptyString.
Proof. done. Qed.

(** The groups of the current format, once loaded: distinct keys, each
    group under its identity, which is not empty, and no filter yet. *)
Lemma load_groups_consistent (gstamp : nat -> string)
    (igs : list (nat * ParsedGroup)) :
  forall gs,
    consistent ∅ [] gs -> consistent ∅ [] (fold_left (load_group gstamp) igs gs).
Proof.
  induction igs as [|ig igs IH]; intros gs Hc; simpl; [done|].
  apply IH. destruct Hc as (H1 & H2 & H3 & H4 & H5 & H6).
  split; [done|]. split; [done|]. split; [done|].
  split; [by apply jsmap_set_keys_NoDup|]. split.
  - intros gk g Hg. unfold load_group in Hg.
    apply elem_of_jsmap_set in Hg as [[= -> ->]|Hg]; [|by apply H5].
    cbn. split; [done|]. split; [|split; [constructor|by intros k ?%elem_of_nil]].
    destruct (pg_id ig.2) as [i|]; simpl; [|done].
    case_bool_decide as Hi; simpl; [done|done].
  - by intros k o gk g ?%elem_of_nil.
Qed.

Lemma load_failed (new_RegExp : RegExpConstructor) (fstamp : nat -> string)
    (fs : list ParsedFilter) :
  fold_left (load_one new_RegExp fstamp) fs None = None.
Proof. induction fs as [|f fs IH]; [done|exact IH]. Qed.

Lemma load_one_step (new_RegExp : RegExpConstructor) (fstamp : nat -> string)
    (l : Loading) (f : ParsedFilter) (filter : Filter) :
  load_filter new_RegExp f (fstamp (l_count l)) = Some filter ->
  load_one new_RegExp fstamp (Some l) f
  = Some {| l_heap := <[filter_id filter :=
                          {| this := filter; groupId := pf_groupId f |}]>
                        (l_heap l);
            l_filters := keys_set (filter_id filter) (l_filters l);
            l_groups :=
              match pf_groupId f with
              | Some g =>
                  if truthy (pf_groupId f) && bool_decide (g ∈ (l_groups l).*1)
                  then jsmap_alter
                         (fun gr => group_with_filters
                                      (keys_set (filter_id filter)
                                         (Group.filters gr)) gr)
                         g (l_groups l)
                  else l_groups l
              | None => l_groups l
              end;
            l_count := S (l_count l) |}.
Proof.
  intros Hf. unfold load_one. rewrite Hf. by destruct (pf_groupId f).
Qed.

(** What is known while the filters are loaded: the project built so
    far is consistent and its objects are the filters constructed so
    far. *)
Lemma load_one_invariant (new_RegExp : RegExpConstructor)
    (fstamp : nat -> string) (l l1 : Loading) (f : ParsedFilter) :
  (forall i j, fstamp i = fstamp j -> i = j) ->
  consistent (l_heap l) (l_filters l) (l_groups l) ->
  (forall k, is_Some (l_heap l !! k) ->
             exists i, i < l_count l /\ k = loaded_id fstamp i) ->
  load_one new_RegExp fstamp (Some l) f = Some l1 ->
  consistent (l_heap l1) (l_filters l1) (l_groups l1)
  /\ (forall k, is_Some (l_heap l1 !! k) ->
                exists i, i < l_count l1 /\ k = loaded_id fstamp i)
  /\ l_count l1 = S (l_count l)
  /\ l_filters l1 = l_filters l ++ [loaded_id fstamp (l_count l)]
  /\ (exists filter,
        load_filter new_RegExp f (fstamp (l_count l)) = Some filter
        /\ l_heap l1
           = <[loaded_id fstamp (l_count l) :=
                 {| this := filter; groupId := pf_groupId f |}]> (l_heap l))
  /\ l_heap l !! loaded_id fstamp (l_count l) = None
  /\ Forall2 (fun e e' => e'.1 = e.1 /\ same_group e.2 e'.2)
       (l_groups l) (l_groups l1).
Proof.
  intros Hinj Hc Hdom Hload.
  destruct (load_filter new_RegExp f (fstamp (l_count l)))
    as [filter|] eqn:Hf.
  2:{ unfold load_one in Hload. by rewrite Hf in Hload. }
  rewrite (load_one_step _ _ _ _ _ Hf) in Hload.
  apply (inj Some) in Hload. subst l1.
  pose proof (load_filter_id _ _ _ _ Hf) as Hid. fold (loaded_id fstamp (l_count l)) in Hid.
  assert (Hfresh : l_heap l !! loaded_id fstamp (l_count l) = None).
  { destruct (l_heap l !! loaded_id fstamp (l_count l)) eqn:E; [|done].
    destruct (Hdom (loaded_id fstamp (l_count l))) as (i & Hi & Heq); [eauto|].
    apply generateId_inj, Hinj in Heq. lia. }
  cbn [l_heap l_filters l_groups l_count]. rewrite Hid.
  split; [|split; [|split; [done|split; [|split; [|split; [done|]]]]]].
  - rewrite <- Hid. apply consistent_add_object; [done|by rewrite Hid].
  - intros k [<-|[_ Hk]]%lookup_insert_is_Some.
    + exists (l_count l). split; [lia|done].
    + destruct (Hdom k Hk) as (i & Hi & ->). exists i. split; [lia|done].
  - unfold keys_set. rewrite decide_False; [done|].
    intros Hin. destruct Hc as (_ & H2 & _). destruct (H2 _ Hin) as [o Ho].
    congruence.
  - by exists filter.
  - assert (Hrefl : Forall2 (fun e e' => e'.1 = e.1 /\ same_group e.2 e'.2)
                      (l_groups l) (l_groups l)).
    { apply Forall_Forall2_diag, Forall_forall. intros e _. repeat split. }
    destruct (pf_groupId f) as [g|]; [|done].
    destruct (truthy (Some g) && bool_decide (g ∈ (l_groups l).*1)); [|done].
    unfold jsmap_alter. apply Forall2_fmap_r, Forall_Forall2_diag, Forall_forall.
    intros e _. unfold compose. cbv beta.
    destruct (bool_decide (e.1 = g)); simpl; repeat split.
Qed.

Lemma load_filters_invariant (new_RegExp : RegExpConstructor)
    (fstamp : nat -> string) :
  (forall i j, fstamp i = fstamp j -> i = j) ->
  forall fs l l',
    consistent (l_heap l) (l_filters l) (l_groups l) ->
    (forall k, is_Some (l_heap l !! k) ->
               exists i, i < l_count l /\ k = loaded_id fstamp i) ->
    fold_left (load_one new_RegExp fstamp) fs (Some l) = Some l' ->
    consistent (l_heap l') (l_filters l') (l_groups l').
Proof.
  intros Hinj. induction fs as [|f fs IH]; intros l l' Hc Hdom; cbn [fold_left].
  - by intros [= <-].
  - destruct (load_one new_RegExp fstamp (Some l) f) as [l1|] eqn:E1.
    2:{ by rewrite load_failed. }
    destruct (load_one_invariant new_RegExp fstamp l l1 f Hinj Hc Hdom E1)
      as (C1 & D1 & _).
    by apply IH.
Qed.

Lemma consistent_empty : consistent ∅ [] [].
Proof.
  split; [constructor|]. split; [by intros k ?%elem_of_nil|].
  split; [by intros k o ?|]. split; [constructor|].
  split; [by intros gk g ?%elem_of_nil|]. by intros k o gk g ?%elem_of_nil.
Qed.

Lemma unary_stamp_inj (i j : nat) : unary_stamp i = unary_stamp j -> i = j.
Proof.
  revert j. induction i as [|i IH]; intros [|j]; simpl; try done.
  intros [= H]. f_equal. by apply IH.
Qed.

(** X19. For every constructor of expressions: whenever [loadProject]
    returns a project for a file of the current format (one with a
    [filters] array, or without [groups]) whose fields have the types
    [saveProject] writes, the project is consistent, whatever groups and
    filters the file lists: every group is stored under its identity,
    which is not empty, every filter of a group is a filter of the
    project that names the group, and every filter that names a group of
    the project is in it. *)
Theorem loaded_project_consistent (new_RegExp : RegExpConstructor)
    (parsed : ParsedProject) (gstamp fstamp : nat -> string)
    (h : gmap string FilterObject) (project : Project.t) :
  (forall i j, fstamp i = fstamp j -> i = j) ->
  pp_groups parsed = None \/ pp_filters parsed <> None ->
  loadProject new_RegExp parsed gstamp fstamp = Some (h, project) ->
  consistent h (Project.filters project) (Project.groups project).
Proof.
  intros Hinj Hformat. unfold loadProject.
  assert (Hfold : forall gs filters l',
            consistent ∅ [] gs ->
            fold_left (load_one new_RegExp fstamp) filters
              (Some {| l_heap := ∅; l_filters := []; l_groups := gs;
                       l_count := 0 |}) = Some l' ->
            consistent (l_heap l') (l_filters l') (l_groups l')).
  { intros gs filters l' Hgs E.
    eapply (load_filters_invariant new_RegExp fstamp Hinj); [| |exact E];
      [done|].
    by intros k [o Ho]. }
  destruct (pp_groups parsed) as [groups|] eqn:Eg,
           (pp_filters parsed) as [filters|] eqn:Ef; cbv zeta.
  - destruct (fold_left (load_one new_RegExp fstamp) filters _)
      as [l'|] eqn:E; [|done].
    intros [= <- <-]. simpl. eapply Hfold; [|exact E].
    apply load_groups_consistent, consistent_empty.
  - by destruct Hformat.
  - destruct (fold_left (load_one new_RegExp fstamp) filters _)
      as [l'|] eqn:E; [|done].
    intros [= <- <-]. simpl. eapply Hfold; [|exact E]. apply consistent_empty.
  - intros [= <- <-]. apply consistent_empty.
Qed.

Lemma loaded_project_consistent_witness :
  exists h project,
    loadProject RegExp_new flags_file unary_stamp unary_stamp
    = Some (h, project)
    /\ Project.filters project
       = [generateId "filter" (unary_stamp 0);
          generateId "filter" (unary_stamp 1)]
    /\ consistent h (Project.filters project) (Project.groups project).
Proof.
  assert (Hkeys :
            match loadProject RegExp_new flags_file unary_stamp unary_stamp with
            | Some (h, project) =>
                Project.filters project
                = [generateId "filter" (unary_stamp 0);
                   generateId "filter" (unary_stamp 1)]
            | None => False
            end) by (vm_compute; reflexivity).
  destruct (loadProject RegExp_new flags_file unary_stamp unary_stamp)
    as [[h project]|] eqn:E; [|done].
  exists h, project. split; [done|]. split; [exact Hkeys|].
  apply (loaded_project_consistent RegExp_new flags_file unary_stamp
           unary_stamp);
    [apply unary_stamp_inj|right; discriminate|exact E].
Defined.

Lemma load_filter_None (new_RegExp : RegExpConstructor) (f : ParsedFilter)
    (stamp : string) :
  load_filter new_RegExp f stamp = None
  <-> new_RegExp (pf_regex f) false false = None
      \/ Filter_throws (pf_color f) = true.
Proof.
  unfold load_filter. destruct (new_RegExp _ _ _); [|by split; [left|]].
  destruct (Filter_throws _); [by split; [right|]|].
  split; [done|]. by intros [|].
Qed.

Lemma load_one_fold_None (new_RegExp : RegExpConstructor)
    (fstamp : nat -> string) (fs : list ParsedFilter) (l : Loading) :
  fold_left (load_one new_RegExp fstamp) fs (Some l) = None
  <-> exists f, f ∈ fs
                /\ (new_RegExp (pf_regex f) false false = None
                    \/ Filter_throws (pf_color f) = true).
Proof.
  revert l. induction fs as [|f fs IH]; intros l.
  - split; [done|]. by intros (f & ?%elem_of_nil & _).
  - cbn [fold_left].
    destruct (load_filter new_RegExp f (fstamp (l_count l)))
      as [filter|] eqn:E.
    + rewrite (load_one_step _ _ _ _ _ E), IH. split.
      * intros (f' & Hin & Hf'). exists f'. split; [by right|done].
      * intros (f' & [->|Hin]%elem_of_cons & Hf').
        -- apply (load_filter_None _ _ (fstamp (l_count l))) in Hf'.
           congruence.
        -- by exists f'.
    + assert (load_one new_RegExp fstamp (Some l) f = None) as ->.
      { unfold load_one. by rewrite E. }
      rewrite load_failed. split; [|done]. intros _. exists f.
      split; [by left|]. by eapply load_filter_None.
Qed.

(** X20. For every constructor of expressions: a file of the current
    format fails to load, giving [null] and no project at all, exactly
    when, for one of its filters, [new RegExp] refuses the expression or
    the constructor of [Filter] throws on the colour (a colour without
    the [hsl] form that has a character [btoa] refuses); nothing else in
    such a file makes the load fail. *)
Theorem load_fails_on_bad_filter (new_RegExp : RegExpConstructor)
    (parsed : ParsedProject) (gstamp fstamp : nat -> string) :
  pp_groups parsed = None \/ pp_filters parsed <> None ->
  loadProject new_RegExp parsed gstamp fstamp = None
  <-> exists f, f ∈ default [] (pp_filters parsed)
                /\ (new_RegExp (pf_regex f) false false = None
                    \/ (exists color,
                          pf_color f = Some color /\ color <> []
                          /\ has_hsl color = false
                          /\ exists u, u ∈ color /\ (255 < u)%N)).
Proof.
  intros Hformat.
  assert (Hthrows : forall f,
            Filter_throws (pf_color f) = true
            <-> exists color,
                  pf_color f = Some color /\ color <> []
                  /\ has_hsl color = false
                  /\ exists u, u ∈ color /\ (255 < u)%N).
  { intros f. unfold Filter_throws, createColorPair.
    destruct (pf_color f) as [[|c rest]|].
    - split; [done|]. by intros (color & [= <-] & Hne & _).
    - destruct (has_hsl (c :: rest)) eqn:Eh; cbn [generateSvgIcon_throws].
      + split; [done|]. intros (color & [= <-] & _ & Hh & _). congruence.
      + rewrite existsb_exists. split.
        * intros (u & Hin & Hu). exists (c :: rest).
          split; [done|]. split; [done|]. split; [done|].
          exists u. split; [by apply list_elem_of_In|by apply N.ltb_lt].
        * intros (color & [= <-] & _ & _ & u & Hin & Hu).
          exists u. split; [by apply list_elem_of_In|by apply N.ltb_lt].
    - split; [done|]. by intros (color & ? & _). }
  assert (Hfold : forall filters l,
            fold_left (load_one new_RegExp fstamp) filters (Some l) = None
            <-> exists f, f ∈ filters
                  /\ (new_RegExp (pf_regex f) false false = None
                      \/ (exists color,
                            pf_color f = Some color /\ color <> []
                            /\ has_hsl color = false
                            /\ exists u, u ∈ color /\ (255 < u)%N))).
  { intros filters l. rewrite load_one_fold_None.
    split; intros (f & Hin & Hf); exists f; (split; [done|]);
      (destruct Hf as [Hf|Hf]; [by left|right; by apply Hthrows]). }
  unfold loadProject.
  destruct (pp_groups parsed) as [groups|] eqn:Eg,
           (pp_filters parsed) as [filters|] eqn:Ef; cbv zeta.
  - cbn [default].
    rewrite <- (Hfold filters
                  {| l_heap := ∅; l_filters := [];
                     l_groups := fold_left (load_group gstamp) (indexed groups) [];
                     l_count := 0 |}).
    by destruct (fold_left (load_one new_RegExp fstamp) _ _).
  - by destruct Hformat.
  - cbn [default].
    rewrite <- (Hfold filters
                  {| l_heap := ∅; l_filters := []; l_groups := [];
                     l_count := 0 |}).
    by destruct (fold_left (load_one new_RegExp fstamp) _ _).
  - cbn [default]. split; [done|]. by intros (f & ?%elem_of_nil & _).
Qed.

Lemma load_fails_on_bad_filter_witness :
  loadProject RegExp_new broken_file unary_stamp unary_stamp = None
  /\ loadProject RegExp_new smudged_file unary_stamp unary_stamp = None.
Proof.
  split.
  - apply (load_fails_on_bad_filter RegExp_new broken_file unary_stamp
             unary_stamp); [right; discriminate|].
    exists {| pf_id := None; pf_regex := js "(a"; pf_color := None;
              pf_priority := None;
              pf_focusAction := None; pf_isExclude := None;
              pf_isShown := None; pf_mode := None;
              pf_textPattern := None; pf_groupId := None |}.
    split; [by apply (list_elem_of_lookup_2 _ 2)|].
    left. vm_compute. reflexivity.
  - apply (load_fails_on_bad_filter RegExp_new smudged_file unary_stamp
             unary_stamp); [right; discriminate|].
    exists {| pf_id := None; pf_regex := js "b";
              pf_color := Some (units "red" ++ [8364%N]);
              pf_priority := None;
              pf_focusAction := None; pf_isExclude := None;
              pf_isShown := None; pf_mode := None;
              pf_textPattern := None; pf_groupId := None |}.
    split; [by apply (list_elem_of_lookup_2 _ 0)|].
    right. exists (units "red" ++ [8364%N]).
    split; [done|]. split; [done|]. split; [vm_compute; reflexivity|].
    exists 8364%N. split; [|done].
    apply (list_elem_of_lookup_2 _ 3). reflexivity.
Defined.

Lemma jsmap_set_fresh {V : Type} (k : string) (v : V) (m : list (string * V)) :
  k ∉ m.*1 -> jsmap_set k v m = m ++ [(k, v)].
Proof.
  induction m as [|[k0 v0] m IH]; simpl; [done|].
  intros [Hne Hk]%not_elem_of_cons. rewrite decide_False by done.
  by rewrite IH.
Qed.

Lemma load_saved_group (gstamp : nat -> string) (i : nat) (g : Group.t)
    (acc : list (string * Group.t)) :
  Group.id g <> EmptyString ->
  load_group gstamp acc (i, save_group g)
  = jsmap_set (Group.id g) (group_with_filters [] g) acc.
Proof.
  intros Hid. unfold load_group. cbn.
  rewrite (bool_decide_eq_false_2 (Group.id g = EmptyString)) by done.
  reflexivity.
Qed.

(** The groups that [saveProject] wrote are loaded in their order, each
    under its identity and without filters. *)
Lemma load_saved_groups (gstamp : nat -> string) (gs : list (string * Group.t)) :
  forall a acc,
    NoDup (acc.*1 ++ gs.*1) ->
    (forall gk g, (gk, g) ∈ gs -> Group.id g = gk /\ gk <> EmptyString) ->
    fold_left (load_group gstamp)
      (zip (seq a (length gs)) (map (fun e => save_group e.2) gs)) acc
    = acc ++ map (fun e => (e.1, group_with_filters [] e.2)) gs.
Proof.
  induction gs as [|[gk g] gs IH]; intros a acc Hnd Hgs.
  - by rewrite app_nil_r.
  - destruct (Hgs gk g) as [Hid Hne]; [by left|].
    cbn [length seq map zip zip_with fold_left snd fst].
    rewrite load_saved_group by congruence. rewrite Hid.
    cbn [fmap list_fmap fst] in Hnd.
    rewrite jsmap_set_fresh.
    2:{ apply NoDup_app in Hnd as (_ & Hd & _). intros Hin.
        apply (Hd gk Hin). by left. }
    rewrite IH.
    + by rewrite <- app_assoc.
    + rewrite fmap_app. cbn [fmap list_fmap fst]. by rewrite <- app_assoc.
    + intros gk' g' Hg'. apply Hgs. by right.
Qed.

Lemma same_groups_trans (a b c : list (string * Group.t)) :
  Forall2 (fun e e' => e'.1 = e.1 /\ same_group e.2 e'.2) a b ->
  Forall2 (fun e e' => e'.1 = e.1 /\ same_group e.2 e'.2) b c ->
  Forall2 (fun e e' => e'.1 = e.1 /\ same_group e.2 e'.2) a c.
Proof.
  intros Hab. revert c. induction Hab as [|x y a b Hxy Hab IH]; intros c Hbc.
  - by inversion Hbc.
  - inversion Hbc as [|y' z b' c' Hyz Hbc']; subst. constructor; [|by apply IH].
    destruct Hxy as [A1 (A2 & A3 & A4 & A5 & A6)].
    destruct Hyz as [B1 (B2 & B3 & B4 & B5 & B6)].
    split; [congruence|]. repeat split; congruence.
Qed.

(** The filters that [saveProject] wrote are loaded one by one: each
    becomes a new object with the state it was saved with. *)
Lemma load_saved_filters (new_RegExp : RegExpConstructor)
    (fstamp : nat -> string) :
  source_round_trip new_RegExp ->
  (forall i j, fstamp i = fstamp j -> i = j) ->
  forall (cos : list (list N * FilterObject)) l,
    consistent (l_heap l) (l_filters l) (l_groups l) ->
    (forall k, is_Some (l_heap l !! k) ->
               exists i, i < l_count l /\ k = loaded_id fstamp i) ->
    Forall (fun co => loadable new_RegExp (this co.2)
                      /\ Filter_throws (Some co.1) = false) cos ->
    exists l',
      fold_left (load_one new_RegExp fstamp)
        (map (fun co => save_filter co.1 co.2) cos) (Some l) = Some l'
      /\ consistent (l_heap l') (l_filters l') (l_groups l')
      /\ l_filters l'
         = l_filters l ++ map (loaded_id fstamp) (seq (l_count l) (length cos))
      /\ (forall j co, cos !! j = Some co ->
            l_heap l' !! loaded_id fstamp (l_count l + j)
            = Some {| this := reloaded (loaded_id fstamp (l_count l + j))
                                (this co.2);
                      groupId := groupId co.2 |})
      /\ (forall k, is_Some (l_heap l !! k) -> l_heap l' !! k = l_heap l !! k)
      /\ Forall2 (fun e e' => e'.1 = e.1 /\ same_group e.2 e'.2)
           (l_groups l) (l_groups l').
Proof.
  intros Hsource Hinj. induction cos as [|[c o] cos IH]; intros l Hc Hdom Hos.
  - exists l. split; [done|]. split; [done|]. split; [by rewrite app_nil_r|].
    split; [done|]. split; [done|].
    apply Forall_Forall2_diag, Forall_forall. intros e _. repeat split.
  - apply Forall_cons in Hos as [[Ho Hcol] Hos]. cbn [map fold_left fst snd].
    cbn [fst snd] in Ho, Hcol.
    pose proof (load_filter_saved new_RegExp c o (fstamp (l_count l))
                  Hsource Ho Hcol) as Hsaved.
    destruct (load_one new_RegExp fstamp (Some l) (save_filter c o))
      as [l1|] eqn:E1.
    2:{ unfold load_one in E1. by rewrite Hsaved in E1. }
    destruct (load_one_invariant new_RegExp fstamp l l1 _ Hinj Hc Hdom E1)
      as (C1 & D1 & N1 & K1 & (filter & Hf & Hheap) & Hfresh & G1).
    rewrite Hsaved in Hf. injection Hf as <-.
    destruct (IH l1 C1 D1 Hos) as (l' & E & C & K & Hlook & Hold & G).
    exists l'. split; [exact E|]. split; [exact C|]. split; [|split; [|split]].
    + rewrite K, K1, N1, <- app_assoc. done.
    + intros [|j] co Hj; simpl in Hj.
      * injection Hj as <-. rewrite Nat.add_0_r. rewrite Hold.
        -- by rewrite Hheap, lookup_insert_eq.
        -- rewrite Hheap, lookup_insert_eq. eauto.
      * rewrite <- Nat.add_succ_comm, <- N1. by apply Hlook.
    + intros k Hk. rewrite Hold.
      * rewrite Hheap, lookup_insert_ne; [done|]. intros <-.
        rewrite Hfresh in Hk. by destruct Hk.
      * rewrite Hheap. apply lookup_insert_is_Some.
        destruct (decide (loaded_id fstamp (l_count l) = k)); [by left|].
        by right.
    + by eapply same_groups_trans.
Qed.

Lemma saved_filters_objects (color_of : string -> list N)
    (h : gmap string FilterObject) (keys : list string) :
  omap (fun k => save_filter (color_of k) <$> h !! k) keys
  = map (fun co => save_filter co.1 co.2)
      (omap (fun k => pair (color_of k) <$> h !! k) keys).
Proof.
  induction keys as [|k keys IH]; [done|]. cbn [omap list_omap].
  destruct (h !! k); cbn [fmap option_fmap option_map map fst snd];
    by rewrite <- IH.
Qed.

Lemma objects_lookup (color_of : string -> list N)
    (h : gmap string FilterObject) (keys : list string) :
  (forall k, k ∈ keys -> is_Some (h !! k)) ->
  length (omap (fun k => pair (color_of k) <$> h !! k) keys) = length keys
  /\ forall j, omap (fun k => pair (color_of k) <$> h !! k) keys !! j
               = (keys !! j) ≫= (fun k => pair (color_of k) <$> h !! k).
Proof.
  induction keys as [|k keys IH]; intros H; [done|]. cbn [omap list_omap].
  destruct (H k) as [o Ho]; [by left|]. rewrite Ho.
  destruct IH as [I1 I2]; [intros k' Hk'; apply H; by right|].
  split; [simpl; by rewrite I1|]. intros [|j]; simpl; [by rewrite Ho|apply I2].
Qed.

(** X21. For every constructor of expressions for which the source of
    an expression gives the expression again: saving a consistent project
    whose filters have expressions made without flags, priorities between
    0 and 100 and colours that the constructor of [Filter] accepts, and
    loading what was saved, never fails and returns a consistent project
    of the same name with the same groups, in their order, and as many
    filters, in their order: the filter loaded as the [j]-th has the
    expression, mode, text, priority, focus action and [groupId] of the
    [j]-th saved, a new identity and an empty cache, and it is in the map
    of a group exactly when the saved filter was. *)
Theorem save_load_round_trip (new_RegExp : RegExpConstructor)
    (color_of : string -> list N) (h : gmap string FilterObject)
    (project : Project.t) (gstamp fstamp : nat -> string) :
  source_round_trip new_RegExp ->
  consistent h (Project.filters project) (Project.groups project) ->
  (forall k o, k ∈ Project.filters project -> h !! k = Some o ->
               loadable new_RegExp (this o)
               /\ Filter_throws (Some (color_of k)) = false) ->
  (forall i j, fstamp i = fstamp j -> i = j) ->
  exists h' project',
    loadProject new_RegExp (saveProject color_of h project) gstamp fstamp
    = Some (h', project')
    /\ Project.name project' = Project.name project
    /\ Project.filters project'
       = map (loaded_id fstamp) (seq 0 (length (Project.filters project)))
    /\ (forall j k o,
          Project.filters project !! j = Some k -> h !! k = Some o ->
          h' !! loaded_id fstamp j
          = Some {| this := reloaded (loaded_id fstamp j) (this o);
                    groupId := groupId o |})
    /\ Forall2
         (fun e e' =>
            e'.1 = e.1 /\ same_group e.2 e'.2
            /\ forall j k, Project.filters project !! j = Some k ->
                 (loaded_id fstamp j ∈ Group.filters e'.2
                  <-> k ∈ Group.filters e.2))
         (Project.groups project) (Project.groups project')
    /\ consistent h' (Project.filters project') (Project.groups project').
Proof.
  intros Hsource Hc Hload Hinj.
  set (keys := Project.filters project) in *.
  set (gs := Project.groups project) in *.
  pose proof Hc as (H1 & H2 & H3 & H4 & H5 & H6).
  set (cos := omap (fun k => pair (color_of k) <$> h !! k) keys).
  destruct (objects_lookup color_of h keys H2) as [Hlen Hos].
  fold cos in Hlen, Hos.
  set (gs0 := map (fun e => (e.1, group_with_filters [] e.2)) gs).
  assert (Hgroups : fold_left (load_group gstamp)
                      (indexed (map (fun e => save_group e.2) gs)) [] = gs0).
  { unfold indexed. rewrite length_map.
    rewrite (load_saved_groups gstamp gs 0 []); [done|done|].
    intros gk g Hg. destruct (H5 gk g Hg) as (G1 & G2 & _). done. }
  assert (Hgs0 : consistent ∅ [] gs0).
  { rewrite <- Hgroups. apply load_groups_consistent, consistent_empty. }
  destruct (load_saved_filters new_RegExp fstamp Hsource Hinj cos
              {| l_heap := ∅; l_filters := []; l_groups := gs0; l_count := 0 |})
    as (l' & E & C & K & Hlook & _ & G).
  { exact Hgs0. }
  { by intros k [o Ho]. }
  { apply Forall_forall. intros co Hco.
    apply list_elem_of_lookup in Hco as [j Hj]. rewrite Hos in Hj.
    destruct (keys !! j) as [k|] eqn:Hk; [|done]. simpl in Hj.
    destruct (h !! k) as [o|] eqn:Ho; [|done]. simpl in Hj.
    injection Hj as <-. cbn [fst snd].
    eapply Hload; [|exact Ho]. by eapply list_elem_of_lookup_2. }
  cbn [l_heap l_filters l_groups l_count] in K, Hlook, G.
  exists (l_heap l'),
         (project_with (l_filters l') (l_groups l')
            (createProject (Project.name project))).
  assert (Hobj : forall j k o, keys !! j = Some k -> h !! k = Some o ->
            l_heap l' !! loaded_id fstamp j
            = Some {| this := reloaded (loaded_id fstamp j) (this o);
                      groupId := groupId o |}).
  { intros j k o Hj Ho. apply (Hlook j (color_of k, o)).
    rewrite Hos, Hj. simpl. by rewrite Ho. }
  split; [|split; [done|split; [|split; [exact Hobj|split; [|exact C]]]]].
  - unfold loadProject, saveProject. cbn [pp_groups pp_filters pp_name].
    cbv zeta. fold gs keys. rewrite Hgroups, saved_filters_objects.
    fold cos. by rewrite E.
  - cbn. by rewrite K, Hlen.
  - cbn [Project.groups project_with].
    assert (G0 : Forall2 (fun e e' => e'.1 = e.1 /\ same_group e.2 e'.2) gs gs0).
    { subst gs0. apply Forall2_fmap_r, Forall_Forall2_diag, Forall_forall.
      intros e _. repeat split. }
    pose proof (same_groups_trans _ _ _ G0 G) as G'.
    apply Forall2_same_length_lookup. split; [by eapply Forall2_length|].
    intros i [gk g] [gk' g'] Hi Hi'.
    destruct (Forall2_lookup_lr _ _ _ _ _ _ G' Hi Hi') as [Hk Hsame].
    simpl in Hk, Hsame. subst gk'. split; [done|]. split; [done|].
    intros j k Hj. simpl.
    apply list_elem_of_lookup_2 in Hi, Hi'.
    assert (Hkin : k ∈ keys) by by eapply list_elem_of_lookup_2.
    destruct (H2 k Hkin) as [o Ho].
    pose proof (Hobj j k o Hj Ho) as Ho'.
    destruct C as (_ & _ & _ & _ & C5 & C6).
    assert (Hjin : loaded_id fstamp j ∈ l_filters l').
    { rewrite K. apply list_elem_of_fmap. exists j. split; [done|].
      apply elem_of_seq. apply lookup_lt_Some in Hj. lia. }
    split.
    + intros Hin. destruct (C5 gk g' Hi') as (_ & _ & _ & F4).
      destruct (F4 _ Hin) as (_ & o' & Ho'' & Hgid).
      rewrite Ho' in Ho''. injection Ho'' as <-. simpl in Hgid.
      by eapply H6.
    + intros Hin. destruct (H5 gk g Hi) as (_ & _ & _ & F4).
      destruct (F4 _ Hin) as (_ & o' & Ho'' & Hgid).
      rewrite Ho in Ho''. injection Ho'' as <-.
      by eapply (C6 _ _ gk g' Hjin Ho').
Qed.

Lemma saved_state_project : selectedProject saved_state = Some saved_project.
Proof. vm_compute. reflexivity. Qed.

Lemma saved_state_filters :
  forall k o,
    k ∈ Project.filters saved_project -> heap saved_state !! k = Some o ->
    loadable RegExp_new (this o)
    /\ Filter_throws (Some (saved_colors k)) = false.
Proof.
  assert (H2 : match heap saved_state !! "filter-2"%string with
               | Some o => priority (this o) = 50%Z
                           /\ RegExp_new (js "a+b") false false
                              = Some (regex (this o))
               | None => False
               end) by (vm_compute; split; reflexivity).
  assert (H3 : match heap saved_state !! "filter-3"%string with
               | Some o => priority (this o) = 50%Z
                           /\ RegExp_new (escapeRegExp (js "a.b")) false false
                              = Some (regex (this o))
               | None => False
               end) by (vm_compute; split; reflexivity).
  intros k o Hk Ho.
  assert (Hkeys : Project.filters saved_project
                  = ["filter-2"; "filter-3"]%string) by reflexivity.
  rewrite Hkeys in Hk. split; [|reflexivity].
  apply elem_of_cons in Hk as [->|Hk];
    [|apply list_elem_of_singleton in Hk as ->].
  - rewrite Ho in H2. destruct H2 as [Hp Hrx]. split; [lia|].
    by exists (js "a+b").
  - rewrite Ho in H3. destruct H3 as [Hp Hrx]. split; [lia|].
    by exists (escapeRegExp (js "a.b")).
Qed.

Lemma saved_state_consistent :
  consistent (heap saved_state) (Project.filters saved_project)
    (Project.groups saved_project).
Proof.
  assert (Hfresh : all_fresh new_state saved_commands).
  { split; [by intros k o ?|]. split; [done|].
    split; [vm_compute; reflexivity|]. by split. }
  pose proof (integrity_run_commands saved_commands new_state
                (integrity_createProject "logs") Hfresh) as Hi.
  unfold integrity in Hi. fold saved_state in Hi.
  by rewrite saved_state_project in Hi.
Qed.

Lemma save_load_round_trip_witness :
  exists h' project',
    loadProject RegExp_new (saveProject saved_colors (heap saved_state)
                              saved_project) unary_stamp unary_stamp
    = Some (h', project')
    /\ Project.name project' = Project.name saved_project
    /\ Project.filters project'
       = map (loaded_id unary_stamp)
           (seq 0 (length (Project.filters saved_project)))
    /\ (forall j k o,
          Project.filters saved_project !! j = Some k ->
          heap saved_state !! k = Some o ->
          h' !! loaded_id unary_stamp j
          = Some {| this := reloaded (loaded_id unary_stamp j) (this o);
                    groupId := groupId o |})
    /\ Forall2
         (fun e e' =>
            e'.1 = e.1 /\ same_group e.2 e'.2
            /\ forall j k, Project.filters saved_project !! j = Some k ->
                 (loaded_id unary_stamp j ∈ Group.filters e'.2
                  <-> k ∈ Group.filters e.2))
         (Project.groups saved_project) (Project.groups project')
    /\ consistent h' (Project.filters project') (Project.groups project').
Proof.
  apply (save_load_round_trip RegExp_new saved_colors (heap saved_state)
           saved_project unary_stamp unary_stamp).
  - intros p rx. apply RegExp_new_source.
  - apply saved_state_consistent.
  - apply saved_state_filters.
  - apply unary_stamp_inj.
Defined.

(** What was saved and what is loaded again, written out. *)
Example scenario_round_trip :
  Project.groups saved_project
  = [("group-1"%string,
      {| Group.filters := ["filter-2"%string]; Group.isHighlighted := true;
         Group.focusAction := INCLUDED; Group.name := "errors";
         Group.id := "group-1"; Group.priority := 100 |})]
  /\ (fun loaded => Project.groups loaded.2)
       <$> loadProject RegExp_new
             (saveProject saved_colors (heap saved_state) saved_project)
             unary_stamp unary_stamp
     = Some [("group-1"%string,
              {| Group.filters := [generateId "filter" (unary_stamp 0)];
                 Group.isHighlighted := true; Group.focusAction := INCLUDED;
                 Group.name := "errors"; Group.id := "group-1";
                 Group.priority := 100 |})].
Proof. split; vm_compute; reflexivity. Qed.
